(** * Word-Ladder: the pathfinding engine of [algorithm.js]

    A shallow embedding of the class [WordLadderAlgorithm] and the
    properties of its dictionary graph, its two path searches, its
    heuristic, its move selection and its dictionary loading.

    Modelling conventions.
    - A JavaScript string is a [list ascii]: one [ascii] per code unit,
      restricted to the code units 0..255.
    - A JavaScript [Map] is an association list in insertion order
      ([JsMap]); a [Set] is a duplicate-free list in insertion order
      ([JsSet]).  Iteration order therefore is the order of the source.
    - A JavaScript number is a [num]: an exact rational, [+Infinity],
      [-Infinity] or [NaN].  The special values follow IEEE 754; finite
      values are carried exactly (rounding to binary64 is not
      represented).  The value of the heuristic is given a second time
      as the code computes it, in binary64 ([Binary64]).
    - The mutable fields of the object are the record [engine]; a method
      that mutates them returns the new record next to its result. *)

From Stdlib Require Import List Ascii String Arith Lia Bool ZArith QArith Qcanon Qround Permutation.
From Stdlib Require Import Orders OrdersTac Morphisms RelationClasses Lqa.
From Stdlib Require PrimFloat Uint63 SpecFloat FloatOps FloatAxioms.
Import ListNotations.

Abbreviation length := List.length.

Open Scope nat_scope.
Open Scope list_scope.

(** ** Equality tests *)

Class EqB (A : Type) := eqb : A -> A -> bool.

Class EqBLaw (A : Type) {E : EqB A} :=
  eqb_spec : forall x y : A, reflect (x = y) (eqb x y).

Arguments EqBLaw A {E}.

#[export] Instance EqB_nat : EqB nat := Nat.eqb.

#[export] Instance EqB_ascii : EqB ascii := Ascii.eqb.

Fixpoint list_eqb {A} `{EqB A} (l1 l2 : list A) : bool :=
  match l1, l2 with
  | [], [] => true
  | x :: r1, y :: r2 => eqb x y && list_eqb r1 r2
  | _, _ => false
  end.

#[export] Instance EqB_list {A} `{EqB A} : EqB (list A) := list_eqb.

(** ** Strings *)

Definition word := list ascii.

Definition str (s : string) : word := list_ascii_of_string s.

(** [s[i]]: the code unit at index [i], [None] for [undefined]. *)
Definition char_at (s : word) (i : nat) : option ascii := nth_error s i.

Definition opt_ascii_eqb (a b : option ascii) : bool :=
  match a, b with
  | Some x, Some y => eqb x y
  | None, None => true
  | _, _ => false
  end.

(** A string is truthy when it is not empty. *)
Definition truthy (w : word) : bool :=
  match w with [] => false | _ => true end.

(** ** JavaScript [Map] and [Set], in insertion order *)

Module JsMap.
Section Defs.
Context {K V : Type} `{EqB K}.

Definition t := list (K * V).

Fixpoint get (k : K) (m : t) : option V :=
  match m with
  | [] => None
  | (k', v) :: r => if eqb k k' then Some v else get k r
  end.

Definition has (k : K) (m : t) : bool :=
  match get k m with Some _ => true | None => false end.

(** [m.set(k, v)]: an existing key keeps its place, a new key goes last. *)
Fixpoint set (k : K) (v : V) (m : t) : t :=
  match m with
  | [] => [(k, v)]
  | (k', v') :: r => if eqb k k' then (k, v) :: r else (k', v') :: set k v r
  end.

Fixpoint delete (k : K) (m : t) : t :=
  match m with
  | [] => []
  | (k', v') :: r => if eqb k k' then r else (k', v') :: delete k r
  end.

Definition keys (m : t) : list K := map fst m.

End Defs.
Arguments t : clear implicits.
End JsMap.

Module JsSet.
Section Defs.
Context {A : Type} `{EqB A}.

Definition t := list A.

Fixpoint has (x : A) (s : t) : bool :=
  match s with
  | [] => false
  | y :: r => eqb x y || has x r
  end.

(** [s.add(x)]: a new element goes last, a present one changes nothing. *)
Definition add (x : A) (s : t) : t := if has x s then s else s ++ [x].

(** [new Set(iterable)] *)
Definition of_list (l : list A) : t := fold_left (fun s x => add x s) l [].

End Defs.
Arguments t : clear implicits.
End JsSet.

(** ** JavaScript numbers *)

Inductive num := Fin (q : Qc) | PInf | NInf | NaN.

Definition qc_ltb (x y : Qc) : bool :=
  match (x ?= y)%Qc with Lt => true | _ => false end.

Definition qc_leb (x y : Qc) : bool :=
  match (x ?= y)%Qc with Gt => false | _ => true end.

Definition qc_eqb (x y : Qc) : bool :=
  match (x ?= y)%Qc with Eq => true | _ => false end.

Definition qc_of_nat (n : nat) : Qc := Q2Qc (inject_Z (Z.of_nat n)).

Definition num_of_nat (n : nat) : num := Fin (qc_of_nat n).

(** A decimal literal [n/d]. *)
Definition lit (n : Z) (d : positive) : num := Fin (Q2Qc (n # d)).

(** [a < b] *)
Definition num_ltb (a b : num) : bool :=
  match a, b with
  | NaN, _ | _, NaN => false
  | Fin x, Fin y => qc_ltb x y
  | NInf, NInf => false
  | NInf, _ => true
  | _, NInf => false
  | PInf, _ => false
  | Fin _, PInf => true
  end.

(** [a <= b] *)
Definition num_leb (a b : num) : bool :=
  match a, b with
  | NaN, _ | _, NaN => false
  | Fin x, Fin y => qc_leb x y
  | NInf, _ => true
  | _, NInf => false
  | _, PInf => true
  | PInf, _ => false
  end.

(** [a > b] *)
Definition num_gtb (a b : num) : bool := num_ltb b a.

Definition num_neg (a : num) : num :=
  match a with
  | Fin x => Fin (- x)%Qc
  | PInf => NInf
  | NInf => PInf
  | NaN => NaN
  end.

(** [a + b] *)
Definition num_add (a b : num) : num :=
  match a, b with
  | NaN, _ | _, NaN => NaN
  | Fin x, Fin y => Fin (x + y)%Qc
  | PInf, NInf | NInf, PInf => NaN
  | PInf, _ | _, PInf => PInf
  | NInf, _ | _, NInf => NInf
  end.

(** [a - b] *)
Definition num_sub (a b : num) : num := num_add a (num_neg b).

Definition sign_inf (positive : bool) : num := if positive then PInf else NInf.

(** [a * b] *)
Definition num_mul (a b : num) : num :=
  match a, b with
  | NaN, _ | _, NaN => NaN
  | Fin x, Fin y => Fin (x * y)%Qc
  | Fin x, PInf | PInf, Fin x =>
      if qc_eqb x 0 then NaN else sign_inf (qc_ltb 0 x)
  | Fin x, NInf | NInf, Fin x =>
      if qc_eqb x 0 then NaN else sign_inf (qc_ltb x 0)
  | PInf, PInf | NInf, NInf => PInf
  | PInf, NInf | NInf, PInf => NInf
  end.

(** [a / b]; a zero divisor is taken as [+0]. *)
Definition num_div (a b : num) : num :=
  match a, b with
  | NaN, _ | _, NaN => NaN
  | Fin x, Fin y =>
      if qc_eqb y 0
      then (if qc_eqb x 0 then NaN else sign_inf (qc_ltb 0 x))
      else Fin (x / y)%Qc
  | Fin _, _ => Fin 0%Qc
  | PInf, Fin y => sign_inf (qc_leb 0 y)
  | NInf, Fin y => sign_inf (qc_ltb y 0)
  | _, _ => NaN
  end.

(** [Math.max(a, b)] and [Math.min(a, b)] *)
Definition num_max (a b : num) : num :=
  match a, b with
  | NaN, _ | _, NaN => NaN
  | _, _ => if num_ltb a b then b else a
  end.

Definition num_min (a b : num) : num :=
  match a, b with
  | NaN, _ | _, NaN => NaN
  | _, _ => if num_ltb b a then b else a
  end.

(** [a === b] *)
Definition num_eqb (a b : num) : bool :=
  match a, b with
  | Fin x, Fin y => qc_eqb x y
  | PInf, PInf | NInf, NInf => true
  | _, _ => false
  end.

(** Truthiness of a number: [0] and [NaN] are falsy. *)
Definition num_truthy (a : num) : bool :=
  match a with
  | Fin x => negb (qc_eqb x 0)
  | NaN => false
  | _ => true
  end.

(** [x || Infinity] for [x] a number or [undefined]. *)
Definition or_infinity (x : option num) : num :=
  match x with
  | Some a => if num_truthy a then a else PInf
  | None => PInf
  end.

Definition is_fin (a : num) : Prop :=
  match a with Fin _ => True | _ => False end.

(** ** The engine *)

Definition path := list word.

Record engine := mkEngine {
  wordSet : JsSet.t word;
  wordGraph : JsMap.t word (JsSet.t word);
  wordsByLength : JsMap.t nat (JsSet.t word);
  precomputedPaths : JsMap.t word path;
  heuristicCache : JsMap.t word num
}.

(** The constructor. *)
Definition new_engine : engine := mkEngine [] [] [] [] [].

Definition with_graph (e : engine) g : engine :=
  mkEngine (wordSet e) g (wordsByLength e) (precomputedPaths e) (heuristicCache e).

Definition with_paths (e : engine) p : engine :=
  mkEngine (wordSet e) (wordGraph e) (wordsByLength e) p (heuristicCache e).

Definition with_heuristics (e : engine) h : engine :=
  mkEngine (wordSet e) (wordGraph e) (wordsByLength e) (precomputedPaths e) h.

(** ** Dictionary loading: [initialize] *)

Definition is_space (c : ascii) : bool :=
  let n := nat_of_ascii c in
  ((9 <=? n) && (n <=? 13)) || (n =? 32) || (n =? 160).

Fixpoint trimStart (s : word) : word :=
  match s with
  | c :: r => if is_space c then trimStart r else s
  | [] => []
  end.

(** [s.trim()] *)
Definition trim (s : word) : word := rev (trimStart (rev (trimStart s))).

(** [s.split(sep)] for a separator of one code unit. *)
Fixpoint split (sep : ascii) (s : word) : list word :=
  match s with
  | [] => [[]]
  | c :: r =>
      if eqb c sep then [] :: split sep r
      else match split sep r with
           | p :: ps => (c :: p) :: ps
           | [] => [[c]]
           end
  end.

Definition toLowerCaseChar (c : ascii) : ascii :=
  let n := nat_of_ascii c in
  if ((65 <=? n) && (n <=? 90))
     || ((192 <=? n) && (n <=? 222) && negb (n =? 215))
  then ascii_of_nat (n + 32) else c.

(** [s.toLowerCase()] *)
Definition toLowerCase (s : word) : word := map toLowerCaseChar s.

Definition is_lower (c : ascii) : bool :=
  let n := nat_of_ascii c in (97 <=? n) && (n <=? 122).

(** [/^[a-z]+$/.test(s)] *)
Definition test_lower_alpha (s : word) : bool :=
  match s with
  | [] => false
  | _ => forallb is_lower s
  end.

(** The body of the [map] callback: the last space-separated token of
    the trimmed line, in lower case. *)
Definition processLine (line : word) : word :=
  let parts := split " "%char (trim line) in
  toLowerCase (last parts []).

Definition processWords (lines : list word) : list word :=
  filter test_lower_alpha (map processLine lines).

Definition addByLength (m : JsMap.t nat (JsSet.t word)) (w : word)
  : JsMap.t nat (JsSet.t word) :=
  let m1 := if JsMap.has (length w) m then m else JsMap.set (length w) [] m in
  match JsMap.get (length w) m1 with
  | Some s => JsMap.set (length w) (JsSet.add w s) m1
  | None => m1
  end.

(** [this.wordsByLength.get(n) || []] *)
Definition class_of (m : JsMap.t nat (JsSet.t word)) (n : nat) : JsSet.t word :=
  match JsMap.get n m with Some s => s | None => [] end.

(** ** Graph construction: [buildWordGraph] *)

(** [word.substring(0, i) + '*' + word.substring(i + 1)] *)
Definition pattern (w : word) (i : nat) : word :=
  firstn i w ++ "*"%char :: skipn (S i) w.

Definition buckets := JsMap.t word (list word).

Definition pushBucket (b : buckets) (p w : word) : buckets :=
  let b1 := if JsMap.has p b then b else JsMap.set p [] b in
  match JsMap.get p b1 with
  | Some l => JsMap.set p (l ++ [w]) b1
  | None => b1
  end.

Definition bucketWord (b : buckets) (w : word) : buckets :=
  fold_left (fun b i => pushBucket b (pattern w i) w) (seq 0 (length w)) b.

Definition makeBuckets (ws : list word) : buckets := fold_left bucketWord ws [].

Definition graph := JsMap.t word (JsSet.t word).

(** [if (!this.wordGraph.has(w)) this.wordGraph.set(w, new Set())] *)
Definition ensureNode (g : graph) (w : word) : graph :=
  if JsMap.has w g then g else JsMap.set w [] g.

(** [this.wordGraph.get(w1).add(w2)] *)
Definition addNeighbor (g : graph) (w1 w2 : word) : graph :=
  match JsMap.get w1 g with
  | Some s => JsMap.set w1 (JsSet.add w2 s) g
  | None => g
  end.

Definition addEdge (g : graph) (e : word * word) : graph :=
  let (word1, word2) := e in
  let g := ensureNode g word1 in
  let g := ensureNode g word2 in
  let g := addNeighbor g word1 word2 in
  addNeighbor g word2 word1.

(** The index pairs [i < j] of the two inner loops, in their order. *)
Fixpoint pairs (l : list word) : list (word * word) :=
  match l with
  | [] => []
  | x :: r => map (pair x) r ++ pairs r
  end.

Definition linkBucket (g : graph) (b : word * list word) : graph :=
  fold_left addEdge (pairs (snd b)) g.

Definition buildForLength (g : graph) (c : nat * JsSet.t word) : graph :=
  fold_left linkBucket (makeBuckets (snd c)) g.

Definition buildWordGraph (e : engine) : engine :=
  with_graph e (fold_left buildForLength (wordsByLength e) (wordGraph e)).

Definition initialize (lines : list word) (e : engine) : engine :=
  let processedWords := processWords lines in
  let e1 := mkEngine (JsSet.of_list processedWords) (wordGraph e)
              (fold_left addByLength processedWords (wordsByLength e))
              (precomputedPaths e) (heuristicCache e) in
  buildWordGraph e1.

(** ** [loadWordList] of [game.js] *)








(** [this.wordGraph.get(w) || new Set()] *)
Definition neighbors (g : graph) (w : word) : JsSet.t word :=
  match JsMap.get w g with
  | Some s => s
  | None => []
  end.

(** [getNeighbors(word)] *)
Definition getNeighbors (e : engine) (w : word) : list word :=
  neighbors (wordGraph e) w.

(** [isValidWord(word)] *)
Definition isValidWord (e : engine) (w : word) : bool :=
  JsSet.has (toLowerCase w) (wordSet e).

(** [areNeighbors(word1, word2)]: the loop with its early exit. *)
Fixpoint areNeighbors_loop (w1 w2 : word) (i n differences : nat) : bool :=
  match n with
  | 0 => differences =? 1
  | S n' =>
      if negb (opt_ascii_eqb (char_at w1 i) (char_at w2 i))
      then if 1 <? S differences then false
           else areNeighbors_loop w1 w2 (S i) n' (S differences)
      else areNeighbors_loop w1 w2 (S i) n' differences
  end.

Definition areNeighbors (w1 w2 : word) : bool :=
  if negb (length w1 =? length w2) then false
  else areNeighbors_loop w1 w2 0 (length w1) 0.

(** ** The heuristic: [heuristic] and its three components *)

(** [`${word1}-${word2}`] *)
Definition cacheKey (word1 word2 : word) : word := word1 ++ "-"%char :: word2.

(** The first loop of [heuristic]: the indices [i < word1.length] with
    [word1[i] !== word2[i]]. *)
Definition hammingDistance (word1 word2 : word) : nat :=
  length (filter (fun i => negb (opt_ascii_eqb (char_at word1 i) (char_at word2 i)))
                 (seq 0 (length word1))).

(** One row of the matrix of [calculateLevenshtein]: [c2] is
    [word2.charAt(i - 1)], [diag] is [matrix[i-1][j-1]], [ups] holds
    [matrix[i-1][j]] onwards and [left] is [matrix[i][j-1]]. *)
Fixpoint fillRow (c2 : ascii) (word1 : word) (diag : nat) (ups : list nat) (left : nat)
  : list nat :=
  match word1, ups with
  | c1 :: word1', up :: ups' =>
      let cell := if eqb c2 c1 then diag
                  else Nat.min (Nat.min (diag + 1) (left + 1)) (up + 1) in
      cell :: fillRow c2 word1' up ups' cell
  | _, _ => []
  end.

Definition nextRow (word1 : word) (prev : list nat) (ic : nat * ascii) : list nat :=
  let (i, c2) := ic in
  match prev with
  | d :: ups => i :: fillRow c2 word1 d ups i
  | [] => [i]
  end.

(** The last row of the matrix, [matrix[word2.length]]. *)
Definition levenshteinRow (word1 word2 : word) : list nat :=
  fold_left (nextRow word1) (combine (seq 1 (length word2)) word2)
            (seq 0 (S (length word1))).

(** [calculateLevenshtein(word1, word2)] *)
Definition calculateLevenshtein (word1 word2 : word) : nat :=
  nth (length word1) (levenshteinRow word1 word2) 0.

(** [freq[char] = (freq[char] || 0) + 1] over the word. *)
Definition countChars (w : word) : JsMap.t ascii nat :=
  fold_left (fun freq c =>
               JsMap.set c (match JsMap.get c freq with Some n => n | None => 0 end + 1) freq)
            w [].

Definition freqOf (freq : JsMap.t ascii nat) (c : ascii) : nat :=
  match JsMap.get c freq with Some n => n | None => 0 end.

Definition absDiff (a b : nat) : nat := (a - b) + (b - a).

(** [calculateCharFrequencyDifference(word1, word2)] *)
Definition calculateCharFrequencyDifference (word1 word2 : word) : nat :=
  let freq1 := countChars word1 in
  let freq2 := countChars word2 in
  let allChars := JsSet.of_list (word1 ++ word2) in
  fold_left (fun diff c => diff + absDiff (freqOf freq1 c) (freqOf freq2 c)) allChars 0.

(** [hammingDistance * 0.6 + levenshteinDistance * 0.3 + charFreqDiff * 0.1] *)
Definition weighted (hammingDist levenshteinDist charFreqDiff : nat) : num :=
  num_add (num_add (num_mul (num_of_nat hammingDist) (lit 6 10))
                   (num_mul (num_of_nat levenshteinDist) (lit 3 10)))
          (num_mul (num_of_nat charFreqDiff) (lit 1 10)).

(** The value [heuristic] computes on a cache miss. *)
Definition heuristicValue (word1 word2 : word) : num :=
  weighted (hammingDistance word1 word2)
           (calculateLevenshtein word1 word2)
           (calculateCharFrequencyDifference word1 word2).

(** [heuristic(word1, word2)]: the value and the engine with its cache. *)
Definition heuristic (word1 word2 : word) (e : engine) : num * engine :=
  let key := cacheKey word1 word2 in
  match JsMap.get key (heuristicCache e) with
  | Some v => (v, e)
  | None =>
      let v := heuristicValue word1 word2 in
      (v, with_heuristics e (JsMap.set key v (heuristicCache e)))
  end.

(** ** A* search: [findPath] *)

Record search := mkSearch {
  openSet : JsMap.t word num;
  closedSet : JsSet.t word;
  cameFrom : JsMap.t word word;
  gScore : JsMap.t word num;
  fScore : JsMap.t word num
}.

(** A number read from a map: [undefined] converts to [NaN]. *)
Definition to_number (x : option num) : num :=
  match x with Some a => a | None => NaN end.

(** The scan of the open set for the lowest [f]; [None] is [null]. *)
Definition lowestStep (acc : option word * num) (entry : word * num) : option word * num :=
  let (node, f) := entry in
  if num_ltb f (snd acc) then (Some node, f) else acc.

Definition lowest (open : JsMap.t word num) : option word :=
  fst (fold_left lowestStep open (None, PInf)).

(** [useHeuristic ? this.heuristic(w, end) : 0] *)
Definition estimate (useHeuristic : bool) (w end_ : word) (e : engine) : num * engine :=
  if useHeuristic then heuristic w end_ e else (Fin 0%Qc, e).

(** The body of the loop over the neighbours of [current]. *)
Definition relax (end_ : word) (useHeuristic : bool) (current : word)
    (st : search * engine) (neighbor : word) : search * engine :=
  let (s, e) := st in
  if JsSet.has neighbor (closedSet s) then st
  else
    let tentativeGScore := num_add (to_number (JsMap.get current (gScore s))) (Fin 1%Qc) in
    let open1 := if JsMap.has neighbor (openSet s) then openSet s
                 else JsMap.set neighbor PInf (openSet s) in
    if num_ltb tentativeGScore (or_infinity (JsMap.get neighbor (gScore s))) then
      let cameFrom' := JsMap.set neighbor current (cameFrom s) in
      let gScore' := JsMap.set neighbor tentativeGScore (gScore s) in
      let (h, e') := estimate useHeuristic neighbor end_ e in
      let f := num_add tentativeGScore h in
      let fScore' := JsMap.set neighbor f (fScore s) in
      (mkSearch (JsMap.set neighbor f open1) (closedSet s) cameFrom' gScore' fScore', e')
    else (mkSearch open1 (closedSet s) (cameFrom s) (gScore s) (fScore s), e).

(** [while (temp) { path.unshift(temp); temp = cameFrom.get(temp); }];
    [None] when the fuel runs out. *)
Fixpoint reconstructPath (fuel : nat) (came : JsMap.t word word)
    (temp : option word) (acc : path) : option path :=
  match fuel with
  | 0 => None
  | S fuel' =>
      match temp with
      | Some t =>
          if truthy t then reconstructPath fuel' came (JsMap.get t came) (t :: acc)
          else Some acc
      | None => Some acc
      end
  end.

(** The main loop.  When the scan leaves [current] at [null] the body
    changes nothing that a later iteration reads ([null] joins the closed
    set, which is only asked about words), so the loop goes on with the
    same state.  [None] when the fuel runs out. *)
Fixpoint astar (fuel : nat) (end_ : word) (useHeuristic : bool) (key : word)
    (s : search) (e : engine) : option (option path * engine) :=
  match fuel with
  | 0 => None
  | S fuel' =>
      match openSet s with
      | [] => Some (None, e)
      | _ =>
          match lowest (openSet s) with
          | None => astar fuel' end_ useHeuristic key s e
          | Some current =>
              if eqb current end_ then
                match reconstructPath fuel' (cameFrom s) (Some current) [] with
                | Some p =>
                    Some (Some p, with_paths e (JsMap.set key p (precomputedPaths e)))
                | None => None
                end
              else
                let s1 := mkSearch (JsMap.delete current (openSet s))
                                   (JsSet.add current (closedSet s))
                                   (cameFrom s) (gScore s) (fScore s) in
                let (s2, e2) :=
                  fold_left (relax end_ useHeuristic current)
                            (neighbors (wordGraph e) current) (s1, e) in
                astar fuel' end_ useHeuristic key s2 e2
          end
      end
  end.

(** [findPath(start, end, useHeuristic)]: [Some (Some p, e')] for a path,
    [Some (None, e')] for [null], [None] when the fuel runs out. *)
Definition findPath (fuel : nat) (start end_ : word) (useHeuristic : bool) (e : engine)
  : option (option path * engine) :=
  if negb (length start =? length end_) then Some (None, e)
  else if eqb start end_ then Some (Some [start], e)
  else
    let key := cacheKey start end_ in
    match JsMap.get key (precomputedPaths e) with
    | Some p => Some (Some p, e)
    | None =>
        let (h, e1) := estimate useHeuristic start end_ e in
        let s0 := mkSearch [(start, Fin 0%Qc)] [] [] [(start, Fin 0%Qc)] [(start, h)] in
        astar fuel end_ useHeuristic key s0 e1
    end.

(** ** Bidirectional search: [findPathBidirectional] *)

Record frontier := mkFrontier {
  queue : list word;
  visited : JsMap.t word nat;
  parent : JsMap.t word word
}.

(** What a scan of neighbours ends with: the frontier to go on with, or
    the meeting point of the early [return] and the frontier as it is
    then. *)
Inductive scanned := Continue (f : frontier) | Meet (meetingPoint : word) (f : frontier).

(** The loop over the neighbours of [current]. *)
Fixpoint scanNeighbors (nbrs : list word) (other : JsMap.t word nat)
    (current : word) (level : nat) (f : frontier) : scanned :=
  match nbrs with
  | [] => Continue f
  | neighbor :: rest =>
      if JsMap.has neighbor other then Meet neighbor f
      else if negb (JsMap.has neighbor (visited f)) then
        scanNeighbors rest other current level
          (mkFrontier (queue f ++ [neighbor])
                      (JsMap.set neighbor level (visited f))
                      (JsMap.set neighbor current (parent f)))
      else scanNeighbors rest other current level f
  end.

(** [for (let i = 0; i < size; i++) { const current = queue.shift(); ... }];
    a [shift] of an empty queue gives [undefined], which has no
    neighbours. *)
Fixpoint expand (size : nat) (g : graph) (other : JsMap.t word nat)
    (level : nat) (f : frontier) : scanned :=
  match size with
  | 0 => Continue f
  | S size' =>
      match queue f with
      | [] => expand size' g other level f
      | current :: q =>
          match scanNeighbors (neighbors g current) other current level
                              (mkFrontier q (visited f) (parent f)) with
          | Continue f' => expand size' g other level f'
          | Meet m f' => Meet m f'
          end
      end
  end.

Definition opt_word_eqb (a b : option word) : bool :=
  match a, b with
  | Some x, Some y => eqb x y
  | None, None => true
  | _, _ => false
  end.

Definition get_opt {V} (k : option word) (m : JsMap.t word V) : option V :=
  match k with Some w => JsMap.get w m | None => None end.

(** [while (current !== start) { forwardPath.unshift(current);
    current = forwardParent.get(current); }]; [current] may be
    [undefined].  [None] when the fuel runs out. *)
Fixpoint forwardChain (fuel : nat) (forwardParent : JsMap.t word word) (start : word)
    (current : option word) (forwardPath : list (option word))
  : option (list (option word)) :=
  match fuel with
  | 0 => None
  | S fuel' =>
      if negb (opt_word_eqb current (Some start)) then
        forwardChain fuel' forwardParent start (get_opt current forwardParent)
                     (current :: forwardPath)
      else Some forwardPath
  end.

(** [while (current && current !== end) { backwardPath.push(current);
    current = backwardParent.get(current); }]; returns the path and the
    last [current]. *)
Fixpoint backwardChain (fuel : nat) (backwardParent : JsMap.t word word) (end_ : word)
    (current : option word) (backwardPath : list (option word))
  : option (list (option word) * option word) :=
  match fuel with
  | 0 => None
  | S fuel' =>
      match current with
      | Some c =>
          if truthy c && negb (eqb c end_) then
            backwardChain fuel' backwardParent end_ (JsMap.get c backwardParent)
                          (backwardPath ++ [current])
          else Some (backwardPath, current)
      | None => Some (backwardPath, current)
      end
  end.

(** [reconstructBidirectionalPath] *)
Definition reconstructBidirectionalPath (fuel : nat) (meetingPoint : word)
    (forwardParent backwardParent : JsMap.t word word) (start end_ : word)
  : option (list (option word)) :=
  match forwardChain fuel forwardParent start (Some meetingPoint) [] with
  | None => None
  | Some forwardPath =>
      let forwardPath := Some start :: forwardPath in
      match backwardChain fuel backwardParent end_
                          (JsMap.get meetingPoint backwardParent) [] with
      | None => None
      | Some (backwardPath, current) =>
          let backwardPath :=
            if opt_word_eqb current (Some end_) then backwardPath ++ [Some end_]
            else backwardPath in
          Some (forwardPath ++ backwardPath)
      end
  end.

(** The [while] loop over the two frontiers. *)
Fixpoint bidirectional (fuel : nat) (g : graph) (start end_ : word) (level : nat)
    (fwd bwd : frontier) : option (option (list (option word))) :=
  match fuel with
  | 0 => None
  | S fuel' =>
      match queue fwd, queue bwd with
      | _ :: _, _ :: _ =>
          let level := S level in
          match expand (length (queue fwd)) g (visited bwd) level fwd with
          | Meet m fwd' =>
              option_map Some
                (reconstructBidirectionalPath fuel' m (parent fwd') (parent bwd) start end_)
          | Continue fwd' =>
              match expand (length (queue bwd)) g (visited fwd') level bwd with
              | Meet m bwd' =>
                  option_map Some
                    (reconstructBidirectionalPath fuel' m (parent fwd') (parent bwd') start end_)
              | Continue bwd' => bidirectional fuel' g start end_ level fwd' bwd'
              end
          end
      | _, _ => Some None
      end
  end.

(** [findPathBidirectional(start, end)]: [Some (Some p)] for a path,
    [Some None] for [null], [None] when the fuel runs out.  The method
    reads the graph only and writes no field. *)
Definition findPathBidirectional (fuel : nat) (start end_ : word) (e : engine)
  : option (option (list (option word))) :=
  if negb (length start =? length end_) then Some None
  else if eqb start end_ then Some (Some [Some start])
  else
    bidirectional fuel (wordGraph e) start end_ 0
      (mkFrontier [start] [(start, 0)] [])
      (mkFrontier [end_] [(end_, 0)] []).

(** ** Random draws *)

(** [Math.random()] reads a tape of rationals: a draw is the fractional
    part of the next entry, so every draw lies in [0, 1) and every value
    of [0, 1) can be drawn; an exhausted tape draws [0]. *)
Definition tape := list Qc.

Definition frac (q : Qc) : Qc := (q - Q2Qc (inject_Z (Qfloor q)))%Qc.

Definition random (t : tape) : Qc * tape :=
  match t with
  | [] => (0%Qc, [])
  | q :: t' => (frac q, t')
  end.

(** [Math.floor(r * n)] for a draw [r]. *)
Definition floorMul (r : Qc) (n : nat) : nat :=
  Z.to_nat (Qfloor (r * qc_of_nat n)%Qc).

(** [Math.floor(Math.random() * n)] *)
Definition randomIndex (n : nat) (t : tape) : nat * tape :=
  let (r, t') := random t in (floorMul r n, t').

(** ** Position evaluation and minimax *)

(** [playerLadder[playerLadder.length - 1]], for a non-empty ladder. *)
Definition lastWord (ladder : list word) : word := last ladder [].

(** [this.findPath(a, b)?.length || Infinity] *)
Definition lengthOrInfinity (p : option path) : num :=
  match p with
  | Some l => if length l =? 0 then PInf else num_of_nat (length l)
  | None => PInf
  end.

(** [evaluatePosition(currentWord, targetWord, playerLadder)] *)
Definition evaluatePosition (fuel : nat) (currentWord targetWord : word)
    (playerLadder : list word) (e : engine) : option (num * engine) :=
  let (distanceToTarget, e1) := heuristic currentWord targetWord e in
  match findPath fuel currentWord targetWord true e1 with
  | None => None
  | Some (p, e2) =>
      let pathLength := lengthOrInfinity p in
      let score := num_sub (num_sub (num_of_nat 100) distanceToTarget)
                           (num_mul pathLength (num_of_nat 2)) in
      match playerLadder with
      | [] => Some (score, e2)
      | _ =>
          let playerCurrent := lastWord playerLadder in
          let (playerDistance, e3) := heuristic playerCurrent targetWord e2 in
          Some (num_add score
                  (num_mul (num_sub playerDistance distanceToTarget) (num_of_nat 10)),
                e3)
      end
  end.

(** The result object [{ score, move }] with the engine after the call. *)
Definition verdict : Type := num * option word * engine.

(** The loop of the maximizing branch; [rec] is the recursive call at
    [depth - 1]. *)
Fixpoint maxLoop (rec : word -> num -> num -> engine -> option verdict)
    (nbrs : list word) (alpha beta maxScore : num) (bestMove : option word)
    (e : engine) : option verdict :=
  match nbrs with
  | [] => Some (maxScore, bestMove, e)
  | neighbor :: rest =>
      match rec neighbor alpha beta e with
      | None => None
      | Some (score, _, e1) =>
          let maxScore' := if num_gtb score maxScore then score else maxScore in
          let bestMove' := if num_gtb score maxScore then Some neighbor else bestMove in
          let alpha' := num_max alpha score in
          if num_leb beta alpha' then Some (maxScore', bestMove', e1)
          else maxLoop rec rest alpha' beta maxScore' bestMove' e1
      end
  end.

(** The loop of the minimizing branch. *)
Fixpoint minLoop (rec : word -> num -> num -> engine -> option verdict)
    (nbrs : list word) (alpha beta minScore : num) (bestMove : option word)
    (e : engine) : option verdict :=
  match nbrs with
  | [] => Some (minScore, bestMove, e)
  | neighbor :: rest =>
      match rec neighbor alpha beta e with
      | None => None
      | Some (score, _, e1) =>
          let minScore' := if num_ltb score minScore then score else minScore in
          let bestMove' := if num_ltb score minScore then Some neighbor else bestMove in
          let beta' := num_min beta score in
          if num_leb beta' alpha then Some (minScore', bestMove', e1)
          else minLoop rec rest alpha beta' minScore' bestMove' e1
      end
  end.

(** [minimax(currentWord, targetWord, depth, alpha, beta, isMaximizing,
    playerLadder)] *)
Fixpoint minimax (fuel : nat) (depth : nat) (currentWord targetWord : word)
    (alpha beta : num) (isMaximizing : bool) (playerLadder : list word)
    (e : engine) : option verdict :=
  match depth with
  | 0 =>
      option_map (fun r => (fst r, None, snd r))
                 (evaluatePosition fuel currentWord targetWord playerLadder e)
  | S depth' =>
      if eqb currentWord targetWord then
        option_map (fun r => (fst r, None, snd r))
                   (evaluatePosition fuel currentWord targetWord playerLadder e)
      else
        match neighbors (wordGraph e) currentWord with
        | [] => Some (if isMaximizing then NInf else PInf, None, e)
        | nbrs =>
            if isMaximizing then
              maxLoop (fun n a b e' =>
                         minimax fuel depth' n targetWord a b false playerLadder e')
                      nbrs alpha beta NInf None e
            else
              minLoop (fun n a b e' =>
                         minimax fuel depth' n targetWord a b true playerLadder e')
                      nbrs alpha beta PInf None e
        end
  end.

(** [selectExpertMove(currentWord, targetWord, playerLadder)]: the whole
    result of the root call; the method returns its [move]. *)
Definition expertRoot (fuel : nat) (currentWord targetWord : word)
    (playerLadder : list word) (e : engine) : option verdict :=
  minimax fuel 4 currentWord targetWord NInf PInf true playerLadder e.

Definition selectExpertMove (fuel : nat) (currentWord targetWord : word)
    (playerLadder : list word) (e : engine) : option (option word * engine) :=
  option_map (fun v => (snd (fst v), snd v))
             (expertRoot fuel currentWord targetWord playerLadder e).

(** The brute-force minimax of the specification: the same recursion and
    the same evaluation, with no [alpha], no [beta] and no [break]. *)
Fixpoint plainLoop (better : num -> num -> bool)
    (rec : word -> engine -> option (num * engine))
    (nbrs : list word) (best : num) (e : engine) : option (num * engine) :=
  match nbrs with
  | [] => Some (best, e)
  | neighbor :: rest =>
      match rec neighbor e with
      | None => None
      | Some (score, e1) =>
          plainLoop better rec rest (if better score best then score else best) e1
      end
  end.

Fixpoint bruteForce (fuel : nat) (depth : nat) (currentWord targetWord : word)
    (isMaximizing : bool) (playerLadder : list word) (e : engine)
  : option (num * engine) :=
  match depth with
  | 0 => evaluatePosition fuel currentWord targetWord playerLadder e
  | S depth' =>
      if eqb currentWord targetWord then
        evaluatePosition fuel currentWord targetWord playerLadder e
      else
        match neighbors (wordGraph e) currentWord with
        | [] => Some (if isMaximizing then NInf else PInf, e)
        | nbrs =>
            if isMaximizing then
              plainLoop num_gtb
                (fun n e' => bruteForce fuel depth' n targetWord false playerLadder e')
                nbrs NInf e
            else
              plainLoop num_ltb
                (fun n e' => bruteForce fuel depth' n targetWord true playerLadder e')
                nbrs PInf e
        end
  end.

(** ** The other strategies *)

(** [l.filter(w => this.heuristic(w, target) <= this.heuristic(current,
    target) + slack)], the cache threaded through the calls. *)
Fixpoint filterCloser (slack : num) (current target : word) (l : list word) (e : engine)
  : list word * engine :=
  match l with
  | [] => ([], e)
  | w :: rest =>
      let (hw, e1) := heuristic w target e in
      let (hc, e2) := heuristic current target e1 in
      let (kept, e3) := filterCloser slack current target rest e2 in
      (if num_leb hw (num_add hc slack) then w :: kept else kept, e3)
  end.

(** [selectEasyMove(currentWord, targetWord)] *)
Definition selectEasyMove (currentWord targetWord : word) (t : tape) (e : engine)
  : option word * tape * engine :=
  let nbrs := neighbors (wordGraph e) currentWord in
  match nbrs with
  | [] => (None, t, e)
  | _ =>
      let (r, t1) := random t in
      if qc_ltb r (Q2Qc (3 # 10)) then
        let (i, t2) := randomIndex (length nbrs) t1 in (nth_error nbrs i, t2, e)
      else
        let (validMoves, e1) := filterCloser (Fin 0%Qc) currentWord targetWord nbrs e in
        if 0 <? length validMoves then
          let (i, t2) := randomIndex (length validMoves) t1 in
          (nth_error validMoves i, t2, e1)
        else
          let (i, t2) := randomIndex (length nbrs) t1 in (nth_error nbrs i, t2, e1)
  end.

(** [nn.reduce((best, w) => { const score = this.heuristic(w, target);
    return score < best ? score : best; }, Infinity)] *)
Fixpoint bestLookahead (target : word) (nn : list word) (best : num) (e : engine)
  : num * engine :=
  match nn with
  | [] => (best, e)
  | w :: rest =>
      let (score, e1) := heuristic w target e in
      bestLookahead target rest (if num_ltb score best then score else best) e1
  end.

(** The [map] callback of [selectMediumMove], over all neighbours. *)
Fixpoint scoreMoves (target : word) (nbrs : list word) (e : engine)
  : list (word * num) * engine :=
  match nbrs with
  | [] => ([], e)
  | neighbor :: rest =>
      let (baseScore, e1) := heuristic neighbor target e in
      let (look, e2) := bestLookahead target (neighbors (wordGraph e1) neighbor) PInf e1 in
      let (scored, e3) := scoreMoves target rest e2 in
      ((neighbor, num_add baseScore (num_mul look (lit 3 10))) :: scored, e3)
  end.

(** [sort((a, b) => a.score - b.score)], as a stable insertion sort: an
    element moves behind another only when the comparator is positive. *)
Fixpoint insertMove (x : word * num) (l : list (word * num)) : list (word * num) :=
  match l with
  | [] => [x]
  | y :: r =>
      if num_gtb (num_sub (snd x) (snd y)) (Fin 0%Qc) then y :: insertMove x r
      else x :: y :: r
  end.

Definition sortMoves (l : list (word * num)) : list (word * num) :=
  fold_right insertMove [] l.

(** [selectMediumMove(currentWord, targetWord)] *)
Definition selectMediumMove (currentWord targetWord : word) (t : tape) (e : engine)
  : option word * tape * engine :=
  let nbrs := neighbors (wordGraph e) currentWord in
  match nbrs with
  | [] => (None, t, e)
  | _ =>
      let (scored, e1) := scoreMoves targetWord nbrs e in
      let scoredMoves := sortMoves scored in
      let (r, t1) := random t in
      if qc_ltb r (Q2Qc (7 # 10)) then
        (option_map fst (nth_error scoredMoves 0), t1, e1)
      else
        let topMoves := firstn (Nat.min 3 (length scoredMoves)) scoredMoves in
        let (i, t2) := randomIndex (length topMoves) t1 in
        (option_map fst (nth_error topMoves i), t2, e1)
  end.

(** [findBlockingMove(aiWord, playerWord, targetWord)] *)
Definition findBlockingMove (fuel : nat) (aiWord playerWord targetWord : word) (e : engine)
  : option (option word * engine) :=
  let aiNeighbors := neighbors (wordGraph e) aiWord in
  match findPath fuel playerWord targetWord true e with
  | None => None
  | Some (None, e1) => Some (None, e1)
  | Some (Some playerPath, e1) =>
      if length playerPath <? 3 then Some (None, e1)
      else
        let playerPathSet :=
          JsSet.of_list (firstn (length playerPath - 2) (skipn 1 playerPath)) in
        let blockingMoves := filter (fun move => JsSet.has move playerPathSet) aiNeighbors in
        Some (nth_error blockingMoves 0, e1)
  end.

(** [selectHardMove(currentWord, targetWord, playerLadder)] *)
Definition selectHardMove (fuel : nat) (currentWord targetWord : word)
    (playerLadder : list word) (t : tape) (e : engine)
  : option (option word * tape * engine) :=
  match findPath fuel currentWord targetWord true e with
  | None => None
  | Some (optimalPath, e1) =>
      match optimalPath with
      | Some (first :: nextMove :: _) =>
          let blockTry :=
            match playerLadder with
            | [] => Some (None, t, e1)
            | _ =>
                let playerCurrentWord := lastWord playerLadder in
                if truthy playerCurrentWord then
                  let (r, t1) := random t in
                  if qc_ltb r (Q2Qc (3 # 10)) then
                    match findBlockingMove fuel currentWord playerCurrentWord targetWord e1 with
                    | None => None
                    | Some (b, e2) => Some (b, t1, e2)
                    end
                  else Some (None, t1, e1)
                else Some (None, t, e1)
            end in
          match blockTry with
          | None => None
          | Some (Some b, t1, e2) =>
              if truthy b then Some (Some b, t1, e2)
              else
                let (r, t2) := random t1 in
                if qc_ltb r (Q2Qc (2 # 10)) then
                  let others := filter (fun w => negb (eqb w nextMove))
                                       (neighbors (wordGraph e2) currentWord) in
                  let (alternatives, e3) :=
                    filterCloser (Fin 1%Qc) currentWord targetWord others e2 in
                  if 0 <? length alternatives then
                    let (i, t3) := randomIndex (length alternatives) t2 in
                    Some (nth_error alternatives i, t3, e3)
                  else Some (Some nextMove, t2, e3)
                else Some (Some nextMove, t2, e2)
          | Some (None, t1, e2) =>
              let (r, t2) := random t1 in
              if qc_ltb r (Q2Qc (2 # 10)) then
                let others := filter (fun w => negb (eqb w nextMove))
                                     (neighbors (wordGraph e2) currentWord) in
                let (alternatives, e3) :=
                  filterCloser (Fin 1%Qc) currentWord targetWord others e2 in
                if 0 <? length alternatives then
                  let (i, t3) := randomIndex (length alternatives) t2 in
                  Some (nth_error alternatives i, t3, e3)
                else Some (Some nextMove, t2, e3)
              else Some (Some nextMove, t2, e2)
          end
      | _ =>
          let '(m, t1, e2) := selectMediumMove currentWord targetWord t e1 in
          Some (m, t1, e2)
      end
  end.

(** ** Strategy dispatch: [selectAIMove] *)

Inductive strategy := Easy | Medium | Hard | Expert.

(** The own properties of the object literal [strategies]. *)
Definition ownStrategy (difficulty : word) : option strategy :=
  if eqb difficulty (str "easy") then Some Easy
  else if eqb difficulty (str "medium") then Some Medium
  else if eqb difficulty (str "hard") then Some Hard
  else if eqb difficulty (str "expert") then Some Expert
  else None.

(** The properties an object literal inherits from [Object.prototype]
    (ECMAScript with Annex B). *)
Inductive inherited :=
  | I_constructor | I_hasOwnProperty | I_isPrototypeOf | I_propertyIsEnumerable
  | I_toLocaleString | I_toString | I_valueOf
  | I_defineGetter | I_defineSetter | I_lookupGetter | I_lookupSetter
  | I_proto.

Definition inheritedTable : list (string * inherited) :=
  [("constructor", I_constructor); ("hasOwnProperty", I_hasOwnProperty);
   ("isPrototypeOf", I_isPrototypeOf);
   ("propertyIsEnumerable", I_propertyIsEnumerable);
   ("toLocaleString", I_toLocaleString); ("toString", I_toString);
   ("valueOf", I_valueOf); ("__defineGetter__", I_defineGetter);
   ("__defineSetter__", I_defineSetter); ("__lookupGetter__", I_lookupGetter);
   ("__lookupSetter__", I_lookupSetter); ("__proto__", I_proto)]%string.

Definition inheritedProperty (difficulty : word) : option inherited :=
  JsMap.get difficulty (map (fun p => (str (fst p), snd p)) inheritedTable).

(** What [strategies[difficulty]] evaluates to. *)
Inductive property :=
  | OwnStrategy (s : strategy)
  | Inherited (i : inherited)
  | Undefined.

Definition lookupStrategy (difficulty : word) : property :=
  match ownStrategy difficulty with
  | Some s => OwnStrategy s
  | None =>
      match inheritedProperty difficulty with
      | Some i => Inherited i
      | None => Undefined
      end
  end.

(** The values a call of [selectAIMove] can produce. *)
Inductive js_value :=
  | VMove (m : option word)        (* a word, or [null] / [undefined] *)
  | VBool (b : bool)
  | VString (s : word)
  | VStringObject (s : word)       (* [Object(currentWord)] *)
  | VStrategies                    (* the object [strategies] itself *)
  | VFunction
  | VUndefined.

Inductive completion :=
  | Returns (v : js_value) (t : tape) (e : engine)
  | ThrowsTypeError.

Definition isOwnName (w : word) : bool :=
  match ownStrategy w with Some _ => true | None => false end.

(** The call of an inherited property with the arguments
    [(currentWord, targetWord, playerLadder)] and [this = strategies]. *)
Definition callInherited (i : inherited) (currentWord : word) (t : tape) (e : engine)
  : completion :=
  match i with
  | I_constructor => Returns (VStringObject currentWord) t e
  | I_hasOwnProperty => Returns (VBool (isOwnName currentWord)) t e
  | I_isPrototypeOf => Returns (VBool false) t e
  | I_propertyIsEnumerable => Returns (VBool (isOwnName currentWord)) t e
  | I_toLocaleString | I_toString => Returns (VString (str "[object Object]")) t e
  | I_valueOf => Returns VStrategies t e
  | I_defineGetter | I_defineSetter => ThrowsTypeError
  | I_lookupGetter | I_lookupSetter =>
      Returns (if eqb currentWord (str "__proto__") then VFunction else VUndefined) t e
  | I_proto => ThrowsTypeError
  end.

(** [selectAIMove(currentWord, targetWord, difficulty, playerLadder)];
    [None] when the fuel runs out. *)
Definition selectAIMove (fuel : nat) (currentWord targetWord difficulty : word)
    (playerLadder : list word) (t : tape) (e : engine) : option completion :=
  match lookupStrategy difficulty with
  | OwnStrategy Easy =>
      let '(m, t1, e1) := selectEasyMove currentWord targetWord t e in
      Some (Returns (VMove m) t1 e1)
  | OwnStrategy Medium =>
      let '(m, t1, e1) := selectMediumMove currentWord targetWord t e in
      Some (Returns (VMove m) t1 e1)
  | OwnStrategy Hard =>
      match selectHardMove fuel currentWord targetWord playerLadder t e with
      | Some (m, t1, e1) => Some (Returns (VMove m) t1 e1)
      | None => None
      end
  | OwnStrategy Expert =>
      match selectExpertMove fuel currentWord targetWord playerLadder e with
      | Some (m, e1) => Some (Returns (VMove m) t e1)
      | None => None
      end
  | Inherited i => Some (callInherited i currentWord t e)
  | Undefined => Some ThrowsTypeError
  end.

(** ** Random pairs and difficulty *)





(** [calculateDifficulty(startWord, endWord)] *)
Definition calculateDifficulty (fuel : nat) (startWord endWord : word) (e : engine)
  : option (num * engine) :=
  match findPath fuel startWord endWord true e with
  | None => None
  | Some (None, e1) => Some (PInf, e1)
  | Some (Some p, e1) =>
      let pathLength := num_of_nat (length p) in
      let (hammingDist, e2) := heuristic startWord endWord e1 in
      let sum := fold_left (fun sum w => sum + length (getNeighbors e2 w)) p 0 in
      let avgNeighbors := num_div (num_of_nat sum) (num_of_nat (length p)) in
      Some (num_add (num_add (num_mul pathLength (num_of_nat 10))
                             (num_mul hammingDist (num_of_nat 5)))
                    (num_sub (num_of_nat 10) avgNeighbors),
            e2)
  end.

(** The adjacency relation of the specification: equal length and
    exactly one differing position. *)
Definition one_letter_apart (u v : word) : Prop :=
  length u = length v /\
  exists i, i < length u /\ nth_error u i <> nth_error v i /\
            forall j, j <> i -> nth_error u j = nth_error v j.

(** The number of positions at which two words differ. *)
Fixpoint hamming (u v : word) : nat :=
  match u, v with
  | a :: u', b :: v' => (if eqb a b then 0 else 1) + hamming u' v'
  | _, _ => 0
  end.

Definition star_free (w : word) : Prop := ~ In "*"%char w.

(** The words of a bucket ([[]] for a missing key), and what one word
    adds to the bucket of a pattern. *)
Definition bucket_of (b : buckets) (p : word) : list word :=
  match JsMap.get p b with Some l => l | None => [] end.

Definition occurrences (p w : word) (idx : list nat) : list word :=
  map (fun _ => w) (filter (fun i => eqb (pattern w i) p) idx).

(** A word that some call of [initialize] has filed under its length. *)
Definition known (e : engine) (w : word) : Prop :=
  In w (class_of (wordsByLength e) (length w)).

(** The invariant of the dictionary fields. *)
Record engine_ok (e : engine) : Prop := {
  ok_keys : NoDup (JsMap.keys (wordsByLength e));
  ok_classes : forall n ws, In (n, ws) (wordsByLength e) ->
      NoDup ws /\ forall w, In w ws -> length w = n /\ test_lower_alpha w = true;
  ok_words : forall w, In w (wordSet e) -> known e w;
  ok_graph : forall u v, In v (neighbors (wordGraph e) u) <->
      known e u /\ known e v /\ one_letter_apart u v
}.

(** The entry [matrix[i][j]] of [calculateLevenshtein], by its
    recurrence. *)
Fixpoint levCell (word1 word2 : word) (i j : nat) {struct i} : nat :=
  match i with
  | 0 => j
  | S i' =>
      (fix col (j : nat) : nat :=
         match j with
         | 0 => S i'
         | S j' =>
             if opt_ascii_eqb (nth_error word2 i') (nth_error word1 j')
             then levCell word1 word2 i' j'
             else Nat.min (Nat.min (levCell word1 word2 i' j' + 1) (col j' + 1))
                          (levCell word1 word2 i' j + 1)
         end) j
  end.

Definition dash_free (w : word) : Prop := ~ In "-"%char w.

(** Every cached estimate is the value computed for a pair with that
    key. *)
Definition hcache_ok (e : engine) : Prop :=
  forall k v, JsMap.get k (heuristicCache e) = Some v ->
              exists a b, k = cacheKey a b /\ v = heuristicValue a b.

(** *** The search without the cache

    The estimates that a search to [end_] reads from an engine, as a
    function of the word; and the loop of [findPath] over such a
    function, with no engine to thread. *)
Definition hview (useHeuristic : bool) (end_ : word) (e : engine) (w : word) : num :=
  fst (estimate useHeuristic w end_ e).

Definition relaxP (h : word -> num) (current : word) (s : search) (neighbor : word)
  : search :=
  if JsSet.has neighbor (closedSet s) then s
  else
    let tentativeGScore := num_add (to_number (JsMap.get current (gScore s))) (Fin 1%Qc) in
    let open1 := if JsMap.has neighbor (openSet s) then openSet s
                 else JsMap.set neighbor PInf (openSet s) in
    if num_ltb tentativeGScore (or_infinity (JsMap.get neighbor (gScore s))) then
      let f := num_add tentativeGScore (h neighbor) in
      mkSearch (JsMap.set neighbor f open1) (closedSet s)
               (JsMap.set neighbor current (cameFrom s))
               (JsMap.set neighbor tentativeGScore (gScore s))
               (JsMap.set neighbor f (fScore s))
    else mkSearch open1 (closedSet s) (cameFrom s) (gScore s) (fScore s).

Fixpoint astarP (fuel : nat) (h : word -> num) (g : graph) (end_ : word) (s : search)
  : option (option path) :=
  match fuel with
  | 0 => None
  | S fuel' =>
      match openSet s with
      | [] => Some None
      | _ =>
          match lowest (openSet s) with
          | None => astarP fuel' h g end_ s
          | Some current =>
              if eqb current end_ then
                option_map Some (reconstructPath fuel' (cameFrom s) (Some current) [])
              else
                astarP fuel' h g end_
                  (fold_left (relaxP h current) (neighbors g current)
                     (mkSearch (JsMap.delete current (openSet s))
                               (JsSet.add current (closedSet s))
                               (cameFrom s) (gScore s) (fScore s)))
          end
      end
  end.

(** *** Minimax over an evaluation function

    The order of the numbers as a total order: on numbers other than
    [NaN] it is the order of [<] and [<=]; [NaN] is put below all. *)
Definition num_lt (a b : num) : Prop :=
  match a, b with
  | NaN, NaN => False
  | NaN, _ => True
  | _, NaN => False
  | _, _ => num_ltb a b = true
  end.

Definition num_le (a b : num) : Prop := num_lt a b \/ a = b.

Module NumOrderDefs.
Definition t := num.
Definition eq := @Logic.eq num.
Definition lt := num_lt.
Definition le := num_le.
End NumOrderDefs.

Abbreviation nlt := NumOrderDefs.lt.
Abbreviation nle := NumOrderDefs.le.

Definition valid (a : num) : Prop := a <> NaN.

(** The two loops of [minimax] and the recursion, over a function [ev]
    that gives the score of a position. *)
Fixpoint maxLoopP (rec : word -> num -> num -> num) (nbrs : list word)
    (alpha beta maxScore : num) : num :=
  match nbrs with
  | [] => maxScore
  | neighbor :: rest =>
      let score := rec neighbor alpha beta in
      let maxScore' := if num_gtb score maxScore then score else maxScore in
      let alpha' := num_max alpha score in
      if num_leb beta alpha' then maxScore'
      else maxLoopP rec rest alpha' beta maxScore'
  end.

Fixpoint minLoopP (rec : word -> num -> num -> num) (nbrs : list word)
    (alpha beta minScore : num) : num :=
  match nbrs with
  | [] => minScore
  | neighbor :: rest =>
      let score := rec neighbor alpha beta in
      let minScore' := if num_ltb score minScore then score else minScore in
      let beta' := num_min beta score in
      if num_leb beta' alpha then minScore'
      else minLoopP rec rest alpha beta' minScore'
  end.

Fixpoint alphaBetaP (ev : word -> num) (g : graph) (targetWord : word) (depth : nat)
    (currentWord : word) (alpha beta : num) (isMaximizing : bool) : num :=
  match depth with
  | 0 => ev currentWord
  | S depth' =>
      if eqb currentWord targetWord then ev currentWord
      else
        match neighbors g currentWord with
        | [] => if isMaximizing then NInf else PInf
        | nbrs =>
            if isMaximizing then
              maxLoopP (fun n a b => alphaBetaP ev g targetWord depth' n a b false)
                       nbrs alpha beta NInf
            else
              minLoopP (fun n a b => alphaBetaP ev g targetWord depth' n a b true)
                       nbrs alpha beta PInf
        end
  end.

Fixpoint plainLoopP (better : num -> num -> bool) (rec : word -> num)
    (nbrs : list word) (best : num) : num :=
  match nbrs with
  | [] => best
  | neighbor :: rest =>
      let score := rec neighbor in
      plainLoopP better rec rest (if better score best then score else best)
  end.

Fixpoint bruteForceP (ev : word -> num) (g : graph) (targetWord : word) (depth : nat)
    (currentWord : word) (isMaximizing : bool) : num :=
  match depth with
  | 0 => ev currentWord
  | S depth' =>
      if eqb currentWord targetWord then ev currentWord
      else
        match neighbors g currentWord with
        | [] => if isMaximizing then NInf else PInf
        | nbrs =>
            if isMaximizing then
              plainLoopP num_gtb (fun n => bruteForceP ev g targetWord depth' n false)
                         nbrs NInf
            else
              plainLoopP num_ltb (fun n => bruteForceP ev g targetWord depth' n true)
                         nbrs PInf
        end
  end.

(** What a search with the window [(alpha, beta)] tells about the true
    value [v]: a result at or under [alpha] is an upper bound, one at or
    over [beta] a lower bound, one strictly inside is exact. *)
Definition bounds (alpha beta r v : num) : Prop :=
  (nle r alpha -> nle v r) /\
  (nle beta r -> nle r v) /\
  (nlt alpha r -> nlt r beta -> r = v).

(** [findPath] over the estimates [hv], the graph and the cached path
    of the pair, if any. *)
Definition findPathP (fuel : nat) (hv : word -> num) (g : graph)
    (cached : option path) (start end_ : word) : option (option path) :=
  if negb (length start =? length end_) then Some None
  else if eqb start end_ then Some (Some [start])
  else
    match cached with
    | Some p => Some (Some p)
    | None =>
        astarP fuel hv g end_
          (mkSearch [(start, Fin 0%Qc)] [] [] [(start, Fin 0%Qc)] [(start, hv start)])
    end.

(** What [findPath(w, end_)] returns from an engine. *)
Definition pview (fuel : nat) (end_ : word) (e : engine) (w : word)
  : option (option path) :=
  findPathP fuel (hview true end_ e) (wordGraph e)
            (JsMap.get (cacheKey w end_) (precomputedPaths e)) w end_.

(** The score of [evaluatePosition] from the estimate of the word, its
    path and the estimate of the player's word. *)
Definition positionScore (distanceToTarget : num) (p : option path)
    (playerDistance : option num) : num :=
  let score := num_sub (num_sub (num_of_nat 100) distanceToTarget)
                       (num_mul (lengthOrInfinity p) (num_of_nat 2)) in
  match playerDistance with
  | None => score
  | Some d => num_add score (num_mul (num_sub d distanceToTarget) (num_of_nat 10))
  end.

Definition evaluateP (hv : word -> num) (pv : word -> option (option path))
    (playerLadder : list word) (w : word) : option num :=
  match pv w with
  | None => None
  | Some p =>
      Some (positionScore (hv w) p
              (match playerLadder with
               | [] => None
               | _ => Some (hv (lastWord playerLadder))
               end))
  end.

(** Engines that answer every estimate and every path query to [end_]
    alike, over the same graph. *)
Record same_answers (fuel : nat) (end_ : word) (e0 e : engine) : Prop := {
  sa_graph : wordGraph e = wordGraph e0;
  sa_hview : forall w, hview true end_ e w = hview true end_ e0 w;
  sa_pview : forall w, pview fuel end_ e w = pview fuel end_ e0 w;
  sa_cache : hcache_ok e
}.

(** All the words of a graph: its keys and their neighbours. *)
Definition graph_words (g : graph) : list word :=
  JsMap.keys g ++ List.concat (map snd g).

(** The invariant of the loop of [findPath]. *)
Record search_ok (g : graph) (start : word) (s : search) : Prop := {
  so_open_nodup : NoDup (JsMap.keys (openSet s));
  so_closed_nodup : NoDup (closedSet s);
  so_disjoint : forall k, In k (JsMap.keys (openSet s)) -> ~ In k (closedSet s);
  so_open_fin : forall k f, In (k, f) (openSet s) -> is_fin f;
  so_g_dom : forall k, JsMap.has k (gScore s) = true <->
                       In k (JsMap.keys (openSet s)) \/ In k (closedSet s);
  so_g_fin : forall k v, JsMap.get k (gScore s) = Some v -> is_fin v;
  so_nodes : forall k, In k (JsMap.keys (openSet s)) \/ In k (closedSet s) ->
                       In k (start :: graph_words g);
  so_came_closed : forall k p, JsMap.get k (cameFrom s) = Some p -> In p (closedSet s);
  so_chain : forall c1 k c2 p, closedSet s = c1 ++ k :: c2 ->
                               JsMap.get k (cameFrom s) = Some p -> In p c1
}.

(** The fuel that always suffices for [findPath] on a graph. *)
Definition enoughFuel (g : graph) : nat := 2 * length (graph_words g) + 7.

(** Two engines that differ at most in the heuristic cache. *)
Definition same_but_heuristics (e e' : engine) : Prop :=
  e' = with_heuristics e (heuristicCache e').

(** A ladder of the word graph: consecutive words are neighbours. *)
Fixpoint linked (g : graph) (p : list word) : Prop :=
  match p with
  | a :: (b :: _) as rest => In b (neighbors g a) /\ linked g rest
  | _ => True
  end.

Definition ladder (g : graph) (start end_ : word) (p : list word) : Prop :=
  hd_error p = Some start /\ last p [] = end_ /\ p <> [] /\ linked g p.

(** The difficulty score as the specification words it, for a path [p]:
    with the Hamming distance of the two words. *)
Definition claimedDifficulty (e : engine) (p : path) (startWord endWord : word) : num :=
  let sum := fold_left (fun sum w => sum + length (getNeighbors e w)) p 0 in
  num_add (num_add (num_mul (num_of_nat (length p)) (num_of_nat 10))
                   (num_mul (num_of_nat (hamming startWord endWord)) (num_of_nat 5)))
          (num_sub (num_of_nat 10) (num_div (num_of_nat sum) (num_of_nat (length p)))).

(** ** Small dictionaries used as examples *)

Definition scenario1 : engine :=
  initialize (map str ["cat"; "cot"; "cog"; "dog"; "dot"]%string) new_engine.

Definition dict_cat_cot_cog : engine :=
  initialize (map str ["cat"; "cot"; "cog"]%string) new_engine.

Definition dict_cat_dog : engine :=
  initialize (map str ["cat"; "dog"]%string) new_engine.

Definition dict_cat_cot : engine :=
  initialize (map str ["cat"; "cot"]%string) new_engine.

Definition four_names : list word := map str ["easy"; "medium"; "hard"; "expert"]%string.

Definition inherited_names : list word := map (fun p => str (fst p)) inheritedTable.

(** ** Further notions used by the properties below *)

(** Every node of the graph has at least one neighbour. *)
Definition no_isolated (g : graph) : Prop :=
  forall u, JsMap.has u g = true -> exists v, In v (neighbors g u).

(** *** The search tree of [findPath]

    The parents that the loop records lead from every node it has met
    back to [start], along edges of the graph. *)
Record search_tree (g : graph) (start : word) (s : search) : Prop := {
  st_root : JsMap.get start (cameFrom s) = None;
  st_parent : forall k, In k (JsMap.keys (openSet s)) \/ In k (closedSet s) ->
                        k <> start -> JsMap.has k (cameFrom s) = true;
  st_edge : forall k p, JsMap.get k (cameFrom s) = Some p -> In k (neighbors g p)
}.

(** Every neighbour of a closed node is closed or open. *)
Definition frontier_ok (g : graph) (s : search) : Prop :=
  forall u v, In u (closedSet s) -> In v (neighbors g u) ->
              In v (closedSet s) \/ In v (JsMap.keys (openSet s)).

(** The invariant of the loop of [findPath], with the tree and the
    frontier. *)
Record search_inv (g : graph) (start end_ : word) (s : search) : Prop := {
  si_ok : search_ok g start s;
  si_tree : search_tree g start s;
  si_frontier : frontier_ok g s;
  si_end : ~ In end_ (closedSet s);
  si_start : In start (closedSet s) \/ JsMap.keys (openSet s) = [start]
}.

(** No neighbour set holds the empty string (which [while (temp)] would
    take for the end of the parent chain). *)
Definition truthy_graph (g : graph) : Prop :=
  forall u v, In v (neighbors g u) -> truthy v = true.

(** The cached paths are ladders of the graph. *)
Definition pcache_ok (e : engine) : Prop :=
  forall a b p, length a = length b -> a <> b ->
    JsMap.get (cacheKey a b) (precomputedPaths e) = Some p ->
    ladder (wordGraph e) a b p.

(** What the searches rely on: sound caches and a graph without the
    empty string. *)
Record search_ready (e : engine) : Prop := {
  sr_heuristics : hcache_ok e;
  sr_paths : pcache_ok e;
  sr_truthy : truthy_graph (wordGraph e)
}.

(** ** Hints: [getHint] *)

(** [usedWords.includes(word)] *)
Definition includes (usedWords : list word) (w : word) : bool :=
  existsb (fun u => eqb u w) usedWords.

(** The loop over the unused neighbours, with [bestHint] and
    [bestScore]. *)
Fixpoint hintLoop (targetWord : word) (unusedNeighbors : list word)
    (bestHint : option word) (bestScore : num) (e : engine) : option word * engine :=
  match unusedNeighbors with
  | [] => (bestHint, e)
  | neighbor :: rest =>
      let (score, e1) := heuristic neighbor targetWord e in
      if num_ltb score bestScore then hintLoop targetWord rest (Some neighbor) score e1
      else hintLoop targetWord rest bestHint bestScore e1
  end.

(** [getHint(currentWord, targetWord, usedWords)] *)
Definition getHint (currentWord targetWord : word) (usedWords : list word) (e : engine)
  : option word * engine :=
  let neighbors := getNeighbors e currentWord in
  let unusedNeighbors := filter (fun w => negb (includes usedWords w)) neighbors in
  if length unusedNeighbors =? 0 then (None, e)
  else hintLoop targetWord unusedNeighbors None PInf e.

(** ** The game of [game.js]: moves, turns and scores

    The fields of [gameState] and of the two [players] that the handling
    of moves and the scoring read or write.  The page and the timers are
    not part of the state: what a method shows or schedules is part of
    its result. *)
Module Game.

(** The two keys of [this.players]. *)
Inductive player_id := player1 | player2.

Definition player_id_eqb (a b : player_id) : bool :=
  match a, b with
  | player1, player1 | player2, player2 => true
  | _, _ => false
  end.

(** [player === 'player1' ? 'player2' : 'player1'] *)
Definition opponent (p : player_id) : player_id :=
  match p with player1 => player2 | player2 => player1 end.

Record player := mkPlayer {
  currentWord : word;
  ladder : list word;
  isAI : bool;
  hintsUsed : nat;
  score : Z
}.

Record state := mkState {
  algorithm : engine;
  isInitialized : bool;
  startWord : word;
  endWord : word;
  currentTurn : player_id;
  gameStarted : bool;
  gameEnded : bool;
  isPaused : bool;
  elapsedTime : Z;
  difficulty : word;
  players1 : player;
  players2 : player
}.

(** [this.players[p]] *)
Definition players (g : state) (p : player_id) : player :=
  match p with player1 => players1 g | player2 => players2 g end.

Definition with_player (g : state) (p : player_id) (d : player) : state :=
  match p with
  | player1 =>
      mkState (algorithm g) (isInitialized g) (startWord g) (endWord g) (currentTurn g)
              (gameStarted g) (gameEnded g) (isPaused g) (elapsedTime g) (difficulty g)
              d (players2 g)
  | player2 =>
      mkState (algorithm g) (isInitialized g) (startWord g) (endWord g) (currentTurn g)
              (gameStarted g) (gameEnded g) (isPaused g) (elapsedTime g) (difficulty g)
              (players1 g) d
  end.

Definition with_algorithm (g : state) (e : engine) : state :=
  mkState e (isInitialized g) (startWord g) (endWord g) (currentTurn g)
          (gameStarted g) (gameEnded g) (isPaused g) (elapsedTime g) (difficulty g)
          (players1 g) (players2 g).

Definition with_turn (g : state) (p : player_id) : state :=
  mkState (algorithm g) (isInitialized g) (startWord g) (endWord g) p
          (gameStarted g) (gameEnded g) (isPaused g) (elapsedTime g) (difficulty g)
          (players1 g) (players2 g).

Definition with_ended (g : state) (b : bool) : state :=
  mkState (algorithm g) (isInitialized g) (startWord g) (endWord g) (currentTurn g)
          (gameStarted g) b (isPaused g) (elapsedTime g) (difficulty g)
          (players1 g) (players2 g).

(** The body of the loop of [calculateScores], for one player.  The
    numbers are integers: [elapsedTime] is a difference of two
    [Date.now()], in milliseconds. *)
Definition finalScore (g : state) (d : player) : Z :=
  let baseScore := 1000%Z in
  let score := (baseScore - (Z.of_nat (length (ladder d)) - 1) * 50)%Z in
  let score := (score - Z.of_nat (hintsUsed d) * 100)%Z in
  let score := if eqb (currentWord d) (endWord g) then (score + 500)%Z else score in
  let timeBonus := Z.max 0 (300 - elapsedTime g / 1000) in
  let score := (score + timeBonus)%Z in
  Z.max 0 score.

Definition with_score (d : player) (s : Z) : player :=
  mkPlayer (currentWord d) (ladder d) (isAI d) (hintsUsed d) s.

(** [calculateScores()] *)
Definition calculateScores (g : state) : state :=
  let g1 := with_player g player1 (with_score (players1 g) (finalScore g (players1 g))) in
  with_player g1 player2 (with_score (players2 g1) (finalScore g1 (players2 g1))).

(** [endGame(winner)]: the state, in which the game has ended and the
    scores are set; the winner is what [showGameOver] displays. *)
Definition endGame (g : state) : state := calculateScores (with_ended g true).

(** How a move ends: the game is over and [winner] is shown, or the
    game goes on, with a move of the AI scheduled or not. *)
Inductive outcome :=
  | GameOver (winner : player_id)
  | GoesOn (aiScheduled : bool).

(** [makeMove(player, word)]; [makeAIMove] schedules its callback
    unless the game has ended or is paused. *)
Definition makeMove (p : player_id) (w : word) (g : state) : state * outcome :=
  let d := players g p in
  let g1 := with_player g p
              (mkPlayer w (ladder d ++ [w]) (isAI d) (hintsUsed d) (score d)) in
  if eqb w (endWord g1) then (endGame g1, GameOver p)
  else
    let g2 := with_turn g1 (opponent p) in
    let nextPlayer := currentTurn g2 in
    (g2, GoesOn (isAI (players g2 nextPlayer)
                 && negb (gameEnded g2 || isPaused g2))).

(** What [submitMove] does with the text of the input field: nothing,
    an error message, or the move. *)
Inductive submitted :=
  | Ignored
  | ShowError (message : string)
  | Moved (g : state) (o : outcome).

(** [submitMove(player)], [input] being the value of the player's
    input field. *)
Definition submitMove (p : player_id) (input : word) (g : state) : submitted :=
  if gameEnded g || isPaused g then Ignored
  else if negb (player_id_eqb (currentTurn g) p) then Ignored
  else
    let w := trim (toLowerCase input) in
    if negb (truthy w) then ShowError "Please enter a word."
    else if negb (isValidWord (algorithm g) w) then
      ShowError "Invalid word. Please try again."
    else if includes (ladder (players g p)) w then
      ShowError "Word already used. Try a different word."
    else if negb (areNeighbors (currentWord (players g p)) w) then
      ShowError "Words must differ by exactly one letter."
    else let (g1, o) := makeMove p w g in Moved g1 o.

(** What the callback of [makeAIMove] does when the timer fires (the
    random draw for the thinking time is made before, when the callback
    is scheduled, and is not part of the tape here): a
    move, the end of the game for want of a move, a [TypeError] from
    [selectAIMove], or, when [difficulty] names an inherited property
    that returns an object, function or [true], a call of [makeMove]
    with that value, which is not a string and is not followed here. *)
Inductive ai_turn :=
  | AiMoved (g : state) (o : outcome) (t : tape)
  | AiStuck (g : state) (winner : player_id) (t : tape)
  | AiThrows
  | AiNotAString (v : js_value).

Definition aiTimeout (fuel : nat) (p : player_id) (t : tape) (g : state)
  : option ai_turn :=
  let currentWord := currentWord (players g p) in
  let targetWord := endWord g in
  let opponentLadder := ladder (players g (opponent p)) in
  match selectAIMove fuel currentWord targetWord (difficulty g) opponentLadder t
                     (algorithm g) with
  | None => None
  | Some ThrowsTypeError => Some AiThrows
  | Some (Returns v t1 e1) =>
      let g1 := with_algorithm g e1 in
      let stuck := Some (AiStuck (endGame g1) (opponent p) t1) in
      let move w := let (g2, o) := makeMove p w g1 in Some (AiMoved g2 o t1) in
      match v with
      | VMove (Some w) => if truthy w then move w else stuck
      | VMove None => stuck
      | VString s => if truthy s then move s else stuck
      | VBool false => stuck
      | VUndefined => stuck
      | _ => Some (AiNotAString v)
      end
  end.

(** How [startGame] ends: an error message, or the game started; the
    state comes with either, since [findPath] writes to the caches. *)
Inductive started :=
  | StartError (message : string) (g : state)
  | Started (g : state) (aiScheduled : bool).

Definition fresh (d : player) (w : word) : player :=
  mkPlayer w [w] (isAI d) 0 0%Z.

(** [startGame()], with the values of the two word fields and of the
    difficulty field; [None] when the fuel of [findPath] runs out. *)
Definition startGame (fuel : nat) (startInput endInput difficultyInput : word)
    (g : state) : option started :=
  if negb (isInitialized g) then
    Some (StartError "Game is still loading. Please wait." g)
  else
    let startWord := trim (toLowerCase startInput) in
    let endWord := trim (toLowerCase endInput) in
    match findPath fuel startWord endWord true (algorithm g) with
    | None => None
    | Some (None, e1) =>
        Some (StartError "No path exists between these words." (with_algorithm g e1))
    | Some (Some _, e1) =>
        let g1 := mkState e1 (isInitialized g) startWord endWord player1
                          true false false 0%Z difficultyInput
                          (fresh (players1 g) startWord)
                          (fresh (players2 g) startWord) in
        Some (Started g1 (isAI (players1 g1)
                          && negb (gameEnded g1 || isPaused g1)))
    end.

End Game.

(** A game on the dictionary of scenario 1, with a human first player
    and an AI second player, at its start. *)
Definition game_cat_cot : Game.state :=
  Game.mkState scenario1 true (str "cat") (str "dog") Game.player1
               true false false 0%Z (str "easy")
               (Game.mkPlayer (str "cat") [str "cat"] false 0 0%Z)
               (Game.mkPlayer (str "cat") [str "cat"] true 0 0%Z).

(** Engines with the same dictionary: word set, graph and length
    classes. *)
Definition same_dict (e e' : engine) : Prop :=
  wordSet e' = wordSet e /\ wordGraph e' = wordGraph e /\
  wordsByLength e' = wordsByLength e.

(** An engine that stays ready for the searches, over the same
    dictionary. *)
Definition still_ready (e e' : engine) : Prop :=
  search_ready e' /\ same_dict e e'.

(** *** What stays true of a game *)

(** A ladder as the game keeps it: each word after the first is a valid
    word that differs from the word before it in exactly one position. *)
Fixpoint chain (e : engine) (l : list word) : Prop :=
  match l with
  | a :: (b :: _) as rest =>
      one_letter_apart a b /\ isValidWord e b = true /\ chain e rest
  | _ => True
  end.

(** A player's ladder begins with the start word, ends with the
    player's current word and is a chain. *)
Definition player_ok (e : engine) (startWord : word) (d : Game.player) : Prop :=
  hd_error (Game.ladder d) = Some startWord /\
  Game.currentWord d = last (Game.ladder d) [] /\
  chain e (Game.ladder d).

(** The dictionary as the constructor and [initialize] leave it: the
    invariant of its fields, with every word of a length class in the
    word set. *)
Definition dict_ok (e : engine) : Prop :=
  engine_ok e /\ forall w, known e w -> In w (wordSet e).

Record game_ok (g : Game.state) : Prop := {
  go_dict : dict_ok (Game.algorithm g);
  go_ready : search_ready (Game.algorithm g);
  go_difficulty : In (Game.difficulty g) four_names;
  go_players : forall q, player_ok (Game.algorithm g) (Game.startWord g)
                                   (Game.players g q)
}.

(** One event of a game: a player submits a move that is made, or the
    timer of an AI move fires. *)
Inductive step : Game.state -> Game.state -> Prop :=
  | step_submit p input g g' o :
      Game.submitMove p input g = Game.Moved g' o -> step g g'
  | step_ai_moved fuel p t g g' o t' :
      Game.aiTimeout fuel p t g = Some (Game.AiMoved g' o t') -> step g g'
  | step_ai_stuck fuel p t g g' winner t' :
      Game.aiTimeout fuel p t g = Some (Game.AiStuck g' winner t') -> step g g'.

Inductive steps : Game.state -> Game.state -> Prop :=
  | steps_none g : steps g g
  | steps_more g1 g2 g3 : step g1 g2 -> steps g2 g3 -> steps g1 g3.

(** *** The score of a position as a function of the word *)

(** The score that [evaluatePosition] gives a word, from what an engine
    answers to the estimates and the path queries; [NaN] stands for a
    search that ran out of fuel. *)
Definition evaluateView (fuel : nat) (targetWord : word) (playerLadder : list word)
    (e : engine) (w : word) : num :=
  match evaluateP (hview true targetWord e) (pview fuel targetWord e) playerLadder w with
  | Some s => s
  | None => NaN
  end.

(** *** What [generateRandomPair] samples *)






(** ** The estimate in binary64

    [heuristic] once more, with the arithmetic of the code: the three
    counts are integers, which binary64 holds exactly (they are far
    below 2^53), and the weighted sum is rounded at each operation.  A
    decimal literal denotes the nearest binary64 number, as in
    JavaScript.  The cache is the one field the method reads and
    writes. *)
Module Binary64.
Import PrimFloat.
#[local] Set Warnings "-inexact-float".

Definition of_nat (n : nat) : float := of_uint63 (Uint63.of_Z (Z.of_nat n)).

(** [hammingDistance * 0.6 + levenshteinDistance * 0.3 + charFreqDiff * 0.1] *)
Definition weighted (hammingDist levenshteinDist charFreqDiff : nat) : float :=
  (of_nat hammingDist * 0.6 + of_nat levenshteinDist * 0.3
   + of_nat charFreqDiff * 0.1)%float.

(** The value [heuristic] computes on a cache miss. *)
Definition heuristicValue (word1 word2 : word) : float :=
  weighted (hammingDistance word1 word2)
           (calculateLevenshtein word1 word2)
           (calculateCharFrequencyDifference word1 word2).

(** [this.heuristicCache] *)
Definition cache : Type := JsMap.t word float.

(** [heuristic(word1, word2)]: the value and the cache after the call. *)
Definition heuristic (word1 word2 : word) (c : cache) : float * cache :=
  let key := cacheKey word1 word2 in
  match JsMap.get key c with
  | Some v => (v, c)
  | None =>
      let v := heuristicValue word1 word2 in
      (v, JsMap.set key v c)
  end.

(** Every cached estimate is the value computed for a pair with that
    key. *)
Definition cache_ok (c : cache) : Prop :=
  forall k v, JsMap.get k c = Some v ->
              exists a b, k = cacheKey a b /\ v = heuristicValue a b.

End Binary64.

(** ** The three distances of the specification *)

(** [levenshtein]: the classic recurrence of the edit distance, with
    insertion, deletion and substitution at cost 1 each. *)
Fixpoint levenshtein (a b : word) : nat :=
  match a with
  | [] => length b
  | x :: a' =>
      (fix against (b : word) : nat :=
         match b with
         | [] => S (length a')
         | y :: b' =>
             Nat.min (levenshtein a' b' + (if Ascii.eqb x y then 0 else 1))
                     (Nat.min (levenshtein a' (y :: b') + 1) (against b' + 1))
         end) b
  end.

(** [edits a b n]: [b] comes from [a] by [n] insertions, deletions and
    substitutions of one character, read from left to right. *)
Inductive edits : word -> word -> nat -> Prop :=
  | edits_done : edits [] [] 0
  | edits_keep c a b n : edits a b n -> edits (c :: a) (c :: b) n
  | edits_substitute x y a b n : edits a b n -> edits (x :: a) (y :: b) (S n)
  | edits_insert y a b n : edits a b n -> edits a (y :: b) (S n)
  | edits_delete x a b n : edits a b n -> edits (x :: a) b (S n).

(** [charFreqDiff]: the sum, over the characters that appear in either
    word, of [|count_in_a - count_in_b|]. *)
Definition charFreqDiff (a b : word) : nat :=
  list_sum (map (fun c => Z.abs_nat (Z.of_nat (count_occ ascii_dec a c)
                                     - Z.of_nat (count_occ ascii_dec b c)))
                (nodup ascii_dec (a ++ b))).

(** * Properties *)

(** ** Equality tests are lawful *)

#[export] Instance EqBLaw_nat : EqBLaw nat.
Proof. exact Nat.eqb_spec. Qed.

#[export] Instance EqBLaw_ascii : EqBLaw ascii.
Proof. exact Ascii.eqb_spec. Qed.

#[export] Instance EqBLaw_list {A} `{EqBLaw A} : EqBLaw (list A).
Proof.
  intros l1. induction l1 as [|x r1 IH]; intros [|y r2];
    try (constructor; congruence).
  change (eqb (x :: r1) (y :: r2)) with (eqb x y && eqb r1 r2).
  destruct (eqb_spec x y) as [->|N]; simpl.
  - destruct (IH r2) as [->|N]; constructor; congruence.
  - constructor; congruence.
Qed.

Lemma eqb_refl {A} `{EqBLaw A} (x : A) : eqb x x = true.
Proof. destruct (eqb_spec x x); congruence. Qed.

Lemma eqb_eq {A} `{EqBLaw A} (x y : A) : eqb x y = true <-> x = y.
Proof. destruct (eqb_spec x y); split; congruence. Qed.

Lemma eqb_neq {A} `{EqBLaw A} (x y : A) : eqb x y = false <-> x <> y.
Proof. destruct (eqb_spec x y); split; congruence. Qed.

Lemma eqb_sym {A} `{EqBLaw A} (x y : A) : eqb x y = eqb y x.
Proof. destruct (eqb_spec x y), (eqb_spec y x); congruence. Qed.

Lemma opt_ascii_eqb_eq a b : opt_ascii_eqb a b = true <-> a = b.
Proof.
  destruct a as [x|], b as [y|]; unfold opt_ascii_eqb; try (split; congruence).
  rewrite eqb_eq. split; congruence.
Qed.

(** ** Maps and sets *)

Section MapFacts.
Context {K V : Type} {EK : EqB K} {LK : EqBLaw K}.
Implicit Types (m : JsMap.t K V) (k : K) (v : V).

Lemma map_get_set_eq k v m : JsMap.get k (JsMap.set k v m) = Some v.
Proof.
  induction m as [|[k' v'] r IH]; simpl.
  - now rewrite eqb_refl.
  - destruct (eqb k k') eqn:E; simpl; rewrite ?eqb_refl, ?E; auto.
Qed.

Lemma map_get_set_neq k k' v m :
  k' <> k -> JsMap.get k' (JsMap.set k v m) = JsMap.get k' m.
Proof.
  intros N. induction m as [|[k0 v0] r IH]; simpl.
  - apply eqb_neq in N. now rewrite N.
  - destruct (eqb k k0) eqn:E; simpl.
    + apply eqb_eq in E; subst k0. apply eqb_neq in N. now rewrite N.
    + destruct (eqb k' k0); auto.
Qed.

Lemma map_get_set k k' v m :
  JsMap.get k' (JsMap.set k v m) = if eqb k' k then Some v else JsMap.get k' m.
Proof.
  destruct (eqb_spec k' k) as [->|N].
  - apply map_get_set_eq.
  - now apply map_get_set_neq.
Qed.

Lemma map_has_set k k' v m :
  JsMap.has k' (JsMap.set k v m) = eqb k' k || JsMap.has k' m.
Proof. unfold JsMap.has. rewrite map_get_set. destruct (eqb k' k); auto. Qed.

Lemma map_get_In k v m : JsMap.get k m = Some v -> In (k, v) m.
Proof.
  induction m as [|[k' v'] r IH]; simpl; [discriminate|].
  destruct (eqb_spec k k') as [->|N]; intros E.
  - inversion E; auto.
  - auto.
Qed.

Lemma map_get_None k m : JsMap.get k m = None <-> ~ In k (JsMap.keys m).
Proof.
  induction m as [|[k' v'] r IH]; simpl; [tauto|].
  destruct (eqb_spec k k') as [->|N].
  - split; [discriminate | intros X; exfalso; apply X; auto].
  - rewrite IH. split; intros X; [intros [Y|Y]; [congruence | auto] | auto].
Qed.

Lemma map_has_keys k m : JsMap.has k m = true <-> In k (JsMap.keys m).
Proof.
  unfold JsMap.has. destruct (JsMap.get k m) eqn:E.
  - split; auto. intros _.
    destruct (in_dec (fun a b => reflect_dec _ _ (eqb_spec a b)) k (JsMap.keys m))
      as [I|NI]; auto.
    apply map_get_None in NI. congruence.
  - apply map_get_None in E. split; [discriminate | tauto].
Qed.

Lemma map_has_false k m : JsMap.has k m = false <-> ~ In k (JsMap.keys m).
Proof.
  rewrite <- map_has_keys. destruct (JsMap.has k m); split; congruence.
Qed.

Lemma map_keys_set k v m :
  JsMap.keys (JsMap.set k v m)
  = if JsMap.has k m then JsMap.keys m else JsMap.keys m ++ [k].
Proof.
  unfold JsMap.has. induction m as [|[k' v'] r IH]; simpl; auto.
  destruct (eqb_spec k k') as [->|N]; simpl; auto.
  rewrite IH. destruct (JsMap.get k r); auto.
Qed.

Lemma map_NoDup_keys_set k v m :
  NoDup (JsMap.keys m) -> NoDup (JsMap.keys (JsMap.set k v m)).
Proof.
  intros N. rewrite map_keys_set. destruct (JsMap.has k m) eqn:E; auto.
  apply map_has_false in E.
  apply NoDup_app; auto.
  - constructor; [simpl; tauto | constructor].
  - intros a I [<-|[]]. auto.
Qed.

Lemma map_In_get k v m : NoDup (JsMap.keys m) -> In (k, v) m -> JsMap.get k m = Some v.
Proof.
  induction m as [|[k' v'] r IH]; simpl; [tauto|].
  intros N [E|I].
  - inversion E; subst. now rewrite eqb_refl.
  - inversion N as [|? ? Hn Hr]; subst. destruct (eqb_spec k k') as [->|Ne]; auto.
    exfalso. apply Hn. change k' with (fst (k', v)). now apply in_map.
Qed.

Lemma map_keys_delete k k' m :
  In k' (JsMap.keys (JsMap.delete k m)) -> In k' (JsMap.keys m).
Proof.
  induction m as [|[k0 v0] r IH]; simpl; auto.
  destruct (eqb k k0); simpl; tauto.
Qed.

Lemma map_NoDup_keys_delete k m :
  NoDup (JsMap.keys m) -> NoDup (JsMap.keys (JsMap.delete k m)).
Proof.
  induction m as [|[k0 v0] r IH]; simpl; auto.
  intros N. inversion N as [|? ? Hn Hr]; subst. destruct (eqb k k0); simpl; auto.
  constructor; auto. intros I. apply Hn. eapply map_keys_delete; eauto.
Qed.

Lemma map_get_delete k k' m :
  NoDup (JsMap.keys m) ->
  JsMap.get k' (JsMap.delete k m) = if eqb k' k then None else JsMap.get k' m.
Proof.
  induction m as [|[k0 v0] r IH]; simpl; intros N.
  - now destruct (eqb k' k).
  - inversion N as [|? ? Hn Hr]; subst.
    destruct (eqb_spec k k0) as [->|Ne]; simpl.
    + destruct (eqb_spec k' k0) as [->|Ne']; auto.
      apply map_get_None. exact Hn.
    + destruct (eqb_spec k' k0) as [->|Ne'].
      * destruct (eqb_spec k0 k); congruence.
      * auto.
Qed.

End MapFacts.

Section SetFacts.
Context {A : Type} {EA : EqB A} {LA : EqBLaw A}.
Implicit Types (s : JsSet.t A) (x y : A).

Lemma set_has_In x s : JsSet.has x s = true <-> In x s.
Proof.
  induction s as [|y r IH]; simpl; [split; [discriminate|tauto]|].
  rewrite orb_true_iff, IH, eqb_eq. split; intros [E|I]; auto.
Qed.

Lemma set_has_false x s : JsSet.has x s = false <-> ~ In x s.
Proof. rewrite <- set_has_In. destruct (JsSet.has x s); split; congruence. Qed.

Lemma set_In_add x y s : In y (JsSet.add x s) <-> y = x \/ In y s.
Proof.
  unfold JsSet.add. destruct (JsSet.has x s) eqn:E.
  - apply set_has_In in E. split; auto. intros [->|I]; auto.
  - rewrite in_app_iff; simpl.
    split; [intros [I|[->|[]]]; auto | intros [->|I]; auto].
Qed.

Lemma set_NoDup_add x s : NoDup s -> NoDup (JsSet.add x s).
Proof.
  unfold JsSet.add. destruct (JsSet.has x s) eqn:E; auto.
  apply set_has_false in E. intros N.
  apply NoDup_app; auto.
  - constructor; [simpl; tauto | constructor].
  - intros a I [<-|[]]. auto.
Qed.

Lemma set_In_fold_add (l : list A) s0 y :
  In y (fold_left (fun s x => JsSet.add x s) l s0) <-> In y s0 \/ In y l.
Proof.
  revert s0; induction l as [|x r IH]; intros s0; simpl; [tauto|].
  rewrite IH, set_In_add. split; intros X; intuition (subst; auto).
Qed.

Lemma set_NoDup_fold_add (l : list A) s0 :
  NoDup s0 -> NoDup (fold_left (fun s x => JsSet.add x s) l s0).
Proof.
  revert s0; induction l as [|x r IH]; intros s0 N; simpl; auto.
  apply IH, set_NoDup_add, N.
Qed.

Lemma set_In_of_list l y : In y (JsSet.of_list l) <-> In y l.
Proof. unfold JsSet.of_list. rewrite set_In_fold_add. simpl; tauto. Qed.

Lemma set_NoDup_of_list l : NoDup (JsSet.of_list l).
Proof. apply set_NoDup_fold_add. constructor. Qed.

End SetFacts.

(** ** Numbers *)

Lemma qc_eqb_eq x y : qc_eqb x y = true <-> x = y.
Proof.
  unfold qc_eqb. rewrite Qceq_alt. destruct (x ?= y)%Qc; split; congruence.
Qed.

Lemma qc_ltb_lt x y : qc_ltb x y = true <-> (x < y)%Qc.
Proof.
  unfold qc_ltb. rewrite Qclt_alt. destruct (x ?= y)%Qc; split; congruence.
Qed.

Lemma qc_leb_le x y : qc_leb x y = true <-> (x <= y)%Qc.
Proof.
  unfold qc_leb. rewrite Qcle_alt. destruct (x ?= y)%Qc; split; congruence.
Qed.

Lemma num_eqb_eq a b : num_eqb a b = true -> a = b.
Proof.
  destruct a, b; simpl; try discriminate; auto.
  intros E. apply qc_eqb_eq in E. now subst.
Qed.

(** ** The word graph *)

Lemma nth_error_ext_eq {A} (l1 l2 : list A) :
  (forall i, nth_error l1 i = nth_error l2 i) -> l1 = l2.
Proof.
  revert l2; induction l1 as [|x r IH]; intros [|y r2] E; auto.
  - specialize (E 0); discriminate.
  - specialize (E 0); discriminate.
  - f_equal.
    + specialize (E 0); simpl in E; congruence.
    + apply IH. intros i. exact (E (S i)).
Qed.

Lemma length_pattern w i : i < length w -> length (pattern w i) = length w.
Proof.
  intros L. unfold pattern.
  rewrite length_app, length_firstn, length_cons, length_skipn. lia.
Qed.

Lemma nth_error_pattern w i j :
  i < length w ->
  nth_error (pattern w i) j = if j =? i then Some "*"%char else nth_error w j.
Proof.
  intros L. unfold pattern.
  assert (Lf : length (firstn i w) = i) by (rewrite length_firstn; lia).
  destruct (Nat.eqb_spec j i) as [->|N].
  - rewrite nth_error_app2 by lia. rewrite Lf, Nat.sub_diag. reflexivity.
  - destruct (Nat.lt_ge_cases j i) as [Lt|Ge].
    + rewrite nth_error_app1 by lia. rewrite nth_error_firstn.
      destruct (Nat.ltb_spec j i); auto; lia.
    + rewrite nth_error_app2 by lia. rewrite Lf.
      replace (j - i) with (S (j - S i)) by lia. cbn [nth_error].
      rewrite nth_error_skipn. f_equal. lia.
Qed.

Lemma star_free_nth w i : star_free w -> nth_error w i <> Some "*"%char.
Proof. intros S E. apply S. eapply nth_error_In; eauto. Qed.

Lemma pattern_same_index u v i j :
  star_free u -> star_free v -> i < length u -> j < length v ->
  pattern u i = pattern v j -> i = j.
Proof.
  intros Su Sv Li Lj E.
  destruct (Nat.eq_dec i j) as [|N]; auto. exfalso.
  assert (X : nth_error (pattern v j) i = Some "*"%char).
  { rewrite <- E, nth_error_pattern, Nat.eqb_refl; auto. }
  rewrite nth_error_pattern in X by auto.
  destruct (Nat.eqb_spec i j); [congruence|].
  exact (star_free_nth _ i Sv X).
Qed.

Lemma pattern_eq_iff u v i :
  star_free u -> star_free v -> i < length u -> i < length v ->
  (pattern u i = pattern v i <->
   forall j, j <> i -> nth_error u j = nth_error v j).
Proof.
  intros Su Sv Lu Lv. split.
  - intros E j N.
    assert (X : nth_error (pattern u i) j = nth_error (pattern v i) j) by congruence.
    rewrite !nth_error_pattern in X by auto.
    destruct (Nat.eqb_spec j i); congruence.
  - intros E. apply nth_error_ext_eq. intros j.
    rewrite !nth_error_pattern by auto.
    destruct (Nat.eqb_spec j i); auto.
Qed.

Lemma agree_off_index_length (u v : word) i :
  i < length u -> i < length v ->
  (forall j, j <> i -> nth_error u j = nth_error v j) -> length u = length v.
Proof.
  intros Lu Lv E.
  destruct (Nat.lt_trichotomy (length u) (length v)) as [L|[L|L]]; auto; exfalso.
  - assert (X := E (length u) ltac:(lia)).
    rewrite (proj2 (nth_error_None u (length u))) in X by lia.
    symmetry in X. apply nth_error_None in X. lia.
  - assert (X := E (length v) ltac:(lia)).
    rewrite (proj2 (nth_error_None v (length v))) in X by lia.
    apply nth_error_None in X. lia.
Qed.

(** Two star-free words share a wildcard pattern and differ exactly when
    they are one letter apart. *)
Lemma share_pattern_iff u v :
  star_free u -> star_free v ->
  (u <> v /\ exists i j, i < length u /\ j < length v /\ pattern u i = pattern v j)
  <-> one_letter_apart u v.
Proof.
  intros Su Sv. split.
  - intros (Ne & i & j & Li & Lj & E).
    assert (i = j) by exact (pattern_same_index _ _ _ _ Su Sv Li Lj E). subst j.
    pose proof (proj1 (pattern_eq_iff _ _ _ Su Sv Li Lj) E) as Ag.
    split; [exact (agree_off_index_length u v i Li Lj Ag)|].
    exists i. split; [auto|]. split; [|auto].
    intros X. apply Ne. apply nth_error_ext_eq. intros j.
    destruct (Nat.eq_dec j i) as [->|N]; auto.
  - intros (Len & i & Li & D & Ag). split.
    + intros ->. auto.
    + exists i, i. split; [auto|]. split; [lia|].
      apply pattern_eq_iff; auto. lia.
Qed.

Lemma one_letter_apart_sym u v : one_letter_apart u v -> one_letter_apart v u.
Proof.
  intros (Len & i & Li & D & Ag). split; [auto|].
  exists i. split; [lia|]. split; [congruence|].
  intros j N. symmetry; auto.
Qed.

Lemma one_letter_apart_irrefl u : ~ one_letter_apart u u.
Proof. intros (_ & i & _ & D & _). auto. Qed.

Lemma neighbors_ensureNode g w u : neighbors (ensureNode g w) u = neighbors g u.
Proof.
  unfold ensureNode, neighbors. destruct (JsMap.has w g) eqn:E; auto.
  rewrite map_get_set. destruct (eqb_spec u w) as [->|N]; auto.
  unfold JsMap.has in E. destruct (JsMap.get w g); congruence.
Qed.

Lemma has_ensureNode g w u :
  JsMap.has u (ensureNode g w) = eqb u w || JsMap.has u g.
Proof.
  unfold ensureNode. destruct (JsMap.has w g) eqn:E.
  - destruct (eqb_spec u w) as [->|N]; simpl; auto.
  - apply map_has_set.
Qed.

Lemma has_addNeighbor g a b u :
  JsMap.has u (addNeighbor g a b) = JsMap.has u g.
Proof.
  unfold addNeighbor. destruct (JsMap.get a g) eqn:E; auto.
  rewrite map_has_set. destruct (eqb_spec u a) as [->|N]; simpl; auto.
  unfold JsMap.has. now rewrite E.
Qed.

Lemma In_neighbors_addNeighbor g a b u v :
  JsMap.has a g = true ->
  In v (neighbors (addNeighbor g a b) u) <-> In v (neighbors g u) \/ (u = a /\ v = b).
Proof.
  unfold JsMap.has, addNeighbor, neighbors. intros Ha.
  destruct (JsMap.get a g) as [s|] eqn:E; [|discriminate].
  rewrite map_get_set. destruct (eqb_spec u a) as [->|N].
  - rewrite E, set_In_add. tauto.
  - tauto.
Qed.

Lemma In_neighbors_addEdge g a b u v :
  In v (neighbors (addEdge g (a, b)) u)
  <-> In v (neighbors g u) \/ (u = a /\ v = b) \/ (u = b /\ v = a).
Proof.
  unfold addEdge.
  rewrite In_neighbors_addNeighbor.
  2:{ rewrite has_addNeighbor, has_ensureNode, eqb_refl. reflexivity. }
  rewrite In_neighbors_addNeighbor.
  2:{ rewrite !has_ensureNode, eqb_refl. apply orb_true_r. }
  rewrite !neighbors_ensureNode. tauto.
Qed.

(** Two words are linked by a list of pairs when it holds them in
    either order. *)
Lemma In_neighbors_fold_addEdge ps g u v :
  In v (neighbors (fold_left addEdge ps g) u)
  <-> In v (neighbors g u) \/ In (u, v) ps \/ In (v, u) ps.
Proof.
  revert g; induction ps as [|[a b] r IH]; intros g; cbn [fold_left In]; [tauto|].
  rewrite IH, In_neighbors_addEdge.
  split; intros X; repeat (destruct X as [X|X]); auto.
  - destruct X; subst; auto.
  - destruct X; subst; auto.
  - inversion X; subst; auto.
  - inversion X; subst; auto 6.
Qed.

Lemma In_pairs a b l : In (a, b) (pairs l) -> In a l /\ In b l.
Proof.
  induction l as [|x r IH]; simpl; [tauto|].
  rewrite in_app_iff, in_map_iff. intros [(y & E & I)|I].
  - inversion E; subst; auto.
  - destruct (IH I); auto.
Qed.

Lemma In_pairs_NoDup a b l : NoDup l -> In (a, b) (pairs l) -> a <> b.
Proof.
  induction l as [|x r IH]; simpl; [tauto|].
  intros N. inversion N as [|? ? Hn Hr]; subst.
  rewrite in_app_iff, in_map_iff. intros [(y & E & I)|I].
  - inversion E; subst. congruence.
  - auto.
Qed.

Lemma pairs_complete a b l :
  In a l -> In b l -> a <> b -> In (a, b) (pairs l) \/ In (b, a) (pairs l).
Proof.
  induction l as [|x r IH]; simpl; [tauto|].
  intros [->|Ia] [->|Ib] N; try congruence.
  - left. apply in_or_app. left. now apply in_map.
  - right. apply in_or_app. left. now apply in_map.
  - destruct (IH Ia Ib N); [left|right]; apply in_or_app; auto.
Qed.


(** *** Buckets *)

Lemma bucket_of_pushBucket b p w q :
  bucket_of (pushBucket b p w) q
  = if eqb q p then bucket_of b q ++ [w] else bucket_of b q.
Proof.
  unfold pushBucket, bucket_of, JsMap.has.
  destruct (JsMap.get p b) as [l|] eqn:E.
  - rewrite E, map_get_set. destruct (eqb_spec q p) as [->|N]; auto.
    now rewrite E.
  - rewrite map_get_set_eq, !map_get_set.
    destruct (eqb_spec q p) as [->|N]; auto. now rewrite E.
Qed.

Lemma NoDup_keys_pushBucket b p w :
  NoDup (JsMap.keys b) -> NoDup (JsMap.keys (pushBucket b p w)).
Proof.
  intros N. unfold pushBucket.
  assert (N1 : NoDup (JsMap.keys (if JsMap.has p b then b else JsMap.set p [] b))).
  { destruct (JsMap.has p b); auto. now apply map_NoDup_keys_set. }
  destruct (JsMap.get p _); auto. now apply map_NoDup_keys_set.
Qed.

Lemma bucket_of_fold_push w idx b q :
  bucket_of (fold_left (fun b i => pushBucket b (pattern w i) w) idx b) q
  = bucket_of b q ++ occurrences q w idx.
Proof.
  unfold occurrences.
  revert b; induction idx as [|i r IH]; intros b; cbn [fold_left filter map].
  - now rewrite app_nil_r.
  - rewrite IH, bucket_of_pushBucket, (eqb_sym q).
    destruct (eqb (pattern w i) q); cbn [map]; auto.
    now rewrite <- app_assoc.
Qed.

Lemma NoDup_keys_fold_push w idx b :
  NoDup (JsMap.keys b) ->
  NoDup (JsMap.keys (fold_left (fun b i => pushBucket b (pattern w i) w) idx b)).
Proof.
  revert b; induction idx as [|i r IH]; intros b N; cbn [fold_left]; auto.
  apply IH, NoDup_keys_pushBucket, N.
Qed.

Lemma bucket_of_fold_bucketWord ws b q :
  bucket_of (fold_left bucketWord ws b) q
  = bucket_of b q ++ flat_map (fun w => occurrences q w (seq 0 (length w))) ws.
Proof.
  revert b; induction ws as [|w r IH]; intros b; cbn [fold_left flat_map].
  - now rewrite app_nil_r.
  - rewrite IH. unfold bucketWord. rewrite bucket_of_fold_push.
    now rewrite <- app_assoc.
Qed.

Lemma NoDup_keys_fold_bucketWord ws b :
  NoDup (JsMap.keys b) -> NoDup (JsMap.keys (fold_left bucketWord ws b)).
Proof.
  revert b; induction ws as [|w r IH]; intros b N; cbn [fold_left]; auto.
  apply IH. unfold bucketWord. now apply NoDup_keys_fold_push.
Qed.

Lemma In_occurrences x q w idx :
  In x (occurrences q w idx) <-> x = w /\ exists i, In i idx /\ pattern w i = q.
Proof.
  unfold occurrences. rewrite in_map_iff. split.
  - intros (i & <- & I). apply filter_In in I. destruct I as [I E].
    apply eqb_eq in E. eauto.
  - intros (-> & i & I & E). exists i. split; auto.
    apply filter_In. split; auto. now apply eqb_eq.
Qed.

Lemma NoDup_all_equal_length {A} (l : list A) :
  NoDup l -> (forall x y, In x l -> In y l -> x = y) -> length l <= 1.
Proof.
  intros N E. destruct l as [|a [|b r]]; simpl; auto.
  exfalso. inversion N as [|? ? Hn Hr]; subst. apply Hn.
  rewrite (E a b); simpl; auto.
Qed.

Lemma NoDup_occurrences q w :
  star_free w -> NoDup (occurrences q w (seq 0 (length w))).
Proof.
  intros S. unfold occurrences.
  set (f := filter _ _).
  assert (L : length f <= 1).
  { apply NoDup_all_equal_length.
    - apply NoDup_filter, seq_NoDup.
    - intros i j Ii Ij. apply filter_In in Ii, Ij.
      destruct Ii as [Ii Ei], Ij as [Ij Ej].
      apply in_seq in Ii, Ij. apply eqb_eq in Ei, Ej.
      apply (@pattern_same_index w w i j); auto; try lia. congruence. }
  destruct f as [|a [|b r]]; simpl in *; try lia.
  - constructor.
  - constructor; [simpl; tauto | constructor].
Qed.

Lemma In_flat_occurrences x q ws :
  In x (flat_map (fun w => occurrences q w (seq 0 (length w))) ws)
  <-> In x ws /\ exists i, i < length x /\ pattern x i = q.
Proof.
  rewrite in_flat_map. split.
  - intros (w & I & O). apply In_occurrences in O.
    destruct O as (-> & i & Ii & E). apply in_seq in Ii.
    split; auto. exists i. split; auto. lia.
  - intros (I & i & L & E). exists x. split; auto.
    apply In_occurrences. split; auto. exists i. split; auto.
    apply in_seq. lia.
Qed.

Lemma NoDup_flat_occurrences q ws :
  NoDup ws -> (forall w, In w ws -> star_free w) ->
  NoDup (flat_map (fun w => occurrences q w (seq 0 (length w))) ws).
Proof.
  induction ws as [|w r IH]; intros N S; cbn [flat_map]; [constructor|].
  inversion N as [|? ? Hn Hr]; subst.
  apply NoDup_app.
  - apply NoDup_occurrences, S; simpl; auto.
  - apply IH; auto. intros; apply S; simpl; auto.
  - intros x I1 I2. apply In_occurrences in I1. destruct I1 as [-> _].
    apply In_flat_occurrences in I2. tauto.
Qed.

Lemma makeBuckets_entry ws p l :
  In (p, l) (makeBuckets ws) ->
  l = flat_map (fun w => occurrences p w (seq 0 (length w))) ws.
Proof.
  intros I. unfold makeBuckets in *.
  assert (N : NoDup (JsMap.keys (fold_left bucketWord ws ([] : buckets)))).
  { apply NoDup_keys_fold_bucketWord. constructor. }
  apply (map_In_get _ _ _ N) in I.
  pose proof (bucket_of_fold_bucketWord ws [] p) as B.
  unfold bucket_of at 1 in B. rewrite I in B. exact B.
Qed.

Lemma makeBuckets_find ws p x :
  In x (flat_map (fun w => occurrences p w (seq 0 (length w))) ws) ->
  In (p, flat_map (fun w => occurrences p w (seq 0 (length w))) ws) (makeBuckets ws).
Proof.
  intros I. apply map_get_In.
  pose proof (bucket_of_fold_bucketWord ws [] p) as B.
  unfold bucket_of at 1 in B. unfold makeBuckets.
  destruct (JsMap.get p (fold_left bucketWord ws [])) as [l|].
  - now rewrite B.
  - cbn in B. rewrite <- B in I. destruct I.
Qed.

(** *** One length class *)

Lemma In_neighbors_fold_linkBucket bk g u v :
  In v (neighbors (fold_left linkBucket bk g) u)
  <-> In v (neighbors g u)
      \/ exists p l, In (p, l) bk /\ (In (u, v) (pairs l) \/ In (v, u) (pairs l)).
Proof.
  revert g; induction bk as [|[p l] r IH]; intros g; cbn [fold_left].
  - split; auto. intros [X|(p & l & [] & _)]; auto.
  - rewrite IH. unfold linkBucket. cbn [snd].
    rewrite In_neighbors_fold_addEdge. split.
    + intros [[X|X]|(p' & l' & I & X)]; auto.
      * right. exists p, l. simpl; auto.
      * right. exists p', l'. simpl; auto.
    + intros [X|(p' & l' & [E|I] & X)]; auto.
      * inversion E; subst. auto.
      * right. eauto.
Qed.

Lemma In_neighbors_buildForLength g n ws u v :
  NoDup ws -> (forall w, In w ws -> star_free w) ->
  In v (neighbors (buildForLength g (n, ws)) u)
  <-> In v (neighbors g u) \/ (In u ws /\ In v ws /\ one_letter_apart u v).
Proof.
  intros N S. unfold buildForLength. cbn [snd].
  rewrite In_neighbors_fold_linkBucket.
  apply or_iff_compat_l. split.
  - intros (p & l & I & X).
    apply makeBuckets_entry in I. subst l.
    pose proof (NoDup_flat_occurrences p ws N S) as Nl.
    assert (Y : exists a b, ((a = u /\ b = v) \/ (a = v /\ b = u)) /\
                In (a, b) (pairs (flat_map (fun w => occurrences p w (seq 0 (length w))) ws))).
    { destruct X; [exists u, v | exists v, u]; auto. }
    destruct Y as (a & b & Eab & Iab).
    pose proof (In_pairs_NoDup _ _ _ Nl Iab) as Ne.
    destruct (In_pairs _ _ _ Iab) as [Ia Ib].
    apply In_flat_occurrences in Ia, Ib.
    destruct Ia as (Ia & i & Li & Ei), Ib as (Ib & j & Lj & Ej).
    assert (O : one_letter_apart a b).
    { apply share_pattern_iff; auto. split; auto.
      exists i, j. repeat split; auto. congruence. }
    destruct Eab as [[-> ->]|[-> ->]]; auto using one_letter_apart_sym.
  - intros (Iu & Iv & O).
    apply share_pattern_iff in O; auto.
    destruct O as (Ne & i & j & Li & Lj & E).
    set (p := pattern u i).
    assert (Fu : In u (flat_map (fun w => occurrences p w (seq 0 (length w))) ws)).
    { apply In_flat_occurrences. split; auto. exists i; auto. }
    assert (Fv : In v (flat_map (fun w => occurrences p w (seq 0 (length w))) ws)).
    { apply In_flat_occurrences. split; auto. exists j; auto. }
    exists p, (flat_map (fun w => occurrences p w (seq 0 (length w))) ws).
    split; [eapply makeBuckets_find; eauto|].
    apply pairs_complete; auto.
Qed.

(** *** All length classes *)

Lemma lower_star_free w : test_lower_alpha w = true -> star_free w.
Proof.
  intros T I. destruct w as [|c r]; [destruct I|].
  unfold test_lower_alpha in T. rewrite forallb_forall in T.
  specialize (T _ I). discriminate.
Qed.

Lemma In_neighbors_fold_buildForLength m g u v :
  (forall n ws, In (n, ws) m -> NoDup ws /\ forall w, In w ws -> star_free w) ->
  In v (neighbors (fold_left buildForLength m g) u)
  <-> In v (neighbors g u)
      \/ exists n ws, In (n, ws) m /\ In u ws /\ In v ws /\ one_letter_apart u v.
Proof.
  revert g; induction m as [|[n ws] r IH]; intros g C; cbn [fold_left].
  - split; auto. intros [X|(? & ? & [] & _)]; auto.
  - rewrite IH by (intros n' ws' I'; apply (C n' ws'); simpl; auto).
    destruct (C n ws) as [N S]; [simpl; auto|].
    rewrite In_neighbors_buildForLength by auto. split.
    + intros [[X|X]|(n' & ws' & I & X)]; auto.
      * right. exists n, ws. simpl; auto.
      * right. exists n', ws'. simpl; auto.
    + intros [X|(n' & ws' & [E|I] & X)]; auto.
      * inversion E; subst. auto.
      * right. eauto.
Qed.

Lemma class_of_addByLength m w n :
  class_of (addByLength m w) n
  = if eqb n (length w) then JsSet.add w (class_of m n) else class_of m n.
Proof.
  unfold addByLength, class_of, JsMap.has.
  destruct (JsMap.get (length w) m) as [s|] eqn:E.
  - rewrite E, map_get_set. destruct (eqb_spec n (length w)) as [->|N]; auto.
    now rewrite E.
  - rewrite map_get_set_eq, !map_get_set.
    destruct (eqb_spec n (length w)) as [->|N]; auto. now rewrite E.
Qed.

Lemma NoDup_keys_addByLength m w :
  NoDup (JsMap.keys m) -> NoDup (JsMap.keys (addByLength m w)).
Proof.
  intros N. unfold addByLength.
  assert (N1 : NoDup (JsMap.keys (if JsMap.has (length w) m then m
                                  else JsMap.set (length w) [] m))).
  { destruct (JsMap.has (length w) m); auto. now apply map_NoDup_keys_set. }
  destruct (JsMap.get (length w) _); auto. now apply map_NoDup_keys_set.
Qed.

Lemma In_class_of_fold ws m w n :
  In w (class_of (fold_left addByLength ws m) n)
  <-> In w (class_of m n) \/ (In w ws /\ length w = n).
Proof.
  revert m; induction ws as [|x r IH]; intros m; cbn [fold_left].
  - simpl; tauto.
  - rewrite IH, class_of_addByLength.
    destruct (eqb_spec n (length x)) as [->|N].
    + rewrite set_In_add. simpl. intuition (subst; auto).
    + simpl. intuition (subst; auto); congruence.
Qed.

Lemma NoDup_class_of_fold ws m n :
  NoDup (class_of m n) -> NoDup (class_of (fold_left addByLength ws m) n).
Proof.
  revert m; induction ws as [|x r IH]; intros m N; cbn [fold_left]; auto.
  apply IH. rewrite class_of_addByLength.
  destruct (eqb n (length x)); auto. now apply set_NoDup_add.
Qed.

Lemma NoDup_keys_fold_addByLength ws m :
  NoDup (JsMap.keys m) -> NoDup (JsMap.keys (fold_left addByLength ws m)).
Proof.
  revert m; induction ws as [|x r IH]; intros m N; cbn [fold_left]; auto.
  apply IH, NoDup_keys_addByLength, N.
Qed.

Lemma class_of_entry (m : JsMap.t nat (JsSet.t word)) n ws :
  NoDup (JsMap.keys m) -> In (n, ws) m -> class_of m n = ws.
Proof.
  intros N I. unfold class_of. now rewrite (map_In_get _ _ _ N I).
Qed.

Lemma class_of_In_entry (m : JsMap.t nat (JsSet.t word)) n w :
  In w (class_of m n) -> In (n, class_of m n) m.
Proof.
  unfold class_of. destruct (JsMap.get n m) eqn:E; [|intros []].
  intros _. now apply map_get_In.
Qed.

Lemma In_processWords w lines :
  In w (processWords lines) -> test_lower_alpha w = true.
Proof. unfold processWords. intros I. apply filter_In in I. tauto. Qed.

Lemma new_engine_ok : engine_ok new_engine.
Proof.
  split; simpl.
  - constructor.
  - intros ? ? [].
  - intros ? [].
  - intros u v. unfold known; simpl. tauto.
Qed.

(** [initialize] keeps the invariant, from any engine that has it. *)
Lemma initialize_ok lines e : engine_ok e -> engine_ok (initialize lines e).
Proof.
  intros [K C W G].
  set (pw := processWords lines).
  set (m' := fold_left addByLength pw (wordsByLength e)).
  assert (K' : NoDup (JsMap.keys m')) by now apply NoDup_keys_fold_addByLength.
  assert (Cold : forall n, NoDup (class_of (wordsByLength e) n) /\
            forall w, In w (class_of (wordsByLength e) n) ->
                      length w = n /\ test_lower_alpha w = true).
  { intros n. unfold class_of. destruct (JsMap.get n (wordsByLength e)) eqn:E.
    - apply map_get_In in E. apply C in E. exact E.
    - split; [constructor | intros ? []]. }
  assert (C' : forall n ws, In (n, ws) m' ->
            NoDup ws /\ forall w, In w ws -> length w = n /\ test_lower_alpha w = true).
  { intros n ws I. rewrite <- (class_of_entry _ _ _ K' I). split.
    - apply NoDup_class_of_fold, Cold.
    - intros w Iw. apply In_class_of_fold in Iw. destruct Iw as [Iw|[Iw L]].
      + now apply Cold.
      + split; auto. eapply In_processWords; eauto. }
  assert (Kn : forall w, known (initialize lines e) w
                         <-> known e w \/ In w pw).
  { intros w. unfold known. cbn. fold pw. fold m'.
    unfold m'. rewrite In_class_of_fold. tauto. }
  split.
  - exact K'.
  - exact C'.
  - intros w I. apply Kn. right. apply (set_In_of_list pw w). exact I.
  - intros u v. cbn [initialize buildWordGraph with_graph wordGraph wordsByLength].
    fold pw. fold m'.
    rewrite In_neighbors_fold_buildForLength.
    2:{ intros n ws I. destruct (C' n ws I) as [N S]. split; auto.
        intros w Iw. apply lower_star_free. now apply S. }
    rewrite G. rewrite !Kn. split.
    + intros [(Ku & Kv & O)|(n & ws & I & Iu & Iv & O)].
      * tauto.
      * split; [|split; [|exact O]].
        -- apply Kn. unfold known. cbn. fold pw. fold m'.
           destruct (C' n ws I) as [_ S]. destruct (S u Iu) as [-> _].
           now rewrite (class_of_entry _ _ _ K' I).
        -- apply Kn. unfold known. cbn. fold pw. fold m'.
           destruct (C' n ws I) as [_ S]. destruct (S v Iv) as [-> _].
           now rewrite (class_of_entry _ _ _ K' I).
    + intros (Ku & Kv & O). right.
      apply Kn in Ku, Kv. unfold known in Ku, Kv. cbn in Ku, Kv.
      fold pw in Ku, Kv. fold m' in Ku, Kv.
      exists (length u), (class_of m' (length u)).
      split; [eapply class_of_In_entry; eauto|].
      split; auto. split; auto.
      destruct O as [L _]. now rewrite L.
Qed.

(** *** [areNeighbors] *)

Lemma skipn_nth_cons {A} (l : list A) i a :
  nth_error l i = Some a -> skipn i l = a :: skipn (S i) l.
Proof.
  revert i; induction l as [|x r IH]; intros [|i] E; simpl in *; try discriminate.
  - congruence.
  - now apply IH.
Qed.

Lemma areNeighbors_loop_spec w1 w2 n i d :
  length w1 = i + n -> length w2 = i + n -> d <= 1 ->
  areNeighbors_loop w1 w2 i n d
  = (d + hamming (skipn i w1) (skipn i w2) =? 1).
Proof.
  revert i d; induction n as [|n IH]; intros i d L1 L2 D; cbn [areNeighbors_loop].
  - rewrite !skipn_all2 by lia. cbn. now rewrite Nat.add_0_r.
  - unfold char_at.
    destruct (nth_error w1 i) as [a|] eqn:E1;
      [|apply nth_error_None in E1; lia].
    destruct (nth_error w2 i) as [b|] eqn:E2;
      [|apply nth_error_None in E2; lia].
    rewrite (skipn_nth_cons _ _ _ E1), (skipn_nth_cons _ _ _ E2).
    cbn [hamming opt_ascii_eqb].
    destruct (eqb a b); cbn [negb].
    + rewrite IH by lia. reflexivity.
    + destruct d as [|[|d]]; cbn [Nat.ltb Nat.leb]; try lia.
      * rewrite IH by lia. reflexivity.
      * symmetry. apply Nat.eqb_neq. lia.
Qed.

Lemma areNeighbors_hamming w1 w2 :
  areNeighbors w1 w2 = (length w1 =? length w2) && (hamming w1 w2 =? 1).
Proof.
  unfold areNeighbors. destruct (Nat.eqb_spec (length w1) (length w2)) as [E|N]; auto.
  cbn [negb andb]. rewrite areNeighbors_loop_spec; auto; lia.
Qed.

Lemma hamming_zero_iff u v :
  length u = length v -> (hamming u v = 0 <-> u = v).
Proof.
  revert v; induction u as [|a r IH]; intros [|b r'] L; simpl in *; try discriminate.
  - tauto.
  - injection L as L. destruct (eqb_spec a b) as [->|N].
    + rewrite Nat.add_0_l, (IH _ L). split; congruence.
    + split; [discriminate | congruence].
Qed.

Lemma hamming_one_iff u v :
  length u = length v ->
  (hamming u v = 1 <->
   exists i, i < length u /\ nth_error u i <> nth_error v i /\
             forall j, j <> i -> nth_error u j = nth_error v j).
Proof.
  revert v; induction u as [|a r IH]; intros [|b r'] L; simpl in *; try discriminate.
  - split; [discriminate | intros (i & Li & _); lia].
  - injection L as L. destruct (eqb_spec a b) as [->|N].
    + rewrite Nat.add_0_l, (IH _ L). split.
      * intros (i & Li & D & Ag). exists (S i). split; [lia|]. split; [exact D|].
        intros [|j] Nj; simpl; auto.
      * intros (i & Li & D & Ag). destruct i as [|i]; [simpl in D; congruence|].
        exists i. split; [lia|]. split; [exact D|].
        intros j Nj. apply (Ag (S j)). lia.
    + split.
      * intros E. assert (H0 : hamming r r' = 0) by lia.
        apply hamming_zero_iff in H0; auto. subst r'.
        exists 0. split; [lia|]. split; [simpl; congruence|].
        intros [|j] Nj; [lia | reflexivity].
      * intros (i & Li & D & Ag). destruct i as [|i].
        -- assert (E : r = r').
           { apply nth_error_ext_eq. intros j. apply (Ag (S j)). lia. }
           subst r'. rewrite (proj2 (hamming_zero_iff r r eq_refl) eq_refl).
           reflexivity.
        -- specialize (Ag 0 ltac:(lia)). simpl in Ag. congruence.
Qed.

Lemma areNeighbors_iff u v : areNeighbors u v = true <-> one_letter_apart u v.
Proof.
  rewrite areNeighbors_hamming, andb_true_iff, !Nat.eqb_eq.
  unfold one_letter_apart. split.
  - intros [L E]. split; auto. now apply hamming_one_iff.
  - intros [L E]. split; auto. now apply hamming_one_iff.
Qed.

(** C2. After [initialize] (which ends with [buildWordGraph]) on any
    list of lines, from any engine with the dictionary invariant, two
    dictionary words are neighbours in the graph exactly when they have
    equal length and differ in exactly one position, which is also when
    [areNeighbors] holds; hence neighbourhood is symmetric and no word is
    its own neighbour. *)
Theorem graph_edges_one_letter_apart lines e u v :
  engine_ok e ->
  let e' := initialize lines e in
  In u (wordSet e') -> In v (wordSet e') ->
  (In v (getNeighbors e' u) <-> one_letter_apart u v) /\
  (areNeighbors u v = true <-> one_letter_apart u v) /\
  (In v (getNeighbors e' u) <-> In u (getNeighbors e' v)) /\
  ~ In u (getNeighbors e' u).
Proof.
  intros Ok e' Iu Iv.
  pose proof (initialize_ok lines e Ok) as [K C W G]. fold e' in K, C, W, G.
  assert (X : forall a b, In a (wordSet e') -> In b (wordSet e') ->
              (In b (getNeighbors e' a) <-> one_letter_apart a b)).
  { intros a b Ia Ib. unfold getNeighbors. rewrite G.
    split; [tauto | auto]. }
  split; [auto|]. split; [apply areNeighbors_iff|]. split.
  - rewrite !X by auto. split; apply one_letter_apart_sym.
  - rewrite X by auto. apply one_letter_apart_irrefl.
Qed.

Lemma graph_edges_one_letter_apart_witness :
  let e' := initialize (map str ["cat"; "cot"; "cog"; "dog"; "dot"]%string) new_engine in
  (In (str "cot") (getNeighbors e' (str "cat")) <-> one_letter_apart (str "cat") (str "cot")) /\
  (areNeighbors (str "cat") (str "cot") = true <-> one_letter_apart (str "cat") (str "cot")) /\
  (In (str "cot") (getNeighbors e' (str "cat")) <-> In (str "cat") (getNeighbors e' (str "cot"))) /\
  ~ In (str "cat") (getNeighbors e' (str "cat")).
Proof.
  apply (graph_edges_one_letter_apart
           (map str ["cat"; "cot"; "cog"; "dog"; "dot"]%string) new_engine
           (str "cat") (str "cot") new_engine_ok).
  - vm_compute. auto.
  - vm_compute. auto.
Defined.

(** ** Length mismatch *)

(** C7. When the two words differ in length, [findPath] and
    [findPathBidirectional] both return [null]: no exception, no fuel
    used (so no loop iteration), and the engine is left as it was. *)
Theorem length_mismatch_returns_null fuel start end_ useHeuristic e :
  length start <> length end_ ->
  findPath fuel start end_ useHeuristic e = Some (None, e) /\
  findPathBidirectional fuel start end_ e = Some None.
Proof.
  intros N. unfold findPath, findPathBidirectional.
  apply Nat.eqb_neq in N. rewrite N. auto.
Qed.

Lemma length_mismatch_returns_null_witness :
  findPath 0 (str "cat") (str "cats") true scenario1 = Some (None, scenario1) /\
  findPathBidirectional 0 (str "cat") (str "cats") scenario1 = Some None.
Proof.
  apply (length_mismatch_returns_null 0 (str "cat") (str "cats") true scenario1).
  simpl. lia.
Defined.

(** ** Strategy dispatch *)

Lemma ownStrategy_Some difficulty s :
  ownStrategy difficulty = Some s -> In difficulty four_names.
Proof.
  unfold ownStrategy, four_names. cbn [map In].
  destruct (eqb_spec difficulty (str "easy")); [auto|].
  destruct (eqb_spec difficulty (str "medium")); [auto|].
  destruct (eqb_spec difficulty (str "hard")); [auto|].
  destruct (eqb_spec difficulty (str "expert")); [auto 6|].
  discriminate.
Qed.

Lemma ownStrategy_None difficulty :
  ~ In difficulty four_names -> ownStrategy difficulty = None.
Proof.
  intros N. destruct (ownStrategy difficulty) eqn:E; auto.
  apply ownStrategy_Some in E. contradiction.
Qed.

Lemma inheritedProperty_None difficulty :
  ~ In difficulty inherited_names -> inheritedProperty difficulty = None.
Proof.
  intros N. unfold inheritedProperty. apply map_get_None.
  unfold JsMap.keys. rewrite map_map. exact N.
Qed.

(** C10, as the code has it.  [selectAIMove] runs a strategy, and so
    returns a word or none, only for the four lower-case names.  For any
    other [difficulty] that is not the name of a property inherited from
    [Object.prototype] (for instance ['Easy']) the lookup is [undefined]
    and the call throws a [TypeError]. *)
Theorem selectAIMove_dispatch fuel currentWord targetWord difficulty playerLadder t e :
  (~ In difficulty four_names -> ~ In difficulty inherited_names ->
   selectAIMove fuel currentWord targetWord difficulty playerLadder t e
   = Some ThrowsTypeError) /\
  (forall m t' e',
      selectAIMove fuel currentWord targetWord difficulty playerLadder t e
      = Some (Returns (VMove m) t' e') ->
      In difficulty four_names).
Proof.
  split.
  - intros N1 N2. unfold selectAIMove, lookupStrategy.
    now rewrite ownStrategy_None, inheritedProperty_None.
  - intros m t' e'. unfold selectAIMove, lookupStrategy.
    destruct (ownStrategy difficulty) as [s|] eqn:E.
    + intros _. eapply ownStrategy_Some; eauto.
    + destruct (inheritedProperty difficulty) as [i|]; [|discriminate].
      destruct i; cbn [callInherited]; try discriminate;
        try match goal with
            | |- context [if ?c then VFunction else VUndefined] => destruct c
            end;
        intros X; inversion X.
Qed.

(** The capitalized spelling throws. *)
Lemma selectAIMove_Easy_throws :
  selectAIMove 0 (str "cat") (str "dog") (str "Easy") [] [] scenario1
  = Some ThrowsTypeError.
Proof.
  apply (selectAIMove_dispatch 0 (str "cat") (str "dog") (str "Easy") [] [] scenario1).
  - vm_compute. intuition discriminate.
  - vm_compute. intuition discriminate.
Defined.

(** C10 as stated fails: ['toString'] is none of the four names, yet the
    lookup finds [Object.prototype.toString] and the call returns a
    string instead of throwing. *)
Lemma selectAIMove_toString_does_not_throw :
  ~ (forall fuel currentWord targetWord difficulty playerLadder t e,
        ~ In difficulty four_names ->
        selectAIMove fuel currentWord targetWord difficulty playerLadder t e
        = Some ThrowsTypeError).
Proof.
  intros H.
  specialize (H 0 (str "cat") (str "dog") (str "toString") [] [] scenario1).
  assert (N : ~ In (str "toString") four_names).
  { vm_compute. intuition discriminate. }
  specialize (H N). vm_compute in H. discriminate.
Qed.

(** ** Dictionary loading *)


(** ** The two searches on a three-word dictionary *)

Lemma forwardChain_undefined fuel fp start acc :
  forwardChain fuel fp start None acc = None.
Proof.
  revert acc; induction fuel as [|fuel IH]; intros acc; simpl; auto.
Qed.

(** C1, at the failing input.  On the dictionary [cat, cot, cog],
    [findPath("cat", "cog")] returns the three-word ladder, which is a
    shortest one, while [findPathBidirectional("cat", "cog")] returns
    [[cat, cot]]: two words, not ending at [cog]. *)
Theorem bidirectional_returns_truncated_path k :
  let e := dict_cat_cot_cog in
  let cat := str "cat" in let cot := str "cot" in let cog := str "cog" in
  option_map fst (findPath (7 + k) cat cog true e) = Some (Some [cat; cot; cog]) /\
  ladder (wordGraph e) cat cog [cat; cot; cog] /\
  (forall p, ladder (wordGraph e) cat cog p -> 3 <= length p) /\
  findPathBidirectional (7 + k) cat cog e = Some (Some [Some cat; Some cot]).
Proof.
  cbv zeta. split; [reflexivity|]. split; [|split; [|reflexivity]].
  - vm_compute. intuition discriminate.
  - intros [|a [|b [|c r]]] (Hh & Hl & Hn & Hc); simpl; try lia.
    + congruence.
    + vm_compute in Hh, Hl. congruence.
    + cbn in Hh, Hl. injection Hh as ->. subst b.
      vm_compute in Hc. intuition discriminate.
Qed.

(** On two adjacent words the forward scan meets the other side at once,
    and the reconstruction never leaves its first loop: no amount of fuel
    gives a result. *)
Lemma bidirectional_diverges_on_adjacent_words fuel :
  findPathBidirectional fuel (str "cat") (str "cot") dict_cat_cot = None.
Proof.
  destruct fuel as [|fuel]; [reflexivity|].
  destruct fuel as [|fuel]; [reflexivity|].
  change (findPathBidirectional (S (S fuel)) (str "cat") (str "cot") dict_cat_cot)
    with (option_map (@Some (list (option word)))
            (match forwardChain fuel [] (str "cat") None [Some (str "cot")] with
             | None => None
             | Some f =>
                 match backwardChain (S fuel) [] (str "cot") None [] with
                 | None => None
                 | Some (b, c) =>
                     Some ((Some (str "cat") :: f)
                             ++ (if opt_word_eqb c (Some (str "cot"))
                                 then b ++ [Some (str "cot")] else b))
                 end
             end)).
  now rewrite forwardChain_undefined.
Qed.

(** ** The difficulty score on the five-word dictionary *)

(** C4, at the failing input.  For [cat] and [cot] in the dictionary of
    scenario 1 the path is [[cat, cot]] and the Hamming distance is 1, so
    the score of the specification is [2*10 + 1*5 + (10 - 2) = 33];
    [calculateDifficulty] returns [67/2]: its [hammingDistance] is the
    composite [heuristic], here [11/10]. *)
Theorem calculateDifficulty_uses_composite_heuristic k :
  let e := scenario1 in
  let cat := str "cat" in let cot := str "cot" in
  option_map fst (findPath (5 + k) cat cot true e) = Some (Some [cat; cot]) /\
  hamming cat cot = 1 /\
  heuristicValue cat cot = lit 11 10 /\
  claimedDifficulty e [cat; cot] cat cot = lit 33 1 /\
  option_map fst (calculateDifficulty (5 + k) cat cot e) = Some (lit 67 2).
Proof.
  cbv zeta. split; [reflexivity|]. split; [reflexivity|].
  split; [apply num_eqb_eq; vm_compute; reflexivity|].
  split; [apply num_eqb_eq; vm_compute; reflexivity|].
  change (5 + k) with (S (S (S (S (S k))))).
  match goal with
  | |- option_map fst ?c = _ =>
      let r := eval lazy in (option_map fst c) in
      match r with
      | Some ?v => change (Some v = Some (lit 67 2))
      end
  end.
  reflexivity.
Qed.

(** ** What the searches write *)

Lemma same_but_heuristics_refl e : same_but_heuristics e e.
Proof. unfold same_but_heuristics. now destruct e. Qed.

Lemma same_but_heuristics_trans e1 e2 e3 :
  same_but_heuristics e1 e2 -> same_but_heuristics e2 e3 ->
  same_but_heuristics e1 e3.
Proof.
  unfold same_but_heuristics. intros -> ->. reflexivity.
Qed.

Lemma same_but_heuristics_graph e e' :
  same_but_heuristics e e' -> wordGraph e' = wordGraph e.
Proof. intros ->. reflexivity. Qed.

Lemma same_but_heuristics_paths e e' :
  same_but_heuristics e e' -> precomputedPaths e' = precomputedPaths e.
Proof. intros ->. reflexivity. Qed.

Lemma same_but_heuristics_wordSet e e' :
  same_but_heuristics e e' -> wordSet e' = wordSet e.
Proof. intros ->. reflexivity. Qed.

Lemma same_but_heuristics_wordsByLength e e' :
  same_but_heuristics e e' -> wordsByLength e' = wordsByLength e.
Proof. intros ->. reflexivity. Qed.

Lemma heuristic_frame a b e : same_but_heuristics e (snd (heuristic a b e)).
Proof.
  unfold heuristic. destruct (JsMap.get _ _); cbn [snd].
  - apply same_but_heuristics_refl.
  - reflexivity.
Qed.

Lemma estimate_frame useH a b e : same_but_heuristics e (snd (estimate useH a b e)).
Proof.
  unfold estimate. destruct useH; [apply heuristic_frame | apply same_but_heuristics_refl].
Qed.

Lemma relax_frame end_ useH current s e neighbor :
  same_but_heuristics e (snd (relax end_ useH current (s, e) neighbor)).
Proof.
  unfold relax. destruct (JsSet.has neighbor (closedSet s)); cbn [snd];
    [apply same_but_heuristics_refl|].
  destruct (num_ltb _ _); cbn [snd]; [|apply same_but_heuristics_refl].
  pose proof (estimate_frame useH neighbor end_ e) as F.
  destruct (estimate useH neighbor end_ e) as [h e1]. exact F.
Qed.

Lemma fold_relax_frame end_ useH current nbrs s e :
  same_but_heuristics e (snd (fold_left (relax end_ useH current) nbrs (s, e))).
Proof.
  revert s e; induction nbrs as [|n r IH]; intros s e; cbn [fold_left].
  - apply same_but_heuristics_refl.
  - pose proof (relax_frame end_ useH current s e n) as F.
    destruct (relax end_ useH current (s, e) n) as [s1 e1]. cbn [snd] in F.
    eapply same_but_heuristics_trans; [exact F | apply IH].
Qed.

(** The main loop writes the path cache once, when it returns a path. *)
Lemma astar_paths fuel end_ useH key s e r e' :
  astar fuel end_ useH key s e = Some (r, e') ->
  precomputedPaths e'
  = match r with
    | Some p => JsMap.set key p (precomputedPaths e)
    | None => precomputedPaths e
    end.
Proof.
  revert s e; induction fuel as [|fuel IH]; intros s e; cbn [astar]; [discriminate|].
  destruct (openSet s) as [|o os] eqn:Eo.
  - intros X; inversion X; subst. reflexivity.
  - destruct (lowest (o :: os)) as [current|]; [|apply IH].
    destruct (eqb current end_).
    + destruct (reconstructPath _ _ _ _); [|discriminate].
      intros X; inversion X; subst. reflexivity.
    + match goal with
      | |- context [fold_left ?f ?l (?s1, e)] =>
          pose proof (fold_relax_frame end_ useH current l s1 e) as F;
          destruct (fold_left f l (s1, e)) as [s2 e2]
      end.
      cbn [snd] in F. intros X. apply IH in X.
      now rewrite (same_but_heuristics_paths _ _ F) in X.
Qed.

(** C3, as the code has it.  On a cache miss for two distinct words of
    equal length, a path that [findPath] returns is stored under the key
    of the ordered pair, and any later query of that pair is answered
    from the cache, with no search (no fuel) and no further write; a
    [null] result is not stored, the path cache is left as it was and
    still has no entry for the pair.  [findPathBidirectional] depends on
    the graph only: it neither reads nor writes the cache. *)
Theorem findPath_caches_found_paths_only fuel (start end_ : word) useH e r e' :
  length start = length end_ -> start <> end_ ->
  JsMap.get (cacheKey start end_) (precomputedPaths e) = None ->
  findPath fuel start end_ useH e = Some (r, e') ->
  (forall p, r = Some p ->
     JsMap.get (cacheKey start end_) (precomputedPaths e') = Some p /\
     forall fuel' useH', findPath fuel' start end_ useH' e' = Some (Some p, e')) /\
  (r = None ->
     precomputedPaths e' = precomputedPaths e /\
     JsMap.has (cacheKey start end_) (precomputedPaths e') = false) /\
  (forall e2, wordGraph e2 = wordGraph e ->
     findPathBidirectional fuel start end_ e2 = findPathBidirectional fuel start end_ e).
Proof.
  intros L N Miss. unfold findPath.
  apply Nat.eqb_eq in L. rewrite L. cbn [negb].
  destruct (eqb_spec start end_) as [|_]; [contradiction|].
  rewrite Miss.
  pose proof (estimate_frame useH start end_ e) as F.
  destruct (estimate useH start end_ e) as [h e1]. cbn [snd] in F.
  intros X. apply astar_paths in X.
  rewrite (same_but_heuristics_paths _ _ F) in X.
  split; [|split].
  - intros p ->. assert (G : JsMap.get (cacheKey start end_) (precomputedPaths e') = Some p).
    { rewrite X. apply map_get_set_eq. }
    split; [exact G|]. intros fuel' useH'. now rewrite G.
  - intros ->. split; [exact X|]. unfold JsMap.has. now rewrite X, Miss.
  - intros e2 G. unfold findPathBidirectional. now rewrite G.
Qed.

Lemma findPath_caches_found_paths_only_witness :
  let e := dict_cat_cot_cog in
  let cat := str "cat" in let cog := str "cog" in
  exists e',
    findPath 7 cat cog true e = Some (Some [cat; str "cot"; cog], e') /\
    JsMap.get (cacheKey cat cog) (precomputedPaths e') = Some [cat; str "cot"; cog] /\
    findPath 0 cat cog true e' = Some (Some [cat; str "cot"; cog], e').
Proof.
  cbv zeta.
  destruct (findPath 7 (str "cat") (str "cog") true dict_cat_cot_cog)
    as [[r e']|] eqn:E; [|vm_compute in E; discriminate].
  assert (R : r = Some [str "cat"; str "cot"; str "cog"]).
  { assert (X : option_map fst (findPath 7 (str "cat") (str "cog") true dict_cat_cot_cog)
                = Some r) by now rewrite E.
    vm_compute in X. injection X as <-. reflexivity. }
  exists e'. subst r. split; [reflexivity|].
  destruct (findPath_caches_found_paths_only 7 (str "cat") (str "cog") true
              dict_cat_cot_cog (Some [str "cat"; str "cot"; str "cog"]) e')
    as (A & _ & _).
  - reflexivity.
  - vm_compute. discriminate.
  - reflexivity.
  - exact E.
  - destruct (A _ eq_refl) as [G Q]. split; [exact G | apply Q].
Defined.

(** C3 as stated fails: [findPath("cat", "dog")] on the dictionary
    [cat, dog] finds no path and leaves the path cache empty, as it was
    before the query; and [findPathBidirectional], which returns a path
    on [cat, cot, cog], has no cache to store it in. *)
Lemma no_path_result_is_not_cached :
  let e := dict_cat_dog in
  precomputedPaths e = [] /\
  exists e',
    findPath 3 (str "cat") (str "dog") true e = Some (None, e') /\
    precomputedPaths e' = [] /\
    JsMap.has (cacheKey (str "cat") (str "dog")) (precomputedPaths e') = false.
Proof.
  cbv zeta. split; [reflexivity|].
  destruct (findPath 3 (str "cat") (str "dog") true dict_cat_dog)
    as [[r e']|] eqn:E; [|vm_compute in E; discriminate].
  assert (X : option_map (fun x => (fst x, precomputedPaths (snd x)))
                (findPath 3 (str "cat") (str "dog") true dict_cat_dog)
              = Some (r, precomputedPaths e')) by now rewrite E.
  vm_compute in X. injection X as <- P.
  assert (P' : precomputedPaths e' = []) by (symmetry; exact P).
  exists e'. split; [reflexivity|]. split; [exact P'|].
  unfold JsMap.has. now rewrite P'.
Qed.

(** ** The heuristic *)

Lemma opt_ascii_eqb_sym a b : opt_ascii_eqb a b = opt_ascii_eqb b a.
Proof.
  destruct a, b; unfold opt_ascii_eqb; auto. apply eqb_sym.
Qed.

Lemma levCell_0_r w1 w2 i : levCell w1 w2 i 0 = i.
Proof. destruct i; reflexivity. Qed.

Lemma levCell_S_S w1 w2 i j :
  levCell w1 w2 (S i) (S j)
  = if opt_ascii_eqb (nth_error w2 i) (nth_error w1 j)
    then levCell w1 w2 i j
    else Nat.min (Nat.min (levCell w1 w2 i j + 1) (levCell w1 w2 (S i) j + 1))
                 (levCell w1 w2 i (S j) + 1).
Proof. reflexivity. Qed.

Lemma levCell_sym w1 w2 i j : levCell w1 w2 i j = levCell w2 w1 j i.
Proof.
  revert j; induction i as [|i IHi]; intros j.
  - now rewrite levCell_0_r.
  - induction j as [|j IHj].
    + now rewrite levCell_0_r.
    + rewrite !levCell_S_S, (opt_ascii_eqb_sym (nth_error w2 i)).
      rewrite (IHi j), (IHi (S j)), IHj.
      destruct (opt_ascii_eqb _ _); lia.
Qed.

Lemma fillRow_spec w1 w2 c2 i suffix j :
  nth_error w2 i = Some c2 ->
  (forall k, nth_error suffix k = nth_error w1 (j + k)) ->
  fillRow c2 suffix (levCell w1 w2 i j)
          (map (levCell w1 w2 i) (seq (S j) (length suffix)))
          (levCell w1 w2 (S i) j)
  = map (levCell w1 w2 (S i)) (seq (S j) (length suffix)).
Proof.
  intros E2. revert j; induction suffix as [|c1 r IH]; intros j Hs; [reflexivity|].
  cbn [length seq map fillRow].
  assert (E1 : nth_error w1 j = Some c1).
  { rewrite <- (Nat.add_0_r j), <- Hs. reflexivity. }
  assert (C : (if eqb c2 c1 then levCell w1 w2 i j
               else Nat.min (Nat.min (levCell w1 w2 i j + 1) (levCell w1 w2 (S i) j + 1))
                            (levCell w1 w2 i (S j) + 1))
              = levCell w1 w2 (S i) (S j)).
  { rewrite levCell_S_S, E1, E2. reflexivity. }
  rewrite C. f_equal. apply IH.
  intros k. rewrite Nat.add_succ_comm. apply (Hs (S k)).
Qed.

Lemma nextRow_spec w1 w2 c2 i :
  nth_error w2 i = Some c2 ->
  nextRow w1 (map (levCell w1 w2 i) (seq 0 (S (length w1)))) (S i, c2)
  = map (levCell w1 w2 (S i)) (seq 0 (S (length w1))).
Proof.
  intros E2. cbn [seq map nextRow]. rewrite levCell_0_r. f_equal.
  rewrite <- (levCell_0_r w1 w2 i) at 1.
  rewrite <- (levCell_0_r w1 w2 (S i)) at 2.
  apply fillRow_spec; auto.
Qed.

Lemma fold_nextRow_spec w1 w2 n i :
  i + n = length w2 ->
  fold_left (nextRow w1) (combine (seq (S i) n) (skipn i w2))
            (map (levCell w1 w2 i) (seq 0 (S (length w1))))
  = map (levCell w1 w2 (i + n)) (seq 0 (S (length w1))).
Proof.
  revert i; induction n as [|n IH]; intros i L.
  - now rewrite Nat.add_0_r.
  - destruct (nth_error w2 i) as [c2|] eqn:E2;
      [|apply nth_error_None in E2; lia].
    rewrite (skipn_nth_cons _ _ _ E2).
    change (seq (S i) (S n)) with (S i :: seq (S (S i)) n).
    cbn [combine fold_left].
    rewrite (nextRow_spec w1 w2 c2 i E2), IH by lia.
    f_equal. f_equal. lia.
Qed.

Lemma levenshteinRow_spec w1 w2 :
  levenshteinRow w1 w2 = map (levCell w1 w2 (length w2)) (seq 0 (S (length w1))).
Proof.
  unfold levenshteinRow.
  replace (seq 0 (S (length w1))) with (map (levCell w1 w2 0) (seq 0 (S (length w1)))) at 1.
  - apply (fold_nextRow_spec w1 w2 (length w2) 0). reflexivity.
  - apply map_id.
Qed.

Lemma calculateLevenshtein_cell w1 w2 :
  calculateLevenshtein w1 w2 = levCell w1 w2 (length w2) (length w1).
Proof.
  unfold calculateLevenshtein. rewrite levenshteinRow_spec.
  rewrite (nth_indep _ 0 (levCell w1 w2 (length w2) 0)).
  - rewrite map_nth, seq_nth by lia. reflexivity.
  - rewrite length_map, length_seq. lia.
Qed.

Lemma calculateLevenshtein_sym w1 w2 :
  calculateLevenshtein w1 w2 = calculateLevenshtein w2 w1.
Proof. rewrite !calculateLevenshtein_cell. apply levCell_sym. Qed.

Lemma hammingDistance_sym w1 w2 :
  length w1 = length w2 -> hammingDistance w1 w2 = hammingDistance w2 w1.
Proof.
  intros L. unfold hammingDistance. rewrite L. f_equal.
  apply filter_ext. intros i. unfold char_at. now rewrite opt_ascii_eqb_sym.
Qed.

Lemma filter_map_length {A B} (f : B -> bool) (g : A -> B) l :
  length (filter f (map g l)) = length (filter (fun x => f (g x)) l).
Proof.
  induction l as [|x r IH]; simpl; auto.
  destruct (f (g x)); simpl; auto.
Qed.

Lemma hammingDistance_hamming w1 w2 :
  length w1 = length w2 -> hammingDistance w1 w2 = hamming w1 w2.
Proof.
  unfold hammingDistance.
  revert w2; induction w1 as [|a r IH]; intros [|b r2] L; try discriminate; auto.
  injection L as L. cbn [length seq filter hamming char_at nth_error opt_ascii_eqb].
  rewrite <- (IH r2 L).
  rewrite <- seq_shift, <- (filter_map_length
    (fun i => negb (opt_ascii_eqb (char_at (a :: r) i) (char_at (b :: r2) i))) S).
  destruct (eqb a b); reflexivity.
Qed.

Lemma absDiff_sym a b : absDiff a b = absDiff b a.
Proof. unfold absDiff. lia. Qed.

Lemma fold_left_add_sum {A} (f : A -> nat) l a :
  fold_left (fun diff c => diff + f c) l a = a + list_sum (map f l).
Proof.
  revert a; induction l as [|x r IH]; intros a; simpl; [lia|].
  rewrite IH. lia.
Qed.

Lemma list_sum_perm l l' : Permutation l l' -> list_sum l = list_sum l'.
Proof. induction 1; simpl; lia. Qed.

Lemma calculateCharFrequencyDifference_sym w1 w2 :
  calculateCharFrequencyDifference w1 w2 = calculateCharFrequencyDifference w2 w1.
Proof.
  unfold calculateCharFrequencyDifference.
  rewrite !fold_left_add_sum. f_equal.
  rewrite (map_ext _ (fun c => absDiff (freqOf (countChars w2) c) (freqOf (countChars w1) c)))
    by (intros; apply absDiff_sym).
  apply list_sum_perm, Permutation_map.
  apply NoDup_Permutation; try apply set_NoDup_of_list.
  intros c. rewrite !set_In_of_list, !in_app_iff. tauto.
Qed.

Lemma heuristicValue_sym a b :
  length a = length b -> heuristicValue a b = heuristicValue b a.
Proof.
  intros L. unfold heuristicValue.
  now rewrite (hammingDistance_sym a b L), (calculateLevenshtein_sym a b),
    (calculateCharFrequencyDifference_sym a b).
Qed.

(** The weights, in exact arithmetic. *)
Lemma weighted_formula h l c :
  weighted h l c
  = Fin (Q2Qc (6 # 10) * qc_of_nat h + Q2Qc (3 # 10) * qc_of_nat l
         + Q2Qc (1 # 10) * qc_of_nat c)%Qc.
Proof.
  unfold weighted, num_of_nat, lit. cbn [num_mul num_add].
  now rewrite !(Qcmult_comm (qc_of_nat _)).
Qed.

Lemma weighted_fin h l c : is_fin (weighted h l c).
Proof. rewrite weighted_formula. exact I. Qed.

Lemma heuristicValue_fin a b : is_fin (heuristicValue a b).
Proof. unfold heuristicValue. rewrite weighted_formula. exact I. Qed.

(** *** The cache *)

Lemma cacheKey_inj_l a x b : cacheKey a b = cacheKey x b -> a = x.
Proof. unfold cacheKey. intros E. now apply app_inv_tail in E. Qed.

Lemma cacheKey_inj a b x y :
  dash_free a -> dash_free b -> cacheKey a b = cacheKey x y -> a = x /\ b = y.
Proof.
  unfold cacheKey, dash_free. revert x; induction a as [|c r IH]; intros x Da Db E.
  - destruct x as [|d x']; simpl in E.
    + injection E as <-. auto.
    + injection E as <- E. exfalso. apply Db. rewrite E.
      apply in_or_app. right. simpl; auto.
  - destruct x as [|d x']; simpl in E.
    + injection E as -> _. exfalso. apply Da. simpl; auto.
    + injection E as <- E. destruct (IH x') as [-> ->]; auto.
      intros I. apply Da. simpl; auto.
Qed.

Lemma lower_dash_free w : test_lower_alpha w = true -> dash_free w.
Proof.
  intros T I. destruct w as [|c r]; [destruct I|].
  unfold test_lower_alpha in T. rewrite forallb_forall in T.
  specialize (T _ I). discriminate.
Qed.

Lemma new_engine_hcache_ok : hcache_ok new_engine.
Proof. intros k v E. discriminate. Qed.

Lemma initialize_hcache_ok lines e : hcache_ok e -> hcache_ok (initialize lines e).
Proof. intros H. exact H. Qed.

Lemma heuristic_hcache_ok a b e : hcache_ok e -> hcache_ok (snd (heuristic a b e)).
Proof.
  intros H. unfold heuristic.
  destruct (JsMap.get (cacheKey a b) (heuristicCache e)) eqn:E; cbn [snd]; auto.
  intros k v. cbn [with_heuristics heuristicCache]. rewrite map_get_set.
  destruct (eqb_spec k (cacheKey a b)) as [->|N].
  - intros X; injection X as <-. eauto.
  - apply H.
Qed.

(** With a sound cache, the estimate of two dash-free strings is the
    computed value, whatever has been cached before. *)
Lemma heuristic_value a b e :
  hcache_ok e -> dash_free a -> dash_free b ->
  fst (heuristic a b e) = heuristicValue a b.
Proof.
  intros H Da Db. unfold heuristic.
  destruct (JsMap.get (cacheKey a b) (heuristicCache e)) as [v|] eqn:E; cbn [fst]; auto.
  destruct (H _ _ E) as (x & y & K & ->).
  destruct (cacheKey_inj a b x y Da Db K) as [-> ->]. reflexivity.
Qed.

(** ** The main loop of [findPath], without the cache *)

Lemma estimate_view useH end_ y e :
  estimate useH y end_ e = (hview useH end_ e y, snd (estimate useH y end_ e)) /\
  forall x, hview useH end_ (snd (estimate useH y end_ e)) x = hview useH end_ e x.
Proof.
  split; [unfold hview; now destruct (estimate useH y end_ e)|].
  intros x. unfold hview, estimate. destruct useH; [|reflexivity].
  unfold heuristic.
  destruct (JsMap.get (cacheKey y end_) (heuristicCache e)) as [v|] eqn:E; cbn [snd];
    [reflexivity|].
  cbn [with_heuristics heuristicCache]. rewrite map_get_set.
  destruct (eqb_spec (cacheKey x end_) (cacheKey y end_)) as [K|N].
  - apply cacheKey_inj_l in K. subst x. now rewrite E.
  - destruct (JsMap.get (cacheKey x end_) (heuristicCache e)); reflexivity.
Qed.

Lemma relaxP_ext h h' current s n :
  (forall x, h x = h' x) -> relaxP h current s n = relaxP h' current s n.
Proof. intros E. unfold relaxP. now rewrite E. Qed.

Lemma fold_relaxP_ext h h' current l s :
  (forall x, h x = h' x) ->
  fold_left (relaxP h current) l s = fold_left (relaxP h' current) l s.
Proof.
  intros E. revert s; induction l as [|n r IH]; intros s; cbn [fold_left]; auto.
  now rewrite IH, (relaxP_ext h h' current s n E).
Qed.

Lemma astarP_ext h h' fuel g end_ s :
  (forall x, h x = h' x) -> astarP fuel h g end_ s = astarP fuel h' g end_ s.
Proof.
  intros E. revert s; induction fuel as [|fuel IH]; intros s; cbn [astarP]; auto.
  destruct (openSet s); auto.
  destruct (lowest _); auto.
  destruct (eqb _ _); auto.
  now rewrite (fold_relaxP_ext h h' _ _ _ E).
Qed.

Lemma relax_pure end_ useH current s e n :
  let r := relax end_ useH current (s, e) n in
  fst r = relaxP (hview useH end_ e) current s n /\
  (forall x, hview useH end_ (snd r) x = hview useH end_ e x) /\
  same_but_heuristics e (snd r).
Proof.
  cbv zeta. split; [|split; [|apply relax_frame]].
  - unfold relax, relaxP. destruct (JsSet.has n (closedSet s)); [reflexivity|].
    destruct (num_ltb _ _); [|reflexivity].
    destruct (estimate_view useH end_ n e) as [-> _]. reflexivity.
  - intros x. unfold relax. destruct (JsSet.has n (closedSet s)); [reflexivity|].
    destruct (num_ltb _ _); [|reflexivity].
    destruct (estimate_view useH end_ n e) as [E V]. rewrite E. cbn [snd].
    rewrite E in V. cbn [snd] in V. apply V.
Qed.

Lemma fold_relax_pure end_ useH current nbrs s e :
  let r := fold_left (relax end_ useH current) nbrs (s, e) in
  fst r = fold_left (relaxP (hview useH end_ e) current) nbrs s /\
  (forall x, hview useH end_ (snd r) x = hview useH end_ e x) /\
  same_but_heuristics e (snd r).
Proof.
  cbv zeta. revert s e; induction nbrs as [|n rest IH]; intros s e; cbn [fold_left].
  - split; [reflexivity|]. split; [reflexivity | apply same_but_heuristics_refl].
  - destruct (relax_pure end_ useH current s e n) as (P & V & F).
    destruct (relax end_ useH current (s, e) n) as [s1 e1]. cbn [fst snd] in P, V, F.
    destruct (IH s1 e1) as (P' & V' & F'). subst s1.
    split; [|split].
    + rewrite P'. apply fold_relaxP_ext. exact V.
    + intros x. now rewrite V', V.
    + eapply same_but_heuristics_trans; eauto.
Qed.

Lemma hview_with_paths useH end_ e p x :
  hview useH end_ (with_paths e p) x = hview useH end_ e x.
Proof.
  unfold hview, estimate. destruct useH; [|reflexivity].
  unfold heuristic. cbn [with_paths heuristicCache].
  destruct (JsMap.get (cacheKey x end_) (heuristicCache e)); reflexivity.
Qed.

(** The loop of [findPath] is the loop over the estimates the engine
    holds at its start; the engine it returns holds the same estimates,
    and its path cache has the one new entry of a found path. *)
Lemma astar_pure fuel end_ useH key s e :
  match astarP fuel (hview useH end_ e) (wordGraph e) end_ s with
  | None => astar fuel end_ useH key s e = None
  | Some r =>
      exists e', astar fuel end_ useH key s e = Some (r, e') /\
                 (forall x, hview useH end_ e' x = hview useH end_ e x) /\
                 wordGraph e' = wordGraph e /\
                 wordSet e' = wordSet e /\
                 wordsByLength e' = wordsByLength e /\
                 precomputedPaths e'
                 = match r with
                   | Some p => JsMap.set key p (precomputedPaths e)
                   | None => precomputedPaths e
                   end
  end.
Proof.
  revert s e; induction fuel as [|fuel IH]; intros s e; cbn [astarP astar]; auto.
  destruct (openSet s) as [|o os] eqn:Eo.
  - exists e. split; [reflexivity|]. split; [reflexivity|]. repeat split; reflexivity.
  - destruct (lowest (o :: os)) as [current|]; [|apply IH].
    destruct (eqb current end_).
    + destruct (reconstructPath fuel (cameFrom s) (Some current) []) as [p|];
        cbn [option_map]; auto.
      eexists. split; [reflexivity|].
      split; [intros x; apply hview_with_paths|].
      repeat split; reflexivity.
    + match goal with
      | |- context [fold_left (relax end_ useH current) ?l (?s1, e)] =>
          destruct (fold_relax_pure end_ useH current l s1 e) as (P & V & F);
          destruct (fold_left (relax end_ useH current) l (s1, e)) as [s2 e2]
      end.
      cbn [fst snd] in P, V, F. subst s2.
      specialize (IH (fold_left (relaxP (hview useH end_ e) current)
                        (neighbors (wordGraph e) current)
                        (mkSearch (JsMap.delete current (openSet s))
                                  (JsSet.add current (closedSet s))
                                  (cameFrom s) (gScore s) (fScore s))) e2).
      rewrite (astarP_ext _ _ fuel _ end_ _ V) in IH.
      rewrite (same_but_heuristics_graph _ _ F),
        (same_but_heuristics_wordSet _ _ F),
        (same_but_heuristics_wordsByLength _ _ F),
        (same_but_heuristics_paths _ _ F) in IH.
      rewrite Eo in IH.
      destruct (astarP fuel _ _ _ _) as [r|]; auto.
      destruct IH as (e' & A & V' & G & W & B & P).
      exists e'. split; [exact A|].
      split; [intros x; now rewrite V', V|].
      repeat split; assumption.
Qed.

(** *** The invariant of the loop *)

Section MapFacts2.
Context {K V : Type} {EK : EqB K} {LK : EqBLaw K}.
Implicit Types (m : JsMap.t K V) (k c : K) (v : V).

Lemma map_In_delete k v c m : In (k, v) (JsMap.delete c m) -> In (k, v) m.
Proof.
  induction m as [|[k0 v0] r IH]; simpl; auto.
  destruct (eqb c k0); simpl; tauto.
Qed.

Lemma map_keys_delete_iff k c m :
  NoDup (JsMap.keys m) ->
  (In k (JsMap.keys (JsMap.delete c m)) <-> In k (JsMap.keys m) /\ k <> c).
Proof.
  induction m as [|[k0 v0] r IH]; simpl; [tauto|].
  intros N. inversion N as [|? ? Hn Hr]; subst.
  destruct (eqb_spec c k0) as [->|Ne]; simpl.
  - split.
    + intros I. split; auto. intros ->. contradiction.
    + intros [[E|I] Nk]; [congruence | auto].
  - rewrite (IH Hr). split.
    + intros [E|[I Nk]]; [subst; split; auto | split; auto].
    + intros [[E|I] Nk]; auto.
Qed.

Lemma map_In_set k v k' v' m :
  In (k', v') (JsMap.set k v m) -> (k' = k /\ v' = v) \/ In (k', v') m.
Proof.
  induction m as [|[k0 v0] r IH]; simpl.
  - intros [E|[]]. inversion E; auto.
  - destruct (eqb k k0); simpl.
    + intros [E|I]; [inversion E; auto | auto].
    + intros [E|I]; [auto | destruct (IH I); auto].
Qed.

Lemma map_In_keys_set k v k' m :
  In k' (JsMap.keys (JsMap.set k v m)) <-> k' = k \/ In k' (JsMap.keys m).
Proof.
  rewrite map_keys_set. destruct (JsMap.has k m) eqn:E.
  - apply map_has_keys in E. split; auto. intros [->|I]; auto.
  - rewrite in_app_iff. simpl. intuition.
Qed.

Lemma map_set_set k v v' m :
  JsMap.set k v (JsMap.set k v' m) = JsMap.set k v m.
Proof.
  induction m as [|[k0 v0] r IH]; simpl.
  - now rewrite eqb_refl.
  - destruct (eqb k k0) eqn:E; simpl.
    + now rewrite eqb_refl.
    + now rewrite E, IH.
Qed.

Lemma map_In_keys k v m : In (k, v) m -> In k (JsMap.keys m).
Proof. intros I. change k with (fst (k, v)). now apply in_map. Qed.

End MapFacts2.

Lemma is_fin_ltb_PInf a : is_fin a -> num_ltb a PInf = true.
Proof. destruct a; simpl; tauto. Qed.

Lemma is_fin_add a b : is_fin a -> is_fin b -> is_fin (num_add a b).
Proof. destruct a, b; simpl; tauto. Qed.

Lemma lowest_fold_some open k0 f0 :
  exists k f, fold_left lowestStep open (Some k0, f0) = (Some k, f) /\
              (k = k0 \/ In k (JsMap.keys open)).
Proof.
  revert k0 f0; induction open as [|[k1 f1] r IH]; intros k0 f0; cbn [fold_left].
  - eauto.
  - unfold lowestStep at 2. cbn [snd].
    destruct (num_ltb f1 f0).
    + destruct (IH k1 f1) as (k & f & E & [Ek|I]); exists k, f;
        (split; [exact E|]); right; simpl; [left; congruence | right; exact I].
    + destruct (IH k0 f0) as (k & f & E & [Ek|I]); exists k, f;
        (split; [exact E|]); [left; exact Ek | right; simpl; right; exact I].
Qed.

Lemma lowest_some (open : JsMap.t word num) :
  open <> [] -> (forall k f, In (k, f) open -> is_fin f) ->
  exists c, lowest open = Some c /\ In c (JsMap.keys open).
Proof.
  destruct open as [|[k0 f0] r]; [congruence|]. intros _ F.
  unfold lowest. cbn [fold_left]. unfold lowestStep at 2. cbn [snd].
  rewrite (is_fin_ltb_PInf f0) by (apply (F k0); simpl; auto).
  destruct (lowest_fold_some r k0 f0) as (k & f & E & I).
  exists k. rewrite E. split; [reflexivity|].
  destruct I as [Ek|I]; simpl; [left; congruence | right; exact I].
Qed.

Lemma neighbors_graph_words g w n : In n (neighbors g w) -> In n (graph_words g).
Proof.
  unfold neighbors, graph_words. destruct (JsMap.get w g) as [s|] eqn:E; [|intros []].
  intros I. apply in_or_app. right. apply in_concat. exists s. split; auto.
  apply map_get_In in E. change s with (snd (w, s)). now apply in_map.
Qed.

Lemma search_ok_initial g start :
  search_ok g start (mkSearch [(start, Fin 0%Qc)] [] [] [(start, Fin 0%Qc)] [(start, Fin 0%Qc)])
  /\ forall h, search_ok g start (mkSearch [(start, Fin 0%Qc)] [] [] [(start, Fin 0%Qc)] [(start, h)]).
Proof.
  assert (X : forall h, search_ok g start
                (mkSearch [(start, Fin 0%Qc)] [] [] [(start, Fin 0%Qc)] [(start, h)])).
  { intros h. split; cbn.
    - constructor; [simpl; tauto | constructor].
    - constructor.
    - tauto.
    - intros k f [E|[]]. inversion E. exact I.
    - intros k. unfold JsMap.has. cbn.
      destruct (eqb_spec k start) as [->|N]; intuition congruence.
    - intros k v. destruct (eqb k start); [|discriminate].
      intros E; inversion E. exact I.
    - intros k [[<-|[]]|[]]. auto.
    - discriminate.
    - intros [|? ?] ? ? ?; discriminate. }
  split; auto.
Qed.

(** Closing the current node. *)
Lemma search_ok_close g start s current :
  search_ok g start s -> In current (JsMap.keys (openSet s)) ->
  JsSet.add current (closedSet s) = closedSet s ++ [current] /\
  search_ok g start (mkSearch (JsMap.delete current (openSet s))
                              (JsSet.add current (closedSet s))
                              (cameFrom s) (gScore s) (fScore s)).
Proof.
  intros [On Cn Dj Of Gd Gf Nd Cc Ch] Ic.
  assert (Nc : ~ In current (closedSet s)) by now apply Dj.
  assert (A : JsSet.add current (closedSet s) = closedSet s ++ [current]).
  { unfold JsSet.add. now rewrite (proj2 (set_has_false current (closedSet s)) Nc). }
  split; [exact A|]. rewrite A.
  split; cbn [openSet closedSet cameFrom gScore fScore].
  - now apply map_NoDup_keys_delete.
  - rewrite <- A. now apply set_NoDup_add.
  - intros k I. apply map_keys_delete_iff in I; auto. destruct I as [I Ne].
    rewrite in_app_iff. simpl. intros [X|[X|[]]]; [eapply Dj; eauto | congruence].
  - intros k f I. eapply Of, map_In_delete, I.
  - intros k. rewrite Gd, in_app_iff, map_keys_delete_iff by auto. simpl.
    destruct (eqb_spec k current) as [->|Ne]; intuition congruence.
  - exact Gf.
  - intros k [I|I].
    + apply map_keys_delete_iff in I; auto. apply Nd. tauto.
    + apply in_app_iff in I. simpl in I. apply Nd.
      destruct I as [I|[<-|[]]]; auto.
  - intros k p E. apply in_or_app. left. eapply Cc; eauto.
  - intros c1 k c2 p E G.
    destruct c2 as [|x c2' _] using rev_ind.
    + apply app_inj_tail in E. destruct E as [<- <-]. eapply Cc; eauto.
    + rewrite app_comm_cons, app_assoc in E. apply app_inj_tail in E.
      destruct E as [E _]. eapply Ch; eauto.
Qed.

Lemma relaxP_ok g start h current s n :
  search_ok g start s -> In current (closedSet s) -> In n (graph_words g) ->
  (forall x, is_fin (h x)) ->
  search_ok g start (relaxP h current s n) /\
  closedSet (relaxP h current s n) = closedSet s.
Proof.
  intros Ok Ic In_ Hf. unfold relaxP.
  destruct (JsSet.has n (closedSet s)) eqn:Hc; [split; [exact Ok | reflexivity]|].
  destruct Ok as [On Cn Dj Of Gd Gf Nd Cc Ch].
  apply set_has_false in Hc.
  assert (Gc : exists gc, JsMap.get current (gScore s) = Some gc /\ is_fin gc).
  { assert (X : JsMap.has current (gScore s) = true) by (apply Gd; auto).
    unfold JsMap.has in X. destruct (JsMap.get current (gScore s)) as [gc|] eqn:E;
      [|discriminate]. exists gc. split; auto. eapply Gf; eauto. }
  destruct Gc as (gc & Eg & Fg). rewrite Eg. cbn [to_number].
  set (t := num_add gc (Fin 1%Qc)).
  assert (Ft : is_fin t) by (apply is_fin_add; [auto | exact I]).
  set (open1 := if JsMap.has n (openSet s) then openSet s
                else JsMap.set n PInf (openSet s)).
  assert (E1 : forall f, JsMap.set n f open1 = JsMap.set n f (openSet s)).
  { intros f. unfold open1. destruct (JsMap.has n (openSet s)); auto.
    apply map_set_set. }
  destruct (num_ltb t (or_infinity (JsMap.get n (gScore s)))) eqn:Lt.
  - rewrite E1. split; [|reflexivity].
    split; cbn [openSet closedSet cameFrom gScore fScore].
    + now apply map_NoDup_keys_set.
    + exact Cn.
    + intros k I. apply map_In_keys_set in I. destruct I as [->|I]; auto.
    + intros k f I. apply map_In_set in I. destruct I as [[-> ->]|I].
      * apply is_fin_add; auto.
      * eapply Of; eauto.
    + intros k. rewrite map_has_set, orb_true_iff, eqb_eq, Gd, map_In_keys_set.
      tauto.
    + intros k v. rewrite map_get_set. destruct (eqb k n).
      * intros E; inversion E; subst. exact Ft.
      * apply Gf.
    + intros k [I|I]; [|apply Nd; auto].
      apply map_In_keys_set in I. destruct I as [->|I]; [simpl; auto|].
      apply Nd; auto.
    + intros k p. rewrite map_get_set. destruct (eqb k n).
      * intros E; inversion E; subst. exact Ic.
      * apply Cc.
    + intros c1 k c2 p E. rewrite map_get_set.
      destruct (eqb_spec k n) as [->|Ne].
      * exfalso. apply Hc. rewrite E. apply in_or_app. right. simpl; auto.
      * eapply Ch; eauto.
  - assert (Ho : JsMap.has n (openSet s) = true).
    { destruct (JsMap.has n (openSet s)) eqn:Ho; auto. exfalso.
      apply map_has_false in Ho.
      assert (Gn : JsMap.get n (gScore s) = None).
      { destruct (JsMap.get n (gScore s)) eqn:E; auto.
        assert (X : JsMap.has n (gScore s) = true) by (unfold JsMap.has; now rewrite E).
        apply Gd in X. tauto. }
      rewrite Gn in Lt. cbn [or_infinity] in Lt.
      rewrite (is_fin_ltb_PInf t Ft) in Lt. discriminate. }
    unfold open1. rewrite Ho. split; [|reflexivity]. split; auto.
Qed.

Lemma fold_relaxP_ok g start h current nbrs s :
  search_ok g start s -> In current (closedSet s) ->
  (forall n, In n nbrs -> In n (graph_words g)) ->
  (forall x, is_fin (h x)) ->
  search_ok g start (fold_left (relaxP h current) nbrs s) /\
  closedSet (fold_left (relaxP h current) nbrs s) = closedSet s.
Proof.
  intros Ok Ic Sub Hf. revert s Ok Ic.
  induction nbrs as [|n r IH]; intros s Ok Ic; cbn [fold_left]; auto.
  destruct (relaxP_ok g start h current s n Ok Ic) as [Ok1 C1]; auto.
  { apply Sub; simpl; auto. }
  destruct (IH (fun x I => Sub x (or_intror I)) (relaxP h current s n) Ok1) as [Ok2 C2].
  { now rewrite C1. }
  split; auto. now rewrite C2.
Qed.

(** *** Termination *)

Lemma reconstructPath_closed came closed :
  (forall c1 k c2 p, closed = c1 ++ k :: c2 -> JsMap.get k came = Some p -> In p c1) ->
  forall n c1 k c2 acc fuel,
    length c1 <= n -> closed = c1 ++ k :: c2 -> length c1 + 2 <= fuel ->
    reconstructPath fuel came (Some k) acc <> None.
Proof.
  intros Ch. induction n as [|n IH]; intros c1 k c2 acc fuel L E F.
  - destruct fuel as [|[|fuel]]; try lia. cbn [reconstructPath].
    destruct (truthy k); [|discriminate].
    destruct (JsMap.get k came) as [p|] eqn:G; [|discriminate].
    exfalso. apply (Ch _ _ _ _ E) in G. destruct c1; [destruct G | simpl in L; lia].
  - destruct fuel as [|fuel]; [lia|]. cbn [reconstructPath].
    destruct (truthy k); [|discriminate].
    destruct (JsMap.get k came) as [p|] eqn:G.
    + pose proof (Ch _ _ _ _ E G) as Ip.
      apply in_split in Ip. destruct Ip as (a & b & ->).
      apply (IH a p (b ++ k :: c2)).
      * rewrite length_app in L. simpl in L. lia.
      * rewrite E, <- app_assoc. reflexivity.
      * rewrite length_app in F. simpl in F. lia.
    + destruct fuel; [lia | discriminate].
Qed.

Lemma reconstructPath_total g start s current fuel :
  search_ok g start s -> length (closedSet s) + 3 <= fuel ->
  reconstructPath fuel (cameFrom s) (Some current) [] <> None.
Proof.
  intros Ok F. destruct fuel as [|fuel]; [lia|]. cbn [reconstructPath].
  destruct (truthy current); [|discriminate].
  destruct (JsMap.get current (cameFrom s)) as [p|] eqn:G.
  - pose proof (so_came_closed _ _ _ Ok _ _ G) as Ip.
    apply in_split in Ip. destruct Ip as (a & b & E).
    apply (reconstructPath_closed (cameFrom s) (closedSet s) (so_chain _ _ _ Ok)
             (length a) a p b); auto.
    rewrite E, length_app in F. simpl in F. lia.
  - destruct fuel; [lia | discriminate].
Qed.

Lemma closed_bound g start s :
  search_ok g start s -> length (closedSet s) <= length (start :: graph_words g).
Proof.
  intros Ok. apply NoDup_incl_length.
  - apply (so_closed_nodup _ _ _ Ok).
  - intros k I. apply (so_nodes _ _ _ Ok). auto.
Qed.

(** The loop returns, given fuel for the nodes still to close and for
    the reconstruction. *)
Lemma astarP_total g start h end_ :
  (forall x, is_fin (h x)) ->
  forall fuel s,
    search_ok g start s ->
    (length (start :: graph_words g) - length (closedSet s))
    + length (start :: graph_words g) + 4 <= fuel ->
    astarP fuel h g end_ s <> None.
Proof.
  intros Hf. induction fuel as [|fuel IH]; intros s Ok F; [lia|].
  cbn [astarP].
  destruct (openSet s) as [|o os] eqn:Eo; [discriminate|].
  destruct (lowest_some (o :: os)) as (current & -> & Ic); [discriminate| |].
  { rewrite <- Eo. apply (so_open_fin _ _ _ Ok). }
  rewrite <- Eo in Ic.
  pose proof (closed_bound g start s Ok) as B.
  destruct (eqb current end_).
  - pose proof (reconstructPath_total g start s current fuel Ok) as R.
    destruct (reconstructPath fuel (cameFrom s) (Some current) []); [discriminate|].
    exfalso. apply R; auto. lia.
  - destruct (search_ok_close g start s current Ok Ic) as [A Ok1].
    rewrite <- Eo.
    destruct (fold_relaxP_ok g start h current (neighbors g current) _ Ok1) as [Ok2 C2]; auto.
    { cbn. rewrite A. apply in_or_app. right. simpl; auto. }
    { intros n. apply neighbors_graph_words. }
    pose proof (closed_bound g start _ Ok2) as B2.
    apply IH; [exact Ok2|].
    rewrite C2 in B2 |- *. cbn [closedSet] in B2 |- *.
    rewrite A, length_app in B2 |- *.
    change (length [current]) with 1 in B2 |- *.
    set (N := length (start :: graph_words g)) in *. lia.
Qed.

(** *** [findPath] on an engine *)

Lemma hview_fin useH end_ e w : hcache_ok e -> is_fin (hview useH end_ e w).
Proof.
  intros H. unfold hview, estimate. destruct useH; [|exact I].
  unfold heuristic.
  destruct (JsMap.get (cacheKey w end_) (heuristicCache e)) as [v|] eqn:E; cbn [fst].
  - destruct (H _ _ E) as (a & b & _ & ->). apply heuristicValue_fin.
  - apply heuristicValue_fin.
Qed.

Lemma estimate_hcache_ok useH a b e :
  hcache_ok e -> hcache_ok (snd (estimate useH a b e)).
Proof.
  unfold estimate. destruct useH; auto. apply heuristic_hcache_ok.
Qed.

Lemma relax_hcache_ok end_ useH current s e n :
  hcache_ok e -> hcache_ok (snd (relax end_ useH current (s, e) n)).
Proof.
  intros H. unfold relax. destruct (JsSet.has n (closedSet s)); auto.
  destruct (num_ltb _ _); auto.
  pose proof (estimate_hcache_ok useH n end_ e H) as H1.
  destruct (estimate useH n end_ e). exact H1.
Qed.

Lemma fold_relax_hcache_ok end_ useH current nbrs s e :
  hcache_ok e -> hcache_ok (snd (fold_left (relax end_ useH current) nbrs (s, e))).
Proof.
  revert s e; induction nbrs as [|n r IH]; intros s e H; cbn [fold_left]; auto.
  pose proof (relax_hcache_ok end_ useH current s e n H) as H1.
  destruct (relax end_ useH current (s, e) n) as [s1 e1]. now apply IH.
Qed.

Lemma astar_hcache_ok fuel end_ useH key s e r e' :
  astar fuel end_ useH key s e = Some (r, e') -> hcache_ok e -> hcache_ok e'.
Proof.
  revert s e; induction fuel as [|fuel IH]; intros s e; cbn [astar]; [discriminate|].
  destruct (openSet s) as [|o os].
  - intros X; inversion X; subst; auto.
  - destruct (lowest (o :: os)) as [current|]; [|apply IH].
    destruct (eqb current end_).
    + destruct (reconstructPath _ _ _ _); [|discriminate].
      intros X; inversion X; subst; auto.
    + match goal with
      | |- context [fold_left ?f ?l (?s1, e)] =>
          pose proof (fold_relax_hcache_ok end_ useH current l s1 e) as F;
          destruct (fold_left f l (s1, e)) as [s2 e2]
      end.
      intros X H. eapply IH; eauto.
Qed.

(** [findPath] is [findPathP] over what the engine holds; the engine it
    returns differs in the two caches only, holds the same estimates, and
    has the found path as the one new entry of its path cache. *)
Lemma findPath_pure fuel start end_ useH e :
  match findPathP fuel (hview useH end_ e) (wordGraph e)
          (JsMap.get (cacheKey start end_) (precomputedPaths e)) start end_ with
  | None => findPath fuel start end_ useH e = None
  | Some r =>
      exists e', findPath fuel start end_ useH e = Some (r, e') /\
                 (forall x, hview useH end_ e' x = hview useH end_ e x) /\
                 wordGraph e' = wordGraph e /\
                 wordSet e' = wordSet e /\
                 wordsByLength e' = wordsByLength e /\
                 (precomputedPaths e' = precomputedPaths e \/
                  exists p, r = Some p /\ length start = length end_ /\
                            start <> end_ /\
                            JsMap.get (cacheKey start end_) (precomputedPaths e) = None /\
                            precomputedPaths e'
                            = JsMap.set (cacheKey start end_) p (precomputedPaths e)) /\
                 (hcache_ok e -> hcache_ok e')
  end.
Proof.
  unfold findPathP, findPath.
  assert (Same : forall r : option path,
    exists e', Some (r, e) = Some (r, e') /\
      (forall x, hview useH end_ e' x = hview useH end_ e x) /\
      wordGraph e' = wordGraph e /\
      wordSet e' = wordSet e /\
      wordsByLength e' = wordsByLength e /\
      (precomputedPaths e' = precomputedPaths e \/
       exists p, r = Some p /\ length start = length end_ /\
                 start <> end_ /\
                 JsMap.get (cacheKey start end_) (precomputedPaths e) = None /\
                 precomputedPaths e'
                 = JsMap.set (cacheKey start end_) p (precomputedPaths e)) /\
      (hcache_ok e -> hcache_ok e')).
  { intros r. exists e. split; [reflexivity|]. split; [reflexivity|].
    split; [reflexivity|]. split; [reflexivity|]. split; [reflexivity|].
    split; [left; reflexivity | intros H; exact H]. }
  destruct (Nat.eqb_spec (length start) (length end_)) as [L|L]; cbn [negb];
    [|apply Same].
  destruct (eqb_spec start end_) as [E|N]; [apply Same|].
  destruct (JsMap.get (cacheKey start end_) (precomputedPaths e)) as [p|] eqn:G;
    [|].
  { exists e. split; [reflexivity|]. split; [reflexivity|].
    split; [reflexivity|]. split; [reflexivity|]. split; [reflexivity|].
    split; [left; reflexivity | intros H; exact H]. }
  clear Same.
  pose proof (estimate_view useH end_ start e) as [Ev V].
  pose proof (estimate_frame useH start end_ e) as F.
  pose proof (estimate_hcache_ok useH start end_ e) as Hc.
  destruct (estimate useH start end_ e) as [h e1]. cbn [snd] in Ev, V, F, Hc.
  assert (Eh : h = hview useH end_ e start) by congruence. subst h.
  pose proof (astar_pure fuel end_ useH (cacheKey start end_)
                (mkSearch [(start, Fin 0%Qc)] [] [] [(start, Fin 0%Qc)]
                          [(start, hview useH end_ e start)]) e1) as A.
  rewrite (astarP_ext _ _ fuel _ end_ _ V) in A.
  rewrite (same_but_heuristics_graph _ _ F),
    (same_but_heuristics_wordSet _ _ F),
    (same_but_heuristics_wordsByLength _ _ F),
    (same_but_heuristics_paths _ _ F) in A.
  destruct (astarP fuel _ _ _ _) as [r|]; [|exact A].
  destruct A as (e' & A & V' & Gr & W & B & P).
  exists e'. split; [exact A|].
  split; [intros x; now rewrite V', V|].
  split; [exact Gr|]. split; [exact W|]. split; [exact B|].
  split.
  - destruct r as [p|]; [right | left; exact P].
    exists p. split; [reflexivity|]. split; [exact L|]. split; [exact N|].
    split; [reflexivity | exact P].
  - intros H. apply (astar_hcache_ok _ _ _ _ _ _ _ _ A), Hc, H.
Qed.

Lemma enoughFuel_astarP g h start end_ fuel hs :
  (forall x, is_fin (h x)) -> enoughFuel g <= fuel ->
  astarP fuel h g end_
    (mkSearch [(start, Fin 0%Qc)] [] [] [(start, Fin 0%Qc)] [(start, hs)]) <> None.
Proof.
  intros Hf F. apply (astarP_total g start h end_ Hf).
  - apply (search_ok_initial g start).
  - unfold enoughFuel in F. cbn [closedSet length]. lia.
Qed.

Lemma findPathP_total fuel h g cached start end_ :
  (forall x, is_fin (h x)) -> enoughFuel g <= fuel ->
  findPathP fuel h g cached start end_ <> None.
Proof.
  intros Hf F. unfold findPathP.
  destruct (negb _); [discriminate|].
  destruct (eqb _ _); [discriminate|].
  destruct cached; [discriminate|].
  now apply enoughFuel_astarP.
Qed.

(** [findPath] returns, with enough fuel, from any engine whose cached
    estimates are sound. *)
Lemma findPath_total fuel start end_ useH e :
  hcache_ok e -> enoughFuel (wordGraph e) <= fuel ->
  exists r e', findPath fuel start end_ useH e = Some (r, e') /\
               hcache_ok e' /\
               wordGraph e' = wordGraph e /\
               wordSet e' = wordSet e /\
               wordsByLength e' = wordsByLength e.
Proof.
  intros H F.
  pose proof (findPath_pure fuel start end_ useH e) as P.
  pose proof (findPathP_total fuel (hview useH end_ e) (wordGraph e)
                (JsMap.get (cacheKey start end_) (precomputedPaths e)) start end_
                (fun x => hview_fin useH end_ e x H) F) as T.
  destruct (findPathP _ _ _ _ _ _) as [r|]; [|congruence].
  destruct P as (e' & A & _ & G & W & B & _ & Hc).
  exists r, e'. split; [exact A|]. split; [exact (Hc H)|].
  split; [exact G|]. split; [exact W | exact B].
Qed.

(** ** Random pairs *)


(** ** The order of the numbers *)

Lemma nlt_irrefl a : ~ nlt a a.
Proof.
  destruct a; unfold NumOrderDefs.lt, num_lt; cbn [num_ltb]; try discriminate; auto.
  rewrite qc_ltb_lt. intros H. exact (Qclt_not_eq _ _ H Logic.eq_refl).
Qed.

Lemma nlt_trans a b c : nlt a b -> nlt b c -> nlt a c.
Proof.
  destruct a, b, c; unfold NumOrderDefs.lt, num_lt; cbn [num_ltb];
    try discriminate; try tauto.
  rewrite !qc_ltb_lt. apply Qclt_trans.
Qed.

Lemma nlt_total a b : nlt a b \/ a = b \/ nlt b a.
Proof.
  destruct a as [x| | |], b as [y| | |]; unfold NumOrderDefs.lt, num_lt;
    cbn [num_ltb]; auto.
  rewrite !qc_ltb_lt.
  destruct (Qc_dec x y) as [[L|G]|E]; auto. right. left. now subst.
Qed.

Module NumOrderFacts.
#[global] Instance eq_equiv : Equivalence NumOrderDefs.eq.
Proof. unfold NumOrderDefs.eq. exact eq_equivalence. Qed.
#[global] Instance lt_strorder : StrictOrder NumOrderDefs.lt.
Proof.
  split.
  - intros a. apply nlt_irrefl.
  - intros a b c. apply nlt_trans.
Qed.
#[global] Instance lt_compat :
  Proper (NumOrderDefs.eq ==> NumOrderDefs.eq ==> iff) NumOrderDefs.lt.
Proof. unfold NumOrderDefs.eq. intros a b -> c d ->. tauto. Qed.
Lemma le_lteq x y : NumOrderDefs.le x y <-> NumOrderDefs.lt x y \/ NumOrderDefs.eq x y.
Proof. reflexivity. Qed.
Lemma lt_total x y : NumOrderDefs.lt x y \/ NumOrderDefs.eq x y \/ NumOrderDefs.lt y x.
Proof. apply nlt_total. Qed.
End NumOrderFacts.

Module NumOrderTac := MakeOrderTac NumOrderDefs NumOrderFacts.

Ltac num_order :=
  repeat match goal with
         | H : @Logic.eq num ?a ?b |- _ => change (NumOrderDefs.eq a b) in H
         | H : ~ @Logic.eq num ?a ?b |- _ => change (~ NumOrderDefs.eq a b) in H
         end;
  NumOrderTac.order.

Lemma num_ltb_spec a b :
  valid a -> valid b -> if num_ltb a b then nlt a b else nle b a.
Proof.
  unfold valid. intros Va Vb.
  destruct a as [x| | |], b as [y| | |]; try congruence;
    unfold NumOrderDefs.le, num_le, NumOrderDefs.lt, num_lt; cbn [num_ltb]; auto.
  destruct (qc_ltb x y) eqn:E; auto.
  rewrite !qc_ltb_lt.
  destruct (Qc_dec x y) as [[L|G]|Eq];
    [apply qc_ltb_lt in L; congruence | auto | right; congruence].
Qed.

Lemma num_leb_spec a b :
  valid a -> valid b -> if num_leb a b then nle a b else nlt b a.
Proof.
  unfold valid. intros Va Vb.
  destruct a as [x| | |], b as [y| | |]; try congruence;
    unfold NumOrderDefs.le, num_le, NumOrderDefs.lt, num_lt; cbn [num_leb num_ltb]; auto.
  destruct (qc_leb x y) eqn:E.
  - apply qc_leb_le in E. rewrite qc_ltb_lt.
    destruct (Qcle_lt_or_eq _ _ E); auto. right. congruence.
  - rewrite qc_ltb_lt. apply Qcnot_le_lt. intros L. apply qc_leb_le in L. congruence.
Qed.

Lemma num_max_spec a b :
  valid a -> valid b -> num_max a b = if num_ltb a b then b else a.
Proof. unfold valid. destruct a, b; try congruence; reflexivity. Qed.

Lemma num_min_spec a b :
  valid a -> valid b -> num_min a b = if num_ltb b a then b else a.
Proof. unfold valid. destruct a, b; try congruence; reflexivity. Qed.

Lemma nle_NInf a : valid a -> nle NInf a.
Proof.
  unfold valid, NumOrderDefs.le, num_le, NumOrderDefs.lt, num_lt.
  destruct a; cbn [num_ltb]; auto; congruence.
Qed.

Lemma nle_PInf a : valid a -> nle a PInf.
Proof.
  unfold valid, NumOrderDefs.le, num_le, NumOrderDefs.lt, num_lt.
  destruct a; cbn [num_ltb]; auto.
Qed.

Lemma valid_NInf : valid NInf.
Proof. discriminate. Qed.

Lemma valid_PInf : valid PInf.
Proof. discriminate. Qed.

Lemma nlt_NInf_PInf : nlt NInf PInf.
Proof. reflexivity. Qed.

(** ** The dictionary after [initialize] *)

Lemma toLowerCaseChar_idem c :
  toLowerCaseChar (toLowerCaseChar c) = toLowerCaseChar c.
Proof. destruct c as [[] [] [] [] [] [] [] []]; reflexivity. Qed.

Lemma toLowerCase_idem w : toLowerCase (toLowerCase w) = toLowerCase w.
Proof.
  unfold toLowerCase. rewrite map_map. apply map_ext. apply toLowerCaseChar_idem.
Qed.

Lemma is_lower_toLowerCaseChar c : is_lower c = true -> toLowerCaseChar c = c.
Proof.
  destruct c as [[] [] [] [] [] [] [] []]; intros H;
    first [reflexivity | discriminate H].
Qed.

Lemma lower_toLowerCase w : test_lower_alpha w = true -> toLowerCase w = w.
Proof.
  intros T. assert (F : forallb is_lower w = true).
  { destruct w; [discriminate | exact T]. }
  clear T. induction w as [|c r IH]; [reflexivity|].
  cbn [forallb] in F. apply andb_true_iff in F. destruct F as [Fc Fr].
  cbn [toLowerCase map]. rewrite (is_lower_toLowerCaseChar c Fc).
  f_equal. apply IH, Fr.
Qed.

Lemma wordSet_initialize lines e :
  wordSet (initialize lines e) = JsSet.of_list (processWords lines).
Proof. reflexivity. Qed.

Lemma In_wordSet_initialize lines e w :
  In w (wordSet (initialize lines e)) <->
  test_lower_alpha w = true /\ exists line, In line lines /\ processLine line = w.
Proof.
  rewrite wordSet_initialize, set_In_of_list. unfold processWords.
  rewrite filter_In, in_map_iff. split.
  - intros [(line & E & I) T]. split; [exact T|]. exists line. split; assumption.
  - intros [T (line & I & E)]. split; [|exact T]. exists line. split; assumption.
Qed.

(** X1. After [initialize(words)], [isValidWord(w)] holds exactly when
    the lower-case form of [w] consists of the letters a-z only and is
    the last space-separated token, in lower case, of some trimmed line
    of [words]; the word set the engine had before plays no part. *)
Theorem isValidWord_after_initialize lines e w :
  isValidWord (initialize lines e) w = true <->
  test_lower_alpha (toLowerCase w) = true /\
  exists line, In line lines /\ processLine line = toLowerCase w.
Proof.
  unfold isValidWord. rewrite set_has_In. apply In_wordSet_initialize.
Qed.

(** X2. [isValidWord] ignores the case of its argument: a word and its
    lower-case form are valid together, in any engine. *)
Theorem isValidWord_ignores_case e w :
  isValidWord e (toLowerCase w) = isValidWord e w.
Proof. unfold isValidWord. now rewrite toLowerCase_idem. Qed.

(** X3. [initialize] replaces the word set but adds to the length
    classes: after the call the class of length [n] holds the words it
    held before together with the new words of length [n]. *)
Theorem wordsByLength_after_initialize lines e w n :
  In w (class_of (wordsByLength (initialize lines e)) n) <->
  In w (class_of (wordsByLength e) n) \/
  (In w (wordSet (initialize lines e)) /\ length w = n).
Proof.
  rewrite wordSet_initialize, set_In_of_list.
  cbn [initialize buildWordGraph with_graph wordsByLength].
  apply In_class_of_fold.
Qed.

(** *** Nodes of the graph *)

Lemma has_addEdge g a b u :
  JsMap.has u (addEdge g (a, b)) = eqb u a || eqb u b || JsMap.has u g.
Proof.
  unfold addEdge. rewrite !has_addNeighbor, !has_ensureNode.
  destruct (eqb u a), (eqb u b), (JsMap.has u g); reflexivity.
Qed.

Lemma no_isolated_addEdge g p : no_isolated g -> no_isolated (addEdge g p).
Proof.
  destruct p as [a b]. intros H u Hu. rewrite has_addEdge in Hu.
  destruct (eqb_spec u a) as [Ea|Na].
  { exists b. apply In_neighbors_addEdge. right. left. split; [exact Ea | reflexivity]. }
  destruct (eqb_spec u b) as [Eb|Nb].
  { exists a. apply In_neighbors_addEdge. right. right. split; [exact Eb | reflexivity]. }
  cbn [orb] in Hu. destruct (H u Hu) as (v & Iv).
  exists v. apply In_neighbors_addEdge. left. exact Iv.
Qed.

Lemma no_isolated_fold_addEdge ps g :
  no_isolated g -> no_isolated (fold_left addEdge ps g).
Proof.
  revert g; induction ps as [|p r IH]; intros g H; cbn [fold_left]; [exact H|].
  apply IH, no_isolated_addEdge, H.
Qed.

Lemma no_isolated_fold_linkBucket bk g :
  no_isolated g -> no_isolated (fold_left linkBucket bk g).
Proof.
  revert g; induction bk as [|b r IH]; intros g H; cbn [fold_left]; [exact H|].
  apply IH. unfold linkBucket. apply no_isolated_fold_addEdge, H.
Qed.

Lemma no_isolated_fold_buildForLength m g :
  no_isolated g -> no_isolated (fold_left buildForLength m g).
Proof.
  revert g; induction m as [|c r IH]; intros g H; cbn [fold_left]; [exact H|].
  apply IH. unfold buildForLength. apply no_isolated_fold_linkBucket, H.
Qed.

Lemma no_isolated_initialize lines e :
  no_isolated (wordGraph e) -> no_isolated (wordGraph (initialize lines e)).
Proof.
  intros H. cbn [initialize buildWordGraph with_graph wordGraph wordsByLength].
  apply no_isolated_fold_buildForLength, H.
Qed.

Lemma no_isolated_new_engine : no_isolated (wordGraph new_engine).
Proof. intros u Hu. discriminate Hu. Qed.

(** X4. [buildWordGraph] makes a node only for a word that gets a
    neighbour: from a graph in which every node has a neighbour (the
    empty graph of the constructor is one), after [initialize] a word is
    a key of [wordGraph] exactly when [getNeighbors] of it is not empty.
    A dictionary word with no neighbour has no node. *)
Theorem graph_nodes_have_neighbors lines e u :
  no_isolated (wordGraph e) ->
  (JsMap.has u (wordGraph (initialize lines e)) = true <->
   getNeighbors (initialize lines e) u <> []).
Proof.
  intros H. pose proof (no_isolated_initialize lines e H) as H'.
  unfold getNeighbors. split.
  - intros Hu. destruct (H' u Hu) as (v & Iv). intros E. rewrite E in Iv.
    destruct Iv.
  - unfold neighbors, JsMap.has.
    destruct (JsMap.get u (wordGraph (initialize lines e))); [reflexivity|].
    intros N. contradiction N. reflexivity.
Qed.

Lemma graph_nodes_have_neighbors_witness :
  JsMap.has (str "cat") (wordGraph (initialize (map str ["cat"; "cot"; "emu"]%string) new_engine))
  = true <->
  getNeighbors (initialize (map str ["cat"; "cot"; "emu"]%string) new_engine) (str "cat")
  <> [].
Proof.
  apply (graph_nodes_have_neighbors (map str ["cat"; "cot"; "emu"]%string)
           new_engine (str "cat")).
  intros u Hu. discriminate Hu.
Defined.

Lemma known_initialize_new lines w :
  known (initialize lines new_engine) w <->
  In w (wordSet (initialize lines new_engine)).
Proof.
  unfold known. rewrite wordSet_initialize, set_In_of_list.
  cbn [initialize buildWordGraph with_graph wordsByLength].
  rewrite In_class_of_fold.
  cbn [new_engine wordsByLength class_of JsMap.get In]. tauto.
Qed.

Lemma isValidWord_member lines e w :
  In w (wordSet (initialize lines e)) -> isValidWord (initialize lines e) w = true.
Proof.
  intros I. pose proof I as I'. apply In_wordSet_initialize in I'.
  destruct I' as [T _]. unfold isValidWord.
  rewrite (lower_toLowerCase w T). apply set_has_In. exact I.
Qed.

(** X5. In an engine made by the constructor and one [initialize],
    every word that [getNeighbors(u)] lists is a valid word, as [u]
    itself is, the two pass [areNeighbors], and [u] is listed among the
    neighbours of that word in turn.  In particular a word outside the
    dictionary has no neighbours. *)
Theorem neighbors_are_valid_words lines u v :
  let e := initialize lines new_engine in
  In v (getNeighbors e u) ->
  isValidWord e u = true /\ isValidWord e v = true /\
  areNeighbors u v = true /\ In u (getNeighbors e v).
Proof.
  intros e I. unfold e in *.
  pose proof (initialize_ok lines new_engine new_engine_ok) as [_ _ _ G].
  unfold getNeighbors in I. pose proof I as I'. apply G in I'.
  destruct I' as (Ku & Kv & O).
  apply known_initialize_new in Ku, Kv.
  split; [apply isValidWord_member, Ku|].
  split; [apply isValidWord_member, Kv|].
  split; [apply areNeighbors_iff, O|].
  unfold getNeighbors. apply G.
  apply known_initialize_new in Ku, Kv.
  split; [exact Kv|]. split; [exact Ku|]. apply one_letter_apart_sym, O.
Qed.

Lemma neighbors_are_valid_words_witness :
  let e := initialize (map str ["cat"; "cot"; "emu"]%string) new_engine in
  isValidWord e (str "cat") = true /\ isValidWord e (str "cot") = true /\
  areNeighbors (str "cat") (str "cot") = true /\
  In (str "cat") (getNeighbors e (str "cot")).
Proof.
  apply (neighbors_are_valid_words (map str ["cat"; "cot"; "emu"]%string)
           (str "cat") (str "cot")).
  vm_compute. left. reflexivity.
Defined.

(** ** The word taken from a line *)

Lemma split_no_sep sep b : ~ In sep b -> split sep b = [b].
Proof.
  induction b as [|c r IH]; intros N; cbn [split]; [reflexivity|].
  destruct (eqb_spec c sep) as [E|_].
  - exfalso. apply N. left. exact E.
  - rewrite IH; [reflexivity|]. intros I. apply N. right. exact I.
Qed.

Lemma split_app_sep sep a b :
  ~ In sep b -> exists l, l <> [] /\ split sep (a ++ sep :: b) = l ++ [b].
Proof.
  intros N. induction a as [|c a' IH].
  - exists [[]]. split; [discriminate|]. cbn [app split].
    rewrite eqb_refl, (split_no_sep sep b N). reflexivity.
  - destruct IH as (l & Nl & E). cbn [app split]. rewrite E.
    destruct (eqb c sep).
    + exists ([] :: l). split; [discriminate | reflexivity].
    + destruct l as [|p l']; [contradiction|].
      exists ((c :: p) :: l'). split; [discriminate | reflexivity].
Qed.

Lemma trimStart_nonspace c r : is_space c = false -> trimStart (c :: r) = c :: r.
Proof. intros E. cbn [trimStart]. now rewrite E. Qed.

Lemma trimStart_app_space a b :
  b <> [] -> forallb (fun c => negb (is_space c)) b = true ->
  trimStart (a ++ " "%char :: b) = b \/
  exists a', trimStart (a ++ " "%char :: b) = a' ++ " "%char :: b.
Proof.
  intros Nb Fb. induction a as [|c a' IH].
  - left. cbn [app trimStart]. change (is_space " "%char) with true. cbv iota.
    destruct b as [|z r]; [contradiction|].
    cbn [forallb] in Fb. apply andb_true_iff in Fb. destruct Fb as [Fz _].
    apply negb_true_iff in Fz. apply trimStart_nonspace, Fz.
  - cbn [app trimStart]. destruct (is_space c); [exact IH|].
    right. exists (c :: a'). reflexivity.
Qed.

(** A string that ends with a character other than white space loses
    nothing at its end. *)
Lemma trim_keeps_end s b :
  b <> [] -> forallb (fun c => negb (is_space c)) b = true ->
  rev (trimStart (rev (s ++ b))) = s ++ b.
Proof.
  intros Nb Fb.
  destruct (exists_last Nb) as (b' & z & ->).
  rewrite forallb_app in Fb. apply andb_true_iff in Fb. destruct Fb as [_ Fz].
  cbn [forallb] in Fz. rewrite andb_true_r in Fz. apply negb_true_iff in Fz.
  rewrite app_assoc, rev_app_distr. cbn [rev app].
  rewrite (trimStart_nonspace z _ Fz).
  change (z :: rev (s ++ b')) with ([z] ++ rev (s ++ b')).
  rewrite rev_app_distr, rev_involutive. reflexivity.
Qed.

Lemma trim_keeps_word b :
  b <> [] -> forallb (fun c => negb (is_space c)) b = true ->
  rev (trimStart (rev b)) = b.
Proof. intros Nb Fb. exact (trim_keeps_end [] b Nb Fb). Qed.

Lemma space_not_in b :
  forallb (fun c => negb (is_space c)) b = true -> ~ In " "%char b.
Proof.
  intros Fb I. rewrite forallb_forall in Fb. specialize (Fb _ I). discriminate Fb.
Qed.

(** X26. [initialize] takes from each line its last space-separated
    token: for a line that ends, after a space, with a non-empty run [b]
    of characters other than white space, the word tested is the
    lower-case form of [b], whatever precedes it; a line that is such a
    run is taken whole.  So of a line ['word (definition)'] it is the
    end of the definition that is tested, and when that is not a word
    of the letters a-z the line adds nothing to the dictionary. *)
Theorem processLine_takes_last_token a b :
  b <> [] -> forallb (fun c => negb (is_space c)) b = true ->
  processLine (a ++ " "%char :: b) = toLowerCase b /\
  processLine b = toLowerCase b /\
  (test_lower_alpha (toLowerCase b) = false ->
   processWords [a ++ " "%char :: b] = []).
Proof.
  intros Nb Fb. pose proof (space_not_in b Fb) as Ns.
  assert (P1 : processLine (a ++ " "%char :: b) = toLowerCase b).
  { unfold processLine, trim. f_equal.
    destruct (trimStart_app_space a b Nb Fb) as [E|(a' & E)]; rewrite E.
    - rewrite (trim_keeps_word b Nb Fb).
      rewrite (split_no_sep _ b Ns). reflexivity.
    - change (a' ++ " "%char :: b) with (a' ++ [" "%char] ++ b).
      rewrite app_assoc, (trim_keeps_end _ b Nb Fb), <- app_assoc.
      cbn [app]. destruct (split_app_sep " "%char a' b Ns) as (l & _ & ->).
      apply last_last. }
  split; [exact P1|]. split.
  - unfold processLine, trim. f_equal.
    destruct b as [|z r]; [contradiction|].
    assert (Fz : is_space z = false).
    { cbn [forallb] in Fb. apply andb_true_iff in Fb. destruct Fb as [Fz _].
      apply negb_true_iff, Fz. }
    rewrite (trimStart_nonspace z r Fz).
    rewrite (trim_keeps_word (z :: r) Nb Fb).
    rewrite (split_no_sep _ (z :: r) Ns). reflexivity.
  - intros T. unfold processWords. cbn [map filter]. rewrite P1, T. reflexivity.
Qed.

Lemma processLine_takes_last_token_witness :
  processLine (str "cat (a small feline)") = str "feline)" /\
  processLine (str "feline)") = str "feline)" /\
  (test_lower_alpha (toLowerCase (str "feline)")) = false ->
   processWords [str "cat (a small feline)"] = []).
Proof.
  apply (processLine_takes_last_token (str "cat (a small") (str "feline)")).
  - discriminate.
  - reflexivity.
Defined.

(** ** Loading the dictionary *)






(** ** More on the heuristic and its components *)

(** *** [calculateLevenshtein] *)

(** X6. [calculateLevenshtein] against the empty string is the length
    of the other word, on either side. *)
Theorem calculateLevenshtein_empty w :
  calculateLevenshtein w [] = length w /\ calculateLevenshtein [] w = length w.
Proof.
  rewrite !calculateLevenshtein_cell. split.
  - reflexivity.
  - cbn [length]. apply levCell_0_r.
Qed.

(** The positions below [i] at which the two words differ. *)
Lemma levCell_diagonal w1 w2 i :
  levCell w1 w2 i i
  <= length (filter (fun k => negb (opt_ascii_eqb (char_at w1 k) (char_at w2 k)))
                    (seq 0 i)).
Proof.
  induction i as [|i IH]; [reflexivity|].
  rewrite seq_S, filter_app, length_app, levCell_S_S. cbn [Nat.add filter].
  unfold char_at in *. rewrite (opt_ascii_eqb_sym (nth_error w2 i)).
  destruct (opt_ascii_eqb (nth_error w1 i) (nth_error w2 i)); cbn [negb length]; lia.
Qed.

Lemma calculateLevenshtein_hammingDistance a b :
  length a = length b -> calculateLevenshtein a b <= hammingDistance a b.
Proof.
  intros L. rewrite calculateLevenshtein_cell, <- L. unfold hammingDistance.
  apply levCell_diagonal.
Qed.

Lemma hammingDistance_same w : hammingDistance w w = 0.
Proof.
  unfold hammingDistance.
  rewrite (filter_ext _ (fun _ => false)).
  - induction (seq 0 (length w)) as [|x r IH]; [reflexivity | exact IH].
  - intros i. assert (E : opt_ascii_eqb (char_at w i) (char_at w i) = true)
      by now apply opt_ascii_eqb_eq.
    now rewrite E.
Qed.

Lemma calculateLevenshtein_same w : calculateLevenshtein w w = 0.
Proof.
  pose proof (calculateLevenshtein_hammingDistance w w Logic.eq_refl) as H.
  rewrite hammingDistance_same in H. lia.
Qed.

(** X7. For two words of equal length the Levenshtein distance that
    [calculateLevenshtein] computes never exceeds the number of positions
    at which they differ (the Hamming loop of [heuristic]). *)
Theorem calculateLevenshtein_le_hamming a b :
  length a = length b -> calculateLevenshtein a b <= hammingDistance a b.
Proof.
  intros L. rewrite calculateLevenshtein_cell, <- L. unfold hammingDistance.
  generalize (length a). intros n.
  induction n as [|n IH]; [reflexivity|].
  rewrite seq_S, filter_app, length_app, levCell_S_S. cbn [Nat.add filter].
  unfold char_at in *. rewrite (opt_ascii_eqb_sym (nth_error b n)).
  destruct (opt_ascii_eqb (nth_error a n) (nth_error b n)); cbn [negb length]; lia.
Qed.

Lemma calculateLevenshtein_le_hamming_witness :
  calculateLevenshtein (str "cat") (str "cog") <= hammingDistance (str "cat") (str "cog").
Proof.
  apply (calculateLevenshtein_le_hamming (str "cat") (str "cog")). reflexivity.
Defined.

(** *** [calculateCharFrequencyDifference] *)

Lemma freqOf_set freq x n c :
  freqOf (JsMap.set x n freq) c = if eqb c x then n else freqOf freq c.
Proof. unfold freqOf. rewrite map_get_set. now destruct (eqb c x). Qed.

Lemma freqOf_fold w freq c :
  freqOf (fold_left (fun freq c =>
            JsMap.set c (match JsMap.get c freq with Some n => n | None => 0 end + 1) freq)
          w freq) c
  = freqOf freq c + count_occ ascii_dec w c.
Proof.
  revert freq; induction w as [|x r IH]; intros freq; cbn [fold_left count_occ].
  - lia.
  - rewrite IH. change (match JsMap.get x freq with Some n => n | None => 0 end)
      with (freqOf freq x).
    rewrite freqOf_set. destruct (eqb_spec c x) as [->|N].
    + destruct (ascii_dec x x) as [_|N]; [lia | contradiction].
    + destruct (ascii_dec x c) as [E|_]; [congruence | lia].
Qed.

Lemma freqOf_countChars w c : freqOf (countChars w) c = count_occ ascii_dec w c.
Proof. unfold countChars. now rewrite freqOf_fold. Qed.

Lemma list_sum_zero {A} (f : A -> nat) l :
  (forall x, In x l -> f x = 0) -> list_sum (map f l) = 0.
Proof.
  induction l as [|x r IH]; intros H; [reflexivity|].
  change (list_sum (map f (x :: r))) with (f x + list_sum (map f r)).
  rewrite (H x), IH; [reflexivity | | left; reflexivity].
  intros y I. apply H. right. exact I.
Qed.

Lemma absDiff_same a : absDiff a a = 0.
Proof. unfold absDiff. lia. Qed.

Lemma calculateCharFrequencyDifference_same w :
  calculateCharFrequencyDifference w w = 0.
Proof.
  unfold calculateCharFrequencyDifference. rewrite fold_left_add_sum.
  rewrite list_sum_zero; [reflexivity|]. intros c _. apply absDiff_same.
Qed.

(** X8. [calculateCharFrequencyDifference] is the sum, over the distinct
    characters of the two words, of the absolute difference of the
    numbers of occurrences of the character in each. *)
Theorem calculateCharFrequencyDifference_counts w1 w2 :
  calculateCharFrequencyDifference w1 w2
  = list_sum (map (fun c => absDiff (count_occ ascii_dec w1 c) (count_occ ascii_dec w2 c))
                  (JsSet.of_list (w1 ++ w2))).
Proof.
  unfold calculateCharFrequencyDifference. rewrite fold_left_add_sum.
  cbn [Nat.add]. f_equal. apply map_ext. intros c.
  now rewrite !freqOf_countChars.
Qed.

(** X9. Two words that are rearrangements of one another have
    character-frequency difference 0. *)
Theorem anagrams_have_zero_frequency_difference w1 w2 :
  Permutation w1 w2 -> calculateCharFrequencyDifference w1 w2 = 0.
Proof.
  intros P. unfold calculateCharFrequencyDifference. rewrite fold_left_add_sum.
  rewrite list_sum_zero; [reflexivity|]. intros c _.
  rewrite !freqOf_countChars.
  rewrite (Permutation_count_occ ascii_dec w1 w2) in P. rewrite (P c).
  apply absDiff_same.
Qed.

Lemma anagrams_have_zero_frequency_difference_witness :
  calculateCharFrequencyDifference (str "cat") (str "act") = 0.
Proof.
  apply (anagrams_have_zero_frequency_difference (str "cat") (str "act")).
  apply perm_swap.
Defined.

(** *** [heuristic] and its cache *)

Lemma heuristicValue_same w : heuristicValue w w = Fin 0%Qc.
Proof.
  unfold heuristicValue.
  rewrite hammingDistance_same, calculateLevenshtein_same,
    calculateCharFrequencyDifference_same.
  apply num_eqb_eq. vm_compute. reflexivity.
Qed.

(** X10. In an engine with a sound cache the estimate from a word
    without ['-'] to itself is 0. *)
Theorem heuristic_same_word_zero w e :
  hcache_ok e -> dash_free w -> fst (heuristic w w e) = Fin 0%Qc.
Proof.
  intros H D. rewrite (heuristic_value w w e H D D). apply heuristicValue_same.
Qed.

Lemma heuristic_same_word_zero_witness :
  fst (heuristic (str "cat") (str "cat") scenario1) = Fin 0%Qc.
Proof.
  apply (heuristic_same_word_zero (str "cat") scenario1).
  - apply initialize_hcache_ok, new_engine_hcache_ok.
  - apply lower_dash_free. reflexivity.
Defined.

Lemma heuristic_hit key a b e v :
  cacheKey a b = key -> JsMap.get key (heuristicCache e) = Some v ->
  heuristic a b e = (v, e).
Proof. intros <- G. unfold heuristic. now rewrite G. Qed.

Lemma heuristic_stores a b e :
  JsMap.get (cacheKey a b) (heuristicCache (snd (heuristic a b e)))
  = Some (fst (heuristic a b e)).
Proof.
  unfold heuristic.
  destruct (JsMap.get (cacheKey a b) (heuristicCache e)) as [v|] eqn:G; cbn [fst snd].
  - exact G.
  - cbn [with_heuristics heuristicCache]. apply map_get_set_eq.
Qed.


(** X12. The cache key [`${word1}-${word2}`] does not separate the two
    words when they may hold ['-']: after [heuristic(x + '-' + y, z)] the
    call [heuristic(x, y + '-' + z)] finds that entry and returns the
    value of the other pair, computing nothing. *)
Theorem heuristic_cache_key_collision x y z e :
  let first := heuristic (x ++ "-"%char :: y) z e in
  heuristic x (y ++ "-"%char :: z) (snd first) = (fst first, snd first).
Proof.
  cbv zeta. apply (heuristic_hit (cacheKey (x ++ "-"%char :: y) z)).
  - unfold cacheKey. rewrite <- app_assoc. reflexivity.
  - apply heuristic_stores.
Qed.

(** ** The estimate of the specification *)

(** *** Edits *)

Lemma edits_snoc_keep c a b n : edits a b n -> edits (a ++ [c]) (b ++ [c]) n.
Proof.
  induction 1; cbn [app];
    [apply edits_keep, edits_done | apply edits_keep | apply edits_substitute
    | apply edits_insert | apply edits_delete]; assumption.
Qed.

Lemma edits_snoc_substitute x y a b n :
  edits a b n -> edits (a ++ [x]) (b ++ [y]) (S n).
Proof.
  induction 1; cbn [app];
    [apply edits_substitute, edits_done | apply edits_keep | apply edits_substitute
    | apply edits_insert | apply edits_delete]; assumption.
Qed.

Lemma edits_snoc_insert y a b n : edits a b n -> edits a (b ++ [y]) (S n).
Proof.
  induction 1; cbn [app];
    [apply edits_insert, edits_done | apply edits_keep | apply edits_substitute
    | apply edits_insert | apply edits_delete]; assumption.
Qed.

Lemma edits_snoc_delete x a b n : edits a b n -> edits (a ++ [x]) b (S n).
Proof.
  induction 1; cbn [app];
    [apply edits_delete, edits_done | apply edits_keep | apply edits_substitute
    | apply edits_insert | apply edits_delete]; assumption.
Qed.

Lemma edits_rev a b n : edits a b n -> edits (rev a) (rev b) n.
Proof.
  induction 1; cbn [rev].
  - apply edits_done.
  - apply edits_snoc_keep. assumption.
  - apply edits_snoc_substitute. assumption.
  - apply edits_snoc_insert. assumption.
  - apply edits_snoc_delete. assumption.
Qed.

Lemma edits_sym a b n : edits a b n -> edits b a n.
Proof.
  induction 1;
    [apply edits_done | apply edits_keep | apply edits_substitute
    | apply edits_delete | apply edits_insert]; assumption.
Qed.

Lemma edits_length a b n :
  edits a b n -> length a <= length b + n /\ length b <= length a + n.
Proof. induction 1; cbn [length]; lia. Qed.

Lemma edits_delete_all a : edits a [] (length a).
Proof.
  induction a as [|x r IH]; [apply edits_done|]. cbn [length].
  apply edits_delete, IH.
Qed.

Lemma edits_insert_all b : edits [] b (length b).
Proof. apply edits_sym, edits_delete_all. Qed.

(** Without the first character of the source, at most one edit more. *)
Lemma edits_drop_l x a b n : edits (x :: a) b n -> exists m, edits a b m /\ m <= S n.
Proof.
  intros E. remember (x :: a) as a0 eqn:Ea. revert x a Ea.
  induction E as [|c a1 b1 n E IH|x1 y a1 b1 n E IH|y a1 b1 n E IH|x1 a1 b1 n E IH];
    intros x a Ea.
  - discriminate Ea.
  - injection Ea as -> ->. exists (S n). split; [apply edits_insert, E | lia].
  - injection Ea as -> ->. exists (S n). split; [apply edits_insert, E | lia].
  - destruct (IH x a Ea) as (m & Em & Lm).
    exists (S m). split; [apply edits_insert, Em | lia].
  - injection Ea as -> ->. exists n. split; [exact E | lia].
Qed.

Lemma edits_drop_r y a b n : edits a (y :: b) n -> exists m, edits a b m /\ m <= S n.
Proof.
  intros E. apply edits_sym in E. destruct (edits_drop_l y b a n E) as (m & Em & Lm).
  exists m. split; [apply edits_sym, Em | exact Lm].
Qed.

(** *** The matrix of [calculateLevenshtein] holds least numbers of edits *)

Lemma firstn_S_nth {A} (l : list A) j x :
  nth_error l j = Some x -> firstn (S j) l = firstn j l ++ [x].
Proof.
  revert l; induction j as [|j IH]; intros [|y r] E; try discriminate E.
  - injection E as ->. reflexivity.
  - cbn [nth_error] in E. cbn [firstn app]. f_equal. apply (IH r E).
Qed.

Lemma rev_firstn_S {A} (l : list A) j x :
  nth_error l j = Some x -> rev (firstn (S j) l) = x :: rev (firstn j l).
Proof. intros E. rewrite (firstn_S_nth l j x E), rev_app_distr. reflexivity. Qed.

Lemma levCell_least_edits w1 w2 :
  forall i j, i <= length w2 -> j <= length w1 ->
    edits (rev (firstn j w1)) (rev (firstn i w2)) (levCell w1 w2 i j) /\
    forall n, edits (rev (firstn j w1)) (rev (firstn i w2)) n -> levCell w1 w2 i j <= n.
Proof.
  induction i as [|i IHi]; intros j Li Lj.
  - assert (Lr : length (rev (firstn j w1)) = j)
      by (rewrite length_rev, length_firstn; lia).
    cbn [levCell firstn rev]. set (A := rev (firstn j w1)) in *. split.
    + rewrite <- Lr. apply edits_delete_all.
    + intros n E. apply edits_length in E. cbn [length] in E. lia.
  - induction j as [|j IHj].
    + assert (Lr : length (rev (firstn (S i) w2)) = S i)
        by (rewrite length_rev, length_firstn; lia).
      rewrite levCell_0_r. change (rev (firstn 0 w1)) with (@nil ascii).
      set (B := rev (firstn (S i) w2)) in *. split.
      * rewrite <- Lr. apply edits_insert_all.
      * intros n E. apply edits_length in E. cbn [length] in E. lia.
    + destruct (nth_error w2 i) as [y|] eqn:Ey;
        [|apply nth_error_None in Ey; lia].
      destruct (nth_error w1 j) as [x|] eqn:Ex;
        [|apply nth_error_None in Ex; lia].
      destruct (IHi j ltac:(lia) ltac:(lia)) as [D0 L0].
      destruct (IHi (S j) ltac:(lia) Lj) as [Du Lu].
      destruct (IHj ltac:(lia)) as [Dl Ll].
      rewrite (rev_firstn_S w1 j x Ex) in Du, Lu |- *.
      rewrite (rev_firstn_S w2 i y Ey) in Dl, Ll |- *.
      rewrite levCell_S_S, Ey, Ex. cbn [opt_ascii_eqb].
      set (A := rev (firstn j w1)) in *. set (B := rev (firstn i w2)) in *.
      destruct (eqb_spec y x) as [Eyx|Nyx].
      * subst y. split; [apply edits_keep, D0|].
        intros n E. inversion E as [|c a1 b1 n1 E1|x1 y1 a1 b1 n1 E1|y1 a1 b1 n1 E1
                                    |x1 a1 b1 n1 E1]; subst.
        -- apply (L0 n E1).
        -- specialize (L0 n1 E1). lia.
        -- destruct (edits_drop_l x A B n1 E1) as (m & Em & Lm).
           specialize (L0 m Em). lia.
        -- destruct (edits_drop_r x A B n1 E1) as (m & Em & Lm).
           specialize (L0 m Em). lia.
      * split.
        -- rewrite !Nat.add_1_r.
           destruct (Nat.min_dec (Nat.min (S (levCell w1 w2 i j))
                                          (S (levCell w1 w2 (S i) j)))
                                 (S (levCell w1 w2 i (S j)))) as [M|M]; rewrite M.
           ++ destruct (Nat.min_dec (S (levCell w1 w2 i j))
                                    (S (levCell w1 w2 (S i) j))) as [M'|M']; rewrite M'.
              ** apply edits_substitute, D0.
              ** apply edits_delete, Dl.
           ++ apply edits_insert, Du.
        -- intros n E. inversion E as [|c a1 b1 n1 E1|x1 y1 a1 b1 n1 E1|y1 a1 b1 n1 E1
                                       |x1 a1 b1 n1 E1]; subst.
           ++ contradiction.
           ++ specialize (L0 n1 E1). lia.
           ++ specialize (Lu n1 E1). lia.
           ++ specialize (Ll n1 E1). lia.
Qed.

(** [calculateLevenshtein] returns the least number of edits. *)
Lemma calculateLevenshtein_least_edits w1 w2 :
  edits w1 w2 (calculateLevenshtein w1 w2) /\
  forall n, edits w1 w2 n -> calculateLevenshtein w1 w2 <= n.
Proof.
  rewrite calculateLevenshtein_cell.
  destruct (levCell_least_edits w1 w2 (length w2) (length w1) (le_n _) (le_n _))
    as [D L].
  rewrite !firstn_all in D, L. split.
  - apply edits_rev in D. rewrite !rev_involutive in D. exact D.
  - intros n E. apply L, edits_rev, E.
Qed.

(** *** The recurrence of the specification *)

Lemma levenshtein_nil_r a : levenshtein a [] = length a.
Proof. destruct a; reflexivity. Qed.

Lemma levenshtein_cons x a y b :
  levenshtein (x :: a) (y :: b)
  = Nat.min (levenshtein a b + (if Ascii.eqb x y then 0 else 1))
            (Nat.min (levenshtein a (y :: b) + 1) (levenshtein (x :: a) b + 1)).
Proof. reflexivity. Qed.

Lemma levenshtein_edits a : forall b, edits a b (levenshtein a b).
Proof.
  induction a as [|x a IHa]; intros b.
  - cbn [levenshtein]. apply edits_insert_all.
  - induction b as [|y b IHb].
    + rewrite levenshtein_nil_r. apply edits_delete_all.
    + rewrite levenshtein_cons.
      destruct (Nat.min_dec (levenshtein a b + (if Ascii.eqb x y then 0 else 1))
                            (Nat.min (levenshtein a (y :: b) + 1)
                                     (levenshtein (x :: a) b + 1))) as [M|M];
        rewrite M.
      * destruct (Ascii.eqb_spec x y) as [->|N].
        -- rewrite Nat.add_0_r. apply edits_keep, IHa.
        -- rewrite Nat.add_1_r. apply edits_substitute, IHa.
      * destruct (Nat.min_dec (levenshtein a (y :: b) + 1)
                              (levenshtein (x :: a) b + 1)) as [M'|M']; rewrite M'.
        -- rewrite Nat.add_1_r. apply edits_delete, IHa.
        -- rewrite Nat.add_1_r. apply edits_insert, IHb.
Qed.

Lemma levenshtein_least a b n : edits a b n -> levenshtein a b <= n.
Proof.
  induction 1 as [|c a b n E IH|x y a b n E IH|y a b n E IH|x a b n E IH].
  - cbn. lia.
  - rewrite levenshtein_cons, Ascii.eqb_refl. lia.
  - rewrite levenshtein_cons. destruct (Ascii.eqb x y); lia.
  - destruct a as [|x a'].
    + cbn [levenshtein length] in *. lia.
    + rewrite levenshtein_cons. lia.
  - destruct b as [|y b'].
    + rewrite levenshtein_nil_r in *. cbn [length]. lia.
    + rewrite levenshtein_cons. lia.
Qed.

Lemma calculateLevenshtein_levenshtein w1 w2 :
  calculateLevenshtein w1 w2 = levenshtein w1 w2.
Proof.
  destruct (calculateLevenshtein_least_edits w1 w2) as [D L].
  pose proof (L _ (levenshtein_edits w1 w2)).
  pose proof (levenshtein_least w1 w2 _ D). lia.
Qed.

(** *** The character counts *)

Lemma calculateCharFrequencyDifference_charFreqDiff w1 w2 :
  calculateCharFrequencyDifference w1 w2 = charFreqDiff w1 w2.
Proof.
  unfold calculateCharFrequencyDifference, charFreqDiff.
  rewrite fold_left_add_sum. cbn [Nat.add].
  rewrite (map_ext _ (fun c => Z.abs_nat (Z.of_nat (count_occ ascii_dec w1 c)
                                          - Z.of_nat (count_occ ascii_dec w2 c)))).
  - apply list_sum_perm, Permutation_map.
    apply NoDup_Permutation; [apply set_NoDup_of_list | apply NoDup_nodup|].
    intros c. rewrite set_In_of_list, nodup_In. reflexivity.
  - intros c. rewrite !freqOf_countChars. unfold absDiff. lia.
Qed.

(** *** Binary64 *)

Lemma SFmul_comm prec emax x y :
  SpecFloat.SFmul prec emax x y = SpecFloat.SFmul prec emax y x.
Proof.
  destruct x as [sx|sx| |sx mx ex], y as [sy|sy| |sy my ey]; cbn [SpecFloat.SFmul];
    try reflexivity; try (now rewrite xorb_comm).
  rewrite xorb_comm, Pos.mul_comm, Z.add_comm. reflexivity.
Qed.

(** Multiplication in binary64 is commutative. *)
Lemma float_mul_comm x y : PrimFloat.mul x y = PrimFloat.mul y x.
Proof.
  apply FloatAxioms.Prim2SF_inj. rewrite !FloatAxioms.mul_spec. apply SFmul_comm.
Qed.

Lemma binary64_heuristicValue_sym a b :
  length a = length b -> Binary64.heuristicValue a b = Binary64.heuristicValue b a.
Proof.
  intros L. unfold Binary64.heuristicValue.
  now rewrite (hammingDistance_sym a b L), (calculateLevenshtein_sym a b),
    (calculateCharFrequencyDifference_sym a b).
Qed.

Lemma binary64_heuristic_value a b c :
  Binary64.cache_ok c -> dash_free a -> dash_free b ->
  fst (Binary64.heuristic a b c) = Binary64.heuristicValue a b.
Proof.
  intros H Da Db. unfold Binary64.heuristic.
  destruct (JsMap.get (cacheKey a b) c) as [v|] eqn:E; cbn [fst]; [|reflexivity].
  destruct (H _ _ E) as (x & y & K & ->).
  destruct (cacheKey_inj a b x y Da Db K) as [-> ->]. reflexivity.
Qed.

Lemma binary64_heuristic_cache_ok a b c :
  Binary64.cache_ok c -> Binary64.cache_ok (snd (Binary64.heuristic a b c)).
Proof.
  intros H. unfold Binary64.heuristic.
  destruct (JsMap.get (cacheKey a b) c) eqn:E; cbn [snd]; [exact H|].
  intros k v. rewrite map_get_set.
  destruct (eqb_spec k (cacheKey a b)) as [->|N].
  - intros X; injection X as <-. exists a, b. split; reflexivity.
  - apply H.
Qed.

Section Estimate.
Import PrimFloat.
#[local] Set Warnings "-inexact-float".

Lemma binary64_heuristicValue_formula a b :
  length a = length b ->
  Binary64.heuristicValue a b
  = (0.6 * Binary64.of_nat (hamming a b)
     + 0.3 * Binary64.of_nat (levenshtein a b)
     + 0.1 * Binary64.of_nat (charFreqDiff a b))%float.
Proof.
  intros L. unfold Binary64.heuristicValue, Binary64.weighted.
  rewrite (hammingDistance_hamming a b L), calculateLevenshtein_levenshtein,
    calculateCharFrequencyDifference_charFreqDiff.
  rewrite !(float_mul_comm (Binary64.of_nat _)). reflexivity.
Qed.

(** C6. The estimate as the code computes it, in binary64.  With a
    sound cache (as the empty cache is, and as every call of
    [heuristic] keeps it), the estimate of two words of equal length
    that hold no ['-'] (as no dictionary word does) is [0.6 * hamming +
    0.3 * levenshtein + 0.1 * charFreqDiff], each product and each sum
    rounded to binary64, where
    [hamming] counts the positions at which the words differ,
    [levenshtein] is the edit distance (the least number of insertions,
    deletions and substitutions that turn one word into the other) and
    [charFreqDiff] sums the differences of the character counts; and it
    is the same for both orders of the pair, whichever order is queried,
    and cached, first. *)
Theorem heuristic_symmetric a b c :
  Binary64.cache_ok c ->
  dash_free a -> dash_free b ->
  length a = length b ->
  let formula := (0.6 * Binary64.of_nat (hamming a b)
                  + 0.3 * Binary64.of_nat (levenshtein a b)
                  + 0.1 * Binary64.of_nat (charFreqDiff a b))%float in
  (let (ab, c1) := Binary64.heuristic a b c in
   let (ba, c2) := Binary64.heuristic b a c1 in
   let (ba', c1') := Binary64.heuristic b a c in
   let (ab', c2') := Binary64.heuristic a b c1' in
   ab = formula /\ ba = formula /\ ba' = formula /\ ab' = formula /\
   Binary64.cache_ok c2 /\ Binary64.cache_ok c2') /\
  edits a b (levenshtein a b) /\
  (forall n, edits a b n -> levenshtein a b <= n).
Proof.
  intros H Da Db L formula.
  split; [|split; [apply levenshtein_edits | apply levenshtein_least]].
  pose proof (binary64_heuristicValue_formula a b L) as F. fold formula in F.
  assert (F' : Binary64.heuristicValue b a = formula).
  { now rewrite <- (binary64_heuristicValue_sym a b L). }
  pose proof (binary64_heuristic_value a b c H Da Db) as V1.
  pose proof (binary64_heuristic_cache_ok a b c H) as H1.
  destruct (Binary64.heuristic a b c) as [ab c1]. cbn [fst snd] in V1, H1.
  pose proof (binary64_heuristic_value b a c1 H1 Db Da) as V2.
  pose proof (binary64_heuristic_cache_ok b a c1 H1) as H2.
  destruct (Binary64.heuristic b a c1) as [ba c2]. cbn [fst snd] in V2, H2.
  pose proof (binary64_heuristic_value b a c H Db Da) as V3.
  pose proof (binary64_heuristic_cache_ok b a c H) as H3.
  destruct (Binary64.heuristic b a c) as [ba' c1']. cbn [fst snd] in V3, H3.
  pose proof (binary64_heuristic_value a b c1' H3 Da Db) as V4.
  pose proof (binary64_heuristic_cache_ok a b c1' H3) as H4.
  destruct (Binary64.heuristic a b c1') as [ab' c2']. cbn [fst snd] in V4, H4.
  split; [congruence|]. split; [congruence|]. split; [congruence|].
  split; [congruence|]. split; assumption.
Qed.

Lemma heuristic_symmetric_witness :
  let a := str "cat" in
  let b := str "cot" in
  (let (ab, c1) := Binary64.heuristic a b [] in
   let (ba, c2) := Binary64.heuristic b a c1 in
   let (ba', c1') := Binary64.heuristic b a [] in
   let (ab', c2') := Binary64.heuristic a b c1' in
   ab = 1.0999999999999999%float /\ ba = 1.0999999999999999%float /\
   ba' = 1.0999999999999999%float /\ ab' = 1.0999999999999999%float /\
   Binary64.cache_ok c2 /\ Binary64.cache_ok c2') /\
  edits a b 1 /\ (forall n, edits a b n -> 1 <= n).
Proof.
  apply (heuristic_symmetric (str "cat") (str "cot") []).
  - intros k v E. discriminate E.
  - apply lower_dash_free. reflexivity.
  - apply lower_dash_free. reflexivity.
  - reflexivity.
Defined.

End Estimate.

(** ** [findPath]: termination, frame, soundness and completeness *)

(** *** More fuel changes nothing *)

Lemma reconstructPath_more_fuel fuel came temp acc r :
  reconstructPath fuel came temp acc = Some r ->
  reconstructPath (S fuel) came temp acc = Some r.
Proof.
  revert temp acc; induction fuel as [|fuel IH]; intros temp acc; [discriminate|].
  cbn [reconstructPath]. destruct temp as [t|]; [|auto].
  destruct (truthy t); [|auto]. intros X. apply IH in X. exact X.
Qed.

Lemma astar_step fuel end_ useH key s e :
  astar (S fuel) end_ useH key s e
  = match openSet s with
    | [] => Some (None, e)
    | _ =>
        match lowest (openSet s) with
        | None => astar fuel end_ useH key s e
        | Some current =>
            if eqb current end_ then
              match reconstructPath fuel (cameFrom s) (Some current) [] with
              | Some p =>
                  Some (Some p, with_paths e (JsMap.set key p (precomputedPaths e)))
              | None => None
              end
            else
              let (s2, e2) :=
                fold_left (relax end_ useH current) (neighbors (wordGraph e) current)
                  (mkSearch (JsMap.delete current (openSet s))
                            (JsSet.add current (closedSet s))
                            (cameFrom s) (gScore s) (fScore s), e) in
              astar fuel end_ useH key s2 e2
        end
    end.
Proof. reflexivity. Qed.

Lemma astar_more_fuel fuel end_ useH key s e x :
  astar fuel end_ useH key s e = Some x ->
  astar (S fuel) end_ useH key s e = Some x.
Proof.
  revert s e; induction fuel as [|fuel IH]; intros s e; [discriminate|].
  intros X. rewrite astar_step in X. rewrite (astar_step (S fuel)).
  destruct (openSet s) as [|o os]; [exact X|].
  destruct (lowest (o :: os)) as [current|]; [|apply IH, X].
  destruct (eqb current end_).
  - destruct (reconstructPath fuel (cameFrom s) (Some current) []) as [p|] eqn:R;
      [|discriminate].
    rewrite (reconstructPath_more_fuel _ _ _ _ _ R). exact X.
  - destruct (fold_left _ _ _) as [s2 e2]. apply IH, X.
Qed.

Lemma findPath_more_fuel fuel fuel' start end_ useH e x :
  fuel <= fuel' ->
  findPath fuel start end_ useH e = Some x ->
  findPath fuel' start end_ useH e = Some x.
Proof.
  intros L. induction L as [|m L IH]; [auto|].
  intros X. specialize (IH X). revert IH. unfold findPath.
  destruct (negb _); [auto|]. destruct (eqb start end_); [auto|].
  destruct (JsMap.get _ _); [auto|].
  destruct (estimate useH start end_ e) as [h e1]. intros Y.
  apply astar_more_fuel, Y.
Qed.

(** X13. From an engine with a sound heuristic cache, [findPath]
    returns: the fuel [enoughFuel] of the graph suffices for every pair
    of words, and any larger amount gives the same result and the same
    engine. *)
Theorem findPath_terminates fuel start end_ useH e :
  hcache_ok e -> enoughFuel (wordGraph e) <= fuel ->
  exists r e', forall fuel', fuel <= fuel' ->
                             findPath fuel' start end_ useH e = Some (r, e').
Proof.
  intros H F.
  destruct (findPath_total fuel start end_ useH e H F) as (r & e' & X & _).
  exists r, e'. intros fuel' L.
  exact (findPath_more_fuel fuel fuel' start end_ useH e (r, e') L X).
Qed.

Lemma findPath_terminates_witness :
  exists r e', forall fuel', 37 <= fuel' ->
    findPath fuel' (str "cat") (str "dog") true scenario1 = Some (r, e').
Proof.
  apply (findPath_terminates 37 (str "cat") (str "dog") true scenario1).
  - apply initialize_hcache_ok, new_engine_hcache_ok.
  - vm_compute. lia.
Defined.

(** X14. [findPath] writes to the two caches only: whenever it returns,
    the word set, the graph and the length classes are those of before,
    so [isValidWord] and [getNeighbors] answer as before; the path cache
    is unchanged or has the returned path as its one new entry. *)
Theorem findPath_changes_caches_only fuel start end_ useH e r e' :
  findPath fuel start end_ useH e = Some (r, e') ->
  wordSet e' = wordSet e /\ wordGraph e' = wordGraph e /\
  wordsByLength e' = wordsByLength e /\
  (forall w, isValidWord e' w = isValidWord e w) /\
  (forall w, getNeighbors e' w = getNeighbors e w) /\
  (precomputedPaths e' = precomputedPaths e \/
   exists p, r = Some p /\
             precomputedPaths e' = JsMap.set (cacheKey start end_) p (precomputedPaths e)).
Proof.
  intros X. pose proof (findPath_pure fuel start end_ useH e) as P.
  destruct (findPathP fuel (hview useH end_ e) (wordGraph e)
              (JsMap.get (cacheKey start end_) (precomputedPaths e)) start end_)
    as [r0|]; [|congruence].
  destruct P as (e0 & X0 & _ & G & W & B & C & _).
  rewrite X in X0. injection X0 as <- <-.
  split; [exact W|]. split; [exact G|]. split; [exact B|].
  split; [intros w; unfold isValidWord; now rewrite W|].
  split; [intros w; unfold getNeighbors; now rewrite G|].
  destruct C as [C|(p & Er & _ & _ & _ & C)]; [left; exact C|].
  right. exists p. split; [exact Er | exact C].
Qed.

Lemma findPath_changes_caches_only_witness :
  exists r e',
    findPath 9 (str "cat") (str "cog") true scenario1 = Some (r, e') /\
    wordGraph e' = wordGraph scenario1.
Proof.
  destruct (findPath 9 (str "cat") (str "cog") true scenario1) as [[r e']|] eqn:X.
  - exists r, e'. split; [reflexivity|].
    apply (findPath_changes_caches_only 9 (str "cat") (str "cog") true scenario1 r e' X).
  - exfalso. vm_compute in X. discriminate X.
Defined.

(** *** One relaxation *)

Lemma search_eta s :
  mkSearch (openSet s) (closedSet s) (cameFrom s) (gScore s) (fScore s) = s.
Proof. destruct s; reflexivity. Qed.

(** A relaxation leaves the state as it is, for a neighbour that is
    closed or open already, or enters the neighbour with [current] as
    its parent. *)
Lemma relaxP_shape g start h current s n :
  search_ok g start s -> In current (closedSet s) -> (forall x, is_fin (h x)) ->
  (relaxP h current s n = s /\
   (In n (closedSet s) \/ In n (JsMap.keys (openSet s)))) \/
  (~ In n (closedSet s) /\
   exists t f,
     relaxP h current s n
     = mkSearch (JsMap.set n f (openSet s)) (closedSet s)
                (JsMap.set n current (cameFrom s))
                (JsMap.set n t (gScore s)) (JsMap.set n f (fScore s))).
Proof.
  intros Ok Ic Hf. unfold relaxP.
  destruct (JsSet.has n (closedSet s)) eqn:Hc.
  { left. split; [reflexivity|]. left. apply set_has_In, Hc. }
  apply set_has_false in Hc.
  destruct Ok as [On Cn Dj Of Gd Gf Nd Cc Ch].
  assert (Gc : exists gc, JsMap.get current (gScore s) = Some gc /\ is_fin gc).
  { assert (X : JsMap.has current (gScore s) = true) by (apply Gd; right; exact Ic).
    unfold JsMap.has in X. destruct (JsMap.get current (gScore s)) as [gc|] eqn:E;
      [|discriminate]. exists gc. split; [reflexivity|]. apply (Gf current gc E). }
  destruct Gc as (gc & Eg & Fg). rewrite Eg. cbn [to_number].
  set (t := num_add gc (Fin 1%Qc)).
  assert (Ft : is_fin t) by (apply is_fin_add; [exact Fg | exact I]).
  destruct (num_ltb t (or_infinity (JsMap.get n (gScore s)))) eqn:Lt.
  - right. split; [exact Hc|]. exists t, (num_add t (h n)).
    destruct (JsMap.has n (openSet s)); [reflexivity|].
    now rewrite map_set_set.
  - left.
    assert (Ho : JsMap.has n (openSet s) = true).
    { destruct (JsMap.has n (openSet s)) eqn:Ho; [reflexivity|]. exfalso.
      apply map_has_false in Ho.
      assert (Gn : JsMap.get n (gScore s) = None).
      { destruct (JsMap.get n (gScore s)) eqn:E; [|reflexivity].
        assert (X : JsMap.has n (gScore s) = true) by (unfold JsMap.has; now rewrite E).
        apply Gd in X. tauto. }
      rewrite Gn in Lt. cbn [or_infinity] in Lt.
      rewrite (is_fin_ltb_PInf t Ft) in Lt. discriminate. }
    rewrite Ho. split; [apply search_eta|]. right. apply map_has_keys, Ho.
Qed.

Lemma search_tree_relaxP g start h current s n :
  search_ok g start s -> search_tree g start s ->
  In current (closedSet s) -> In start (closedSet s) ->
  In n (neighbors g current) -> (forall x, is_fin (h x)) ->
  search_tree g start (relaxP h current s n).
Proof.
  intros Ok [Rt Pa Ed] Ic Is In_ Hf.
  destruct (relaxP_shape g start h current s n Ok Ic Hf)
    as [[-> _]|(Nc & t & f & ->)].
  { split; assumption. }
  assert (Ns : n <> start) by (intros ->; contradiction).
  split; cbn [openSet closedSet cameFrom].
  - rewrite map_get_set_neq; [exact Rt | congruence].
  - intros k Ik Nk. rewrite map_has_set.
    destruct (eqb_spec k n) as [E|Ne]; [reflexivity|]. cbn [orb].
    apply Pa; [|exact Nk]. destruct Ik as [Ik|Ik]; [|right; exact Ik].
    apply map_In_keys_set in Ik. destruct Ik as [Ik|Ik]; [contradiction | left; exact Ik].
  - intros k p. rewrite map_get_set. destruct (eqb_spec k n) as [E|Ne].
    + intros X. injection X as <-. subst k. exact In_.
    + apply Ed.
Qed.

Lemma relaxP_open g start h current s n :
  search_ok g start s -> In current (closedSet s) -> (forall x, is_fin (h x)) ->
  (forall k, In k (JsMap.keys (openSet s)) ->
             In k (JsMap.keys (openSet (relaxP h current s n)))) /\
  (In n (closedSet s) \/ In n (JsMap.keys (openSet (relaxP h current s n)))).
Proof.
  intros Ok Ic Hf.
  destruct (relaxP_shape g start h current s n Ok Ic Hf)
    as [[-> X]|(Nc & t & f & ->)].
  { split; [intros k Ik; exact Ik | exact X]. }
  cbn [openSet]. split.
  - intros k Ik. apply map_In_keys_set. right. exact Ik.
  - right. apply map_In_keys_set. left. reflexivity.
Qed.

(** The relaxations of all the neighbours of [current]. *)
Lemma fold_relaxP_tree g start h current nbrs s :
  search_ok g start s -> search_tree g start s ->
  In current (closedSet s) -> In start (closedSet s) ->
  (forall n, In n nbrs -> In n (neighbors g current)) ->
  (forall x, is_fin (h x)) ->
  let s' := fold_left (relaxP h current) nbrs s in
  search_tree g start s' /\
  (forall k, In k (JsMap.keys (openSet s)) -> In k (JsMap.keys (openSet s'))) /\
  (forall n, In n nbrs -> In n (closedSet s) \/ In n (JsMap.keys (openSet s'))).
Proof.
  intros Ok Tr Ic Is Sub Hf. cbv zeta. revert s Ok Tr Ic Is.
  induction nbrs as [|n r IH]; intros s Ok Tr Ic Is; cbn [fold_left].
  - split; [exact Tr|]. split; [intros k Ik; exact Ik | intros n []].
  - assert (In1 : In n (neighbors g current)) by (apply Sub; left; reflexivity).
    destruct (relaxP_ok g start h current s n Ok Ic
                (neighbors_graph_words g current n In1) Hf) as [Ok1 C1].
    pose proof (search_tree_relaxP g start h current s n Ok Tr Ic Is In1 Hf) as Tr1.
    destruct (relaxP_open g start h current s n Ok Ic Hf) as [M1 N1].
    destruct (IH (fun x Ix => Sub x (or_intror Ix)) (relaxP h current s n) Ok1 Tr1)
      as (Tr2 & M2 & N2).
    { rewrite C1. exact Ic. }
    { rewrite C1. exact Is. }
    split; [exact Tr2|]. split.
    + intros k Ik. apply M2, M1, Ik.
    + intros x [<-|Ix].
      * destruct N1 as [N1|N1]; [left; exact N1 | right; apply M2, N1].
      * destruct (N2 x Ix) as [N|N]; [left; rewrite <- C1; exact N | right; exact N].
Qed.

(** *** The loop keeps the tree and the frontier *)

Lemma search_inv_initial g start end_ hs :
  search_inv g start end_
    (mkSearch [(start, Fin 0%Qc)] [] [] [(start, Fin 0%Qc)] [(start, hs)]).
Proof.
  split; cbn [openSet closedSet cameFrom].
  - apply (search_ok_initial g start).
  - split; cbn [openSet closedSet cameFrom].
    + reflexivity.
    + intros k [[E|[]]|[]] N. symmetry in E. contradiction.
    + intros k p E. discriminate E.
  - intros u v [].
  - intros [].
  - right. reflexivity.
Qed.

Lemma search_inv_step g start end_ h s current :
  (forall x, is_fin (h x)) ->
  search_inv g start end_ s ->
  In current (JsMap.keys (openSet s)) -> current <> end_ ->
  search_inv g start end_
    (fold_left (relaxP h current) (neighbors g current)
       (mkSearch (JsMap.delete current (openSet s))
                 (JsSet.add current (closedSet s))
                 (cameFrom s) (gScore s) (fScore s))).
Proof.
  intros Hf [Ok Tr Fr En St] Ic Ne.
  destruct (search_ok_close g start s current Ok Ic) as [A Ok1].
  rewrite A in *.
  set (s1 := mkSearch (JsMap.delete current (openSet s)) (closedSet s ++ [current])
                      (cameFrom s) (gScore s) (fScore s)) in *.
  pose proof (so_open_nodup _ _ _ Ok) as Nd.
  assert (Ic1 : In current (closedSet s1)).
  { cbn [s1 closedSet]. apply in_or_app. right. left. reflexivity. }
  assert (Is1 : In start (closedSet s1)).
  { cbn [s1 closedSet]. destruct St as [St|St].
    - apply in_or_app. left. exact St.
    - rewrite St in Ic. destruct Ic as [<-|[]]. apply in_or_app. right. left. reflexivity. }
  assert (Tr1 : search_tree g start s1).
  { destruct Tr as [Rt Pa Ed]. split; cbn [s1 openSet closedSet cameFrom].
    - exact Rt.
    - intros k Ik Nk. apply Pa; [|exact Nk]. destruct Ik as [Ik|Ik].
      + left. apply (map_keys_delete_iff k current (openSet s) Nd) in Ik. tauto.
      + apply in_app_or in Ik. destruct Ik as [Ik|[<-|[]]]; [right; exact Ik | left; exact Ic].
    - exact Ed. }
  destruct (fold_relaxP_ok g start h current (neighbors g current) s1 Ok1 Ic1
              (fun n I => neighbors_graph_words g current n I) Hf) as [Ok2 C2].
  destruct (fold_relaxP_tree g start h current (neighbors g current) s1 Ok1 Tr1 Ic1 Is1
              (fun n I => I) Hf) as (Tr2 & M2 & N2).
  set (s2 := fold_left (relaxP h current) (neighbors g current) s1) in *.
  split.
  - exact Ok2.
  - exact Tr2.
  - intros u v Iu Iv. rewrite C2 in Iu |- *. cbn [s1 closedSet] in Iu |- *.
    apply in_app_or in Iu. destruct Iu as [Iu|[<-|[]]].
    + destruct (Fr u v Iu Iv) as [X|X].
      * left. apply in_or_app. left. exact X.
      * destruct (eqb_spec v current) as [E|Nv].
        -- left. apply in_or_app. right. left. symmetry. exact E.
        -- right. apply M2. cbn [s1 openSet].
           apply (map_keys_delete_iff v current (openSet s) Nd). split; assumption.
    + destruct (N2 v Iv) as [X|X]; [left; exact X | right; exact X].
  - rewrite C2. cbn [s1 closedSet]. intros X. apply in_app_or in X.
    destruct X as [X|[X|[]]]; [contradiction | congruence].
  - left. rewrite C2. exact Is1.
Qed.

Lemma astarP_step fuel h g end_ s :
  astarP (S fuel) h g end_ s
  = match openSet s with
    | [] => Some None
    | _ =>
        match lowest (openSet s) with
        | None => astarP fuel h g end_ s
        | Some current =>
            if eqb current end_ then
              option_map Some (reconstructPath fuel (cameFrom s) (Some current) [])
            else
              astarP fuel h g end_
                (fold_left (relaxP h current) (neighbors g current)
                   (mkSearch (JsMap.delete current (openSet s))
                             (JsSet.add current (closedSet s))
                             (cameFrom s) (gScore s) (fScore s)))
        end
    end.
Proof. reflexivity. Qed.

(** Where the loop ends: with an empty open set, or at [end_] taken from
    the open set. *)
Lemma astarP_inv g start end_ h :
  (forall x, is_fin (h x)) ->
  forall fuel s r,
    search_inv g start end_ s -> astarP fuel h g end_ s = Some r ->
    exists s', search_inv g start end_ s' /\
      match r with
      | None => openSet s' = []
      | Some p =>
          In end_ (JsMap.keys (openSet s')) /\
          exists fuel', reconstructPath fuel' (cameFrom s') (Some end_) [] = Some p
      end.
Proof.
  intros Hf. induction fuel as [|fuel IH]; intros s r Inv X; [discriminate|].
  rewrite astarP_step in X.
  destruct (openSet s) as [|o os] eqn:Eo.
  { injection X as <-. exists s. split; [exact Inv | exact Eo]. }
  destruct (lowest_some (o :: os)) as (current & El & Ic); [discriminate| |].
  { rewrite <- Eo. apply (so_open_fin _ _ _ (si_ok _ _ _ _ Inv)). }
  rewrite El in X. rewrite <- Eo in Ic.
  destruct (eqb_spec current end_) as [E|Ne].
  - subst current.
    destruct (reconstructPath fuel (cameFrom s) (Some end_) []) as [p|] eqn:R;
      [|discriminate].
    injection X as <-. exists s. split; [exact Inv|]. split; [exact Ic|].
    exists fuel. exact R.
  - rewrite <- Eo in X.
    apply (IH _ r (search_inv_step g start end_ h s current Hf Inv Ic Ne) X).
Qed.

(** *** The path that is rebuilt *)

Lemma linked_snoc g l k :
  l <> [] -> linked g l -> In k (neighbors g (last l [])) -> linked g (l ++ [k]).
Proof.
  induction l as [|a r IH]; intros N L I; [contradiction|].
  destruct r as [|b r'].
  - cbn in *. split; [exact I | exact Logic.I].
  - change (linked g (a :: b :: r' ++ [k])).
    change (linked g (a :: b :: r')) with (In b (neighbors g a) /\ linked g (b :: r')) in L.
    destruct L as [L1 L2].
    change (In b (neighbors g a) /\ linked g ((b :: r') ++ [k])).
    split; [exact L1|]. apply IH; [discriminate | exact L2 | exact I].
Qed.

Lemma hd_error_app {A} (l l' : list A) x :
  hd_error l = Some x -> hd_error (l ++ l') = Some x.
Proof. destruct l; [discriminate | auto]. Qed.

Lemma reconstructPath_chain g start came :
  (forall k p, JsMap.get k came = Some p ->
     In k (neighbors g p) /\ (p = start \/ JsMap.has p came = true)) ->
  JsMap.get start came = None ->
  truthy_graph g -> truthy start = true ->
  forall fuel k acc r,
    (k = start \/ JsMap.has k came = true) ->
    reconstructPath fuel came (Some k) acc = Some r ->
    exists l, r = l ++ acc /\ hd_error l = Some start /\ last l [] = k /\ linked g l.
Proof.
  intros Ed Rt Tg Ts. induction fuel as [|fuel IH]; intros k acc r Hk X; [discriminate|].
  cbn [reconstructPath] in X.
  assert (Tk : truthy k = true).
  { destruct Hk as [->|Hk]; [exact Ts|]. unfold JsMap.has in Hk.
    destruct (JsMap.get k came) as [p|] eqn:G; [|discriminate].
    destruct (Ed k p G) as [I _]. apply (Tg p k I). }
  rewrite Tk in X.
  destruct (JsMap.get k came) as [p|] eqn:G.
  - destruct (Ed k p G) as [I Hp].
    destruct (IH p (k :: acc) r Hp X) as (l & -> & Hh & Hl & Li).
    exists (l ++ [k]). split; [now rewrite <- app_assoc|].
    split; [apply hd_error_app, Hh|]. split; [apply last_last|].
    apply linked_snoc; [|exact Li|now rewrite Hl].
    intros ->. discriminate Hh.
  - assert (Ek : k = start).
    { destruct Hk as [Hk|Hk]; [exact Hk|]. unfold JsMap.has in Hk.
      rewrite G in Hk. discriminate. }
    subst k. destruct fuel as [|fuel]; [discriminate|]. cbn [reconstructPath] in X.
    injection X as <-. exists [start]. split; [reflexivity|].
    split; [reflexivity|]. split; [reflexivity | exact Logic.I].
Qed.

Lemma astarP_sound g start end_ h :
  (forall x, is_fin (h x)) -> truthy_graph g -> truthy start = true ->
  forall fuel s p,
    search_inv g start end_ s -> astarP fuel h g end_ s = Some (Some p) ->
    ladder g start end_ p.
Proof.
  intros Hf Tg Ts fuel s p Inv X.
  destruct (astarP_inv g start end_ h Hf fuel s (Some p) Inv X)
    as (s' & [Ok [Rt Pa Ed] _ _ _] & Ie & fuel' & R).
  assert (Par : forall k, In k (JsMap.keys (openSet s')) \/ In k (closedSet s') ->
                          k = start \/ JsMap.has k (cameFrom s') = true).
  { intros k Ik. destruct (eqb_spec k start) as [E|N]; [left; exact E|].
    right. apply Pa; assumption. }
  destruct (reconstructPath_chain g start (cameFrom s')) with
    (fuel := fuel') (k := end_) (acc := @nil word) (r := p)
    as (l & -> & Hh & Hl & Li).
  - intros k q G. split; [apply (Ed k q G)|]. apply Par. right.
    apply (so_came_closed _ _ _ Ok k q G).
  - exact Rt.
  - exact Tg.
  - exact Ts.
  - apply Par. left. exact Ie.
  - exact R.
  - rewrite app_nil_r. split; [exact Hh|]. split; [exact Hl|].
    split; [|exact Li]. intros ->. discriminate Hh.
Qed.

(** *** No path *)

Lemma linked_closed g s :
  frontier_ok g s -> openSet s = [] ->
  forall p a, linked g (a :: p) -> In a (closedSet s) ->
              forall x, In x (a :: p) -> In x (closedSet s).
Proof.
  intros Fr Eo. induction p as [|b r IH]; intros a L Ia x Ix.
  - destruct Ix as [<-|[]]. exact Ia.
  - change (linked g (a :: b :: r)) with (In b (neighbors g a) /\ linked g (b :: r)) in L.
    destruct L as [L1 L2]. destruct Ix as [<-|Ix]; [exact Ia|].
    apply (IH b L2); [|exact Ix].
    destruct (Fr a b Ia L1) as [X|X]; [exact X|]. rewrite Eo in X. destruct X.
Qed.

Lemma In_last {A} (l : list A) d : l <> [] -> In (last l d) l.
Proof.
  induction l as [|a r IH]; intros N; [contradiction|].
  destruct r as [|b r']; [left; reflexivity|].
  right. apply IH. discriminate.
Qed.

Lemma astarP_complete g start end_ h :
  (forall x, is_fin (h x)) ->
  forall fuel s,
    search_inv g start end_ s -> astarP fuel h g end_ s = Some None ->
    forall p, ~ ladder g start end_ p.
Proof.
  intros Hf fuel s Inv X p (Hh & Hl & Np & Li).
  destruct (astarP_inv g start end_ h Hf fuel s None Inv X)
    as (s' & [_ _ Fr En St] & Eo).
  assert (Is : In start (closedSet s')).
  { destruct St as [St|St]; [exact St|]. rewrite Eo in St. discriminate St. }
  destruct p as [|a r]; [contradiction|]. cbn in Hh. injection Hh as ->.
  apply En. rewrite <- Hl.
  apply (linked_closed g s' Fr Eo r start Li Is). apply In_last. exact Np.
Qed.

(** *** [findPath] on an engine that is ready for the searches *)

Lemma app_inj_length {A} (a x b y : list A) :
  length a = length x -> a ++ b = x ++ y -> a = x /\ b = y.
Proof.
  revert x; induction a as [|c r IH]; intros [|d x'] L E; try discriminate L.
  - split; [reflexivity | exact E].
  - cbn in L, E. injection L as L. injection E as -> E.
    destruct (IH x' L E) as [-> ->]. split; reflexivity.
Qed.

(** For pairs of words of equal length the key of the path cache
    determines the pair. *)
Lemma cacheKey_inj_length a b x y :
  length a = length b -> length x = length y ->
  cacheKey a b = cacheKey x y -> a = x /\ b = y.
Proof.
  unfold cacheKey. intros L1 L2 E.
  assert (L : length a = length x).
  { apply (f_equal (@List.length ascii)) in E. rewrite !length_app in E.
    cbn [length] in E. lia. }
  destruct (app_inj_length a x _ _ L E) as [-> E']. injection E' as ->.
  split; reflexivity.
Qed.

Lemma engine_ok_truthy_graph e : engine_ok e -> truthy_graph (wordGraph e).
Proof.
  intros [K C W G] u v I. apply G in I. destruct I as (_ & Kv & _).
  destruct v as [|c r]; [|reflexivity]. exfalso.
  unfold known in Kv. pose proof (class_of_In_entry _ _ _ Kv) as En.
  destruct (C _ _ En) as [_ S]. destruct (S [] Kv) as [_ T]. discriminate T.
Qed.

Lemma search_ready_initialize lines : search_ready (initialize lines new_engine).
Proof.
  split.
  - apply initialize_hcache_ok, new_engine_hcache_ok.
  - intros a b p _ _ X. discriminate X.
  - apply engine_ok_truthy_graph, initialize_ok, new_engine_ok.
Qed.

Lemma findPath_result fuel start end_ useH e r e' :
  findPath fuel start end_ useH e = Some (r, e') ->
  findPathP fuel (hview useH end_ e) (wordGraph e)
            (JsMap.get (cacheKey start end_) (precomputedPaths e)) start end_ = Some r /\
  wordGraph e' = wordGraph e /\ (hcache_ok e -> hcache_ok e') /\
  (precomputedPaths e' = precomputedPaths e \/
   exists p, r = Some p /\ length start = length end_ /\ start <> end_ /\
             precomputedPaths e' = JsMap.set (cacheKey start end_) p (precomputedPaths e)).
Proof.
  intros X. pose proof (findPath_pure fuel start end_ useH e) as P.
  destruct (findPathP fuel (hview useH end_ e) (wordGraph e)
              (JsMap.get (cacheKey start end_) (precomputedPaths e)) start end_)
    as [r0|]; [|congruence].
  destruct P as (e0 & X0 & _ & G & _ & _ & C & H).
  rewrite X in X0. injection X0 as <- <-.
  split; [reflexivity|]. split; [exact G|]. split; [exact H|].
  destruct C as [C|(p & Er & L & N & _ & C)]; [left; exact C|].
  right. exists p. split; [exact Er|]. split; [exact L|]. split; [exact N | exact C].
Qed.

Lemma equal_length_distinct_truthy (start end_ : word) :
  length start = length end_ -> start <> end_ -> truthy start = true.
Proof.
  intros L N. destruct start as [|c r]; [|reflexivity].
  destruct end_ as [|d r']; [contradiction N; reflexivity | discriminate L].
Qed.

Lemma findPathP_sound g hv cached (start end_ : word) fuel p :
  (forall x, is_fin (hv x)) -> truthy_graph g ->
  (forall q, length start = length end_ -> start <> end_ ->
             cached = Some q -> ladder g start end_ q) ->
  findPathP fuel hv g cached start end_ = Some (Some p) -> ladder g start end_ p.
Proof.
  intros Hf Tg Hc. unfold findPathP.
  destruct (Nat.eqb_spec (length start) (length end_)) as [L|L]; cbn [negb];
    [|discriminate].
  destruct (eqb_spec start end_) as [E|N].
  { intros X. injection X as <-. subst end_.
    split; [reflexivity|]. split; [reflexivity|]. split; [discriminate | exact I]. }
  destruct cached as [q|].
  { intros X. injection X as <-. apply (Hc q L N). reflexivity. }
  apply (astarP_sound g start end_ hv Hf Tg (equal_length_distinct_truthy start end_ L N)).
  apply search_inv_initial.
Qed.

Lemma findPathP_complete g hv cached (start end_ : word) fuel :
  (forall x, is_fin (hv x)) -> length start = length end_ ->
  findPathP fuel hv g cached start end_ = Some None ->
  forall p, ~ ladder g start end_ p.
Proof.
  intros Hf L. unfold findPathP. apply Nat.eqb_eq in L. rewrite L. cbn [negb].
  destruct (eqb start end_); [discriminate|].
  destruct cached as [q|]; [discriminate|].
  apply (astarP_complete g start end_ hv Hf). apply search_inv_initial.
Qed.

Lemma findPath_sound fuel (start end_ : word) useH e p e' :
  search_ready e ->
  findPath fuel start end_ useH e = Some (Some p, e') ->
  ladder (wordGraph e) start end_ p /\ search_ready e'.
Proof.
  intros [H P T] X.
  destruct (findPath_result fuel start end_ useH e (Some p) e' X) as (R & G & H' & C).
  assert (Ld : ladder (wordGraph e) start end_ p).
  { apply (findPathP_sound (wordGraph e) (hview useH end_ e)
             (JsMap.get (cacheKey start end_) (precomputedPaths e)) start end_ fuel p).
    - intros x. apply hview_fin, H.
    - exact T.
    - intros q L N Q. apply (P start end_ q L N Q).
    - exact R. }
  split; [exact Ld|]. split.
  - apply H', H.
  - intros a b q L N Q. rewrite G.
    destruct C as [C|(p0 & Ep & L0 & N0 & C)].
    + rewrite C in Q. apply (P a b q L N Q).
    + injection Ep as <-. rewrite C, map_get_set in Q.
      destruct (eqb_spec (cacheKey a b) (cacheKey start end_)) as [K|K].
      * destruct (cacheKey_inj_length a b start end_ L L0 K) as [-> ->].
        injection Q as <-. exact Ld.
      * apply (P a b q L N Q).
  - rewrite G. exact T.
Qed.

(** X15. From an engine with sound caches and no empty string in its
    graph (as the constructor and [initialize] give), a path that
    [findPath] returns is a ladder of the word graph: it begins with
    [start], ends with [end], and each word is a neighbour of the one
    before; and the engine returned has sound caches again. *)
Theorem findPath_returns_ladder fuel (start end_ : word) useH e p e' :
  search_ready e ->
  findPath fuel start end_ useH e = Some (Some p, e') ->
  ladder (wordGraph e) start end_ p /\ search_ready e'.
Proof.
  intros R X. exact (findPath_sound fuel start end_ useH e p e' R X).
Qed.

Lemma findPath_returns_ladder_witness :
  exists p e',
    findPath 37 (str "cat") (str "dog") true scenario1 = Some (Some p, e') /\
    ladder (wordGraph scenario1) (str "cat") (str "dog") p /\ search_ready e'.
Proof.
  destruct (findPath 37 (str "cat") (str "dog") true scenario1) as [[[p|] e']|] eqn:X.
  - exists p, e'. split; [reflexivity|].
    apply (findPath_returns_ladder 37 (str "cat") (str "dog") true scenario1 p e').
    + apply search_ready_initialize.
    + exact X.
  - exfalso. vm_compute in X. discriminate X.
  - exfalso. vm_compute in X. discriminate X.
Defined.

(** X16. [findPath] is complete: when it returns [null] for two words of
    equal length, the word graph holds no ladder from [start] to [end]
    at all. *)
Theorem findPath_null_means_no_ladder fuel (start end_ : word) useH e e' :
  hcache_ok e -> length start = length end_ ->
  findPath fuel start end_ useH e = Some (None, e') ->
  forall p, ~ ladder (wordGraph e) start end_ p.
Proof.
  intros H L X.
  destruct (findPath_result fuel start end_ useH e None e' X) as (R & _).
  apply (findPathP_complete (wordGraph e) (hview useH end_ e)
           (JsMap.get (cacheKey start end_) (precomputedPaths e)) start end_ fuel).
  - intros x. apply hview_fin, H.
  - exact L.
  - exact R.
Qed.

Lemma findPath_null_means_no_ladder_witness :
  ~ exists p,
      ladder (wordGraph (initialize (map str ["cat"; "cot"; "dog"; "dig"]%string) new_engine))
             (str "cat") (str "dog") p.
Proof.
  intros (p & Ld). revert p Ld.
  destruct (findPath 20 (str "cat") (str "dog") true
              (initialize (map str ["cat"; "cot"; "dog"; "dig"]%string) new_engine))
    as [[[p|] e']|] eqn:X.
  - exfalso. vm_compute in X. discriminate X.
  - apply (findPath_null_means_no_ladder 20 (str "cat") (str "dog") true
             (initialize (map str ["cat"; "cot"; "dog"; "dig"]%string) new_engine) e').
    + apply initialize_hcache_ok, new_engine_hcache_ok.
    + reflexivity.
    + exact X.
  - exfalso. vm_compute in X. discriminate X.
Defined.

(** ** Engines that stay ready for the searches *)

Lemma same_dict_refl e : same_dict e e.
Proof. split; [reflexivity | split; reflexivity]. Qed.

Lemma same_dict_trans e1 e2 e3 : same_dict e1 e2 -> same_dict e2 e3 -> same_dict e1 e3.
Proof.
  intros (A1 & B1 & C1) (A2 & B2 & C2).
  split; [congruence | split; congruence].
Qed.

Lemma still_ready_refl e : search_ready e -> still_ready e e.
Proof. intros R. split; [exact R | apply same_dict_refl]. Qed.

Lemma still_ready_trans e1 e2 e3 :
  still_ready e1 e2 -> still_ready e2 e3 -> still_ready e1 e3.
Proof.
  intros [_ D1] [R2 D2]. split; [exact R2 | apply (same_dict_trans e1 e2 e3 D1 D2)].
Qed.

Lemma same_but_heuristics_ready e e' :
  search_ready e -> same_but_heuristics e e' -> hcache_ok e' -> still_ready e e'.
Proof.
  intros [H P T] F H'.
  pose proof (same_but_heuristics_graph _ _ F) as G.
  pose proof (same_but_heuristics_paths _ _ F) as Pp.
  split; [split|].
  - exact H'.
  - intros a b p L N Q. rewrite G. rewrite Pp in Q. apply (P a b p L N Q).
  - rewrite G. exact T.
  - split; [apply (same_but_heuristics_wordSet _ _ F)|].
    split; [exact G | apply (same_but_heuristics_wordsByLength _ _ F)].
Qed.

Lemma heuristic_ready a b e :
  search_ready e -> still_ready e (snd (heuristic a b e)).
Proof.
  intros R. apply (same_but_heuristics_ready e _ R (heuristic_frame a b e)).
  apply heuristic_hcache_ok, (sr_heuristics e R).
Qed.

Lemma findPath_ready fuel (start end_ : word) useH e r e' :
  search_ready e -> findPath fuel start end_ useH e = Some (r, e') ->
  still_ready e e'.
Proof.
  intros R X. pose proof (findPath_pure fuel start end_ useH e) as P.
  destruct (findPathP fuel (hview useH end_ e) (wordGraph e)
              (JsMap.get (cacheKey start end_) (precomputedPaths e)) start end_)
    as [r0|]; [|congruence].
  destruct P as (e0 & X0 & _ & G & W & B & C & H).
  rewrite X in X0. injection X0 as <- <-.
  split; [|split; [exact W | split; [exact G | exact B]]].
  destruct r as [p|].
  - apply (findPath_sound fuel start end_ useH e p e' R X).
  - destruct R as [Hh Pp T]. split.
    + apply H, Hh.
    + destruct C as [C|(p & Ep & _)]; [|discriminate Ep].
      intros a b q L N Q. rewrite G. rewrite C in Q. apply (Pp a b q L N Q).
    + rewrite G. exact T.
Qed.

Lemma evaluatePosition_ready fuel currentWord targetWord playerLadder e score e' :
  search_ready e ->
  evaluatePosition fuel currentWord targetWord playerLadder e = Some (score, e') ->
  still_ready e e'.
Proof.
  intros R. unfold evaluatePosition.
  pose proof (heuristic_ready currentWord targetWord e R) as R1.
  destruct (heuristic currentWord targetWord e) as [d e1]. cbn [snd] in R1.
  destruct (findPath fuel currentWord targetWord true e1) as [[p e2]|] eqn:X;
    [|discriminate].
  pose proof (findPath_ready fuel currentWord targetWord true e1 p e2 (proj1 R1) X) as R2.
  destruct playerLadder as [|pl0 plr].
  - intros Y. injection Y as <- <-. apply (still_ready_trans e e1 e2 R1 R2).
  - pose proof (heuristic_ready (lastWord (pl0 :: plr)) targetWord e2 (proj1 R2)) as R3.
    destruct (heuristic (lastWord (pl0 :: plr)) targetWord e2) as [pd e3].
    cbn [snd] in R3. intros Y. injection Y as <- <-.
    apply (still_ready_trans e e1 e3 R1), (still_ready_trans e1 e2 e3 R2 R3).
Qed.

Section Loops.
Variable rec : word -> num -> num -> engine -> option verdict.
Hypothesis rec_ready :
  forall n a b e v, search_ready e -> rec n a b e = Some v -> still_ready e (snd v).

Lemma maxLoop_ready nbrs alpha beta maxScore bestMove e v :
  search_ready e -> maxLoop rec nbrs alpha beta maxScore bestMove e = Some v ->
  still_ready e (snd v).
Proof.
  revert alpha maxScore bestMove e; induction nbrs as [|n r IH];
    intros alpha maxScore bestMove e R; cbn [maxLoop].
  - intros X. injection X as <-. apply still_ready_refl, R.
  - destruct (rec n alpha beta e) as [[[score mv] e1]|] eqn:C; [|discriminate].
    pose proof (rec_ready n alpha beta e _ R C) as R1. cbn [snd] in R1.
    destruct (num_leb beta (num_max alpha score)).
    + intros X. injection X as <-. exact R1.
    + intros X. apply (still_ready_trans e e1 _ R1). apply (IH _ _ _ _ (proj1 R1) X).
Qed.

Lemma minLoop_ready nbrs alpha beta minScore bestMove e v :
  search_ready e -> minLoop rec nbrs alpha beta minScore bestMove e = Some v ->
  still_ready e (snd v).
Proof.
  revert beta minScore bestMove e; induction nbrs as [|n r IH];
    intros beta minScore bestMove e R; cbn [minLoop].
  - intros X. injection X as <-. apply still_ready_refl, R.
  - destruct (rec n alpha beta e) as [[[score mv] e1]|] eqn:C; [|discriminate].
    pose proof (rec_ready n alpha beta e _ R C) as R1. cbn [snd] in R1.
    destruct (num_leb (num_min beta score) alpha).
    + intros X. injection X as <-. exact R1.
    + intros X. apply (still_ready_trans e e1 _ R1). apply (IH _ _ _ _ (proj1 R1) X).
Qed.

End Loops.

Lemma minimax_ready fuel depth :
  forall currentWord targetWord alpha beta isMaximizing playerLadder e v,
    search_ready e ->
    minimax fuel depth currentWord targetWord alpha beta isMaximizing playerLadder e
    = Some v ->
    still_ready e (snd v).
Proof.
  assert (Ev : forall currentWord targetWord playerLadder e v,
             search_ready e ->
             option_map (fun r => (fst r, @None word, snd r))
               (evaluatePosition fuel currentWord targetWord playerLadder e) = Some v ->
             still_ready e (snd v)).
  { intros c t pl e v R.
    destruct (evaluatePosition fuel c t pl e) as [[s e']|] eqn:X; [|discriminate].
    cbn [option_map fst snd]. intros Y. injection Y as <-. cbn [snd].
    apply (evaluatePosition_ready fuel c t pl e s e' R X). }
  induction depth as [|depth IH];
    intros currentWord targetWord alpha beta isMaximizing playerLadder e v R;
    cbn [minimax].
  - apply Ev, R.
  - destruct (eqb currentWord targetWord); [apply Ev, R|].
    destruct (neighbors (wordGraph e) currentWord) as [|n0 r0].
    + intros X. injection X as <-. apply still_ready_refl, R.
    + destruct isMaximizing.
      * apply maxLoop_ready; [|exact R].
        intros n a b e0 v0 R0 X0. apply (IH _ _ _ _ _ _ _ _ R0 X0).
      * apply minLoop_ready; [|exact R].
        intros n a b e0 v0 R0 X0. apply (IH _ _ _ _ _ _ _ _ R0 X0).
Qed.

Lemma selectExpertMove_ready fuel currentWord targetWord playerLadder e m e' :
  search_ready e ->
  selectExpertMove fuel currentWord targetWord playerLadder e = Some (m, e') ->
  still_ready e e'.
Proof.
  intros R. unfold selectExpertMove, expertRoot.
  destruct (minimax fuel 4 currentWord targetWord NInf PInf true playerLadder e)
    as [v|] eqn:X; [|discriminate].
  cbn [option_map]. intros Y. injection Y as <- <-.
  apply (minimax_ready fuel 4 _ _ _ _ _ _ e v R X).
Qed.

(** ** [findPathBidirectional] on two neighbours *)

(** A forward scan that comes upon [end_] stops there, and [end_] has no
    forward parent yet. *)
Lemma scanNeighbors_meets_end nbrs (end_ current : word) level f :
  In end_ nbrs -> JsMap.get end_ (parent f) = None ->
  exists f', scanNeighbors nbrs [(end_, 0)] current level f = Meet end_ f' /\
             JsMap.get end_ (parent f') = None.
Proof.
  revert f; induction nbrs as [|n r IH]; intros f I P; [destruct I|].
  cbn [scanNeighbors]. unfold JsMap.has at 1. cbn [JsMap.get].
  destruct (eqb_spec n end_) as [E|N].
  - subst n. exists f. split; [reflexivity | exact P].
  - assert (Ir : In end_ r) by (destruct I as [I|I]; [congruence | exact I]).
    destruct (negb (JsMap.has n (visited f))).
    + apply IH; [exact Ir|]. cbn [parent].
      rewrite map_get_set_neq; [exact P | congruence].
    + apply IH; [exact Ir | exact P].
Qed.

(** X17. For two different words of equal length that are neighbours in
    the graph, [findPathBidirectional] does not return: the forward scan
    meets [end] at once, [end] has no forward parent, and the first loop
    of [reconstructBidirectionalPath] walks on from [undefined] without
    ever reaching [start].  No amount of fuel gives a result. *)
Theorem findPathBidirectional_loops_on_neighbours fuel (start end_ : word) e :
  length start = length end_ -> start <> end_ ->
  In end_ (getNeighbors e start) ->
  findPathBidirectional fuel start end_ e = None.
Proof.
  intros L N I. unfold findPathBidirectional.
  apply Nat.eqb_eq in L. rewrite L. cbn [negb].
  destruct (eqb_spec start end_) as [E|_]; [contradiction|].
  destruct fuel as [|fuel]; [reflexivity|].
  cbn [bidirectional queue visited parent length expand].
  destruct (scanNeighbors_meets_end (neighbors (wordGraph e) start) end_ start 1
              (mkFrontier [] [(start, 0)] []) I Logic.eq_refl) as (f' & -> & P).
  unfold reconstructBidirectionalPath.
  destruct fuel as [|fuel]; [reflexivity|].
  cbn [forwardChain opt_word_eqb get_opt].
  destruct (eqb_spec end_ start) as [E|_]; [symmetry in E; contradiction|].
  cbn [negb]. rewrite P, forwardChain_undefined. reflexivity.
Qed.

Lemma findPathBidirectional_loops_on_neighbours_witness :
  findPathBidirectional 1000 (str "cat") (str "cot") scenario1 = None.
Proof.
  apply (findPathBidirectional_loops_on_neighbours 1000 (str "cat") (str "cot") scenario1).
  - reflexivity.
  - discriminate.
  - vm_compute. left. reflexivity.
Defined.

(** ** The move strategies *)

(** *** Random indices *)

Lemma frac_bounds q : (0 <= frac q)%Qc /\ (frac q < 1)%Qc.
Proof.
  unfold frac, Qcle, Qclt, Qcminus, Qcplus, Qcopp. cbn [this Q2Qc].
  rewrite !Qred_correct.
  pose proof (Qfloor_le q) as L. pose proof (Qlt_floor q) as U.
  rewrite inject_Z_plus in U. change (inject_Z 1) with 1%Q in U.
  split; lra.
Qed.

Lemma floorMul_lt r n :
  (0 <= r)%Qc -> (r < 1)%Qc -> 0 < n -> floorMul r n < n.
Proof.
  intros L U N. unfold floorMul.
  assert (P : (0 < inject_Z (Z.of_nat n))%Q).
  { change 0%Q with (inject_Z 0). rewrite <- Zlt_Qlt. lia. }
  assert (X : (0 <= (r * qc_of_nat n)%Qc)%Q /\
              ((r * qc_of_nat n)%Qc < inject_Z (Z.of_nat n))%Q).
  { unfold Qcle, Qclt in *. unfold Qcmult, qc_of_nat. cbn [this Q2Qc].
    rewrite !Qred_correct.
    change (0 <= this r)%Q in L. change (this r < 1)%Q in U.
    generalize dependent (this r). intros x L U.
    generalize dependent (inject_Z (Z.of_nat n)). intros y P.
    split; nra. }
  destruct X as [X0 X1].
  assert (B : (Qfloor (r * qc_of_nat n)%Qc < Z.of_nat n)%Z).
  { rewrite Zlt_Qlt. eapply Qle_lt_trans; [apply Qfloor_le | exact X1]. }
  assert (B0 : (0 <= Qfloor (r * qc_of_nat n)%Qc)%Z).
  { apply (Qfloor_resp_le 0) in X0. exact X0. }
  lia.
Qed.

Lemma random_bounds t : (0 <= fst (random t))%Qc /\ (fst (random t) < 1)%Qc.
Proof.
  destruct t as [|q t']; cbn [random fst].
  - split; [apply Qcle_refl | reflexivity].
  - apply frac_bounds.
Qed.

(** [Math.floor(Math.random() * n)] is an index below [n]. *)
Lemma randomIndex_lt n t : 0 < n -> fst (randomIndex n t) < n.
Proof.
  intros N. unfold randomIndex. pose proof (random_bounds t) as [L U].
  destruct (random t) as [r t']. cbn [fst] in *. now apply floorMul_lt.
Qed.

Lemma randomIndex_pick {A} (l : list A) t :
  l <> [] ->
  exists x, nth_error l (fst (randomIndex (length l) t)) = Some x /\ In x l.
Proof.
  intros N. assert (P : 0 < length l) by (destruct l; [contradiction | cbn; lia]).
  pose proof (randomIndex_lt (length l) t P) as B.
  destruct (nth_error l (fst (randomIndex (length l) t))) as [x|] eqn:E.
  - exists x. split; [reflexivity|]. apply (nth_error_In _ _ E).
  - apply nth_error_None in E. lia.
Qed.

(** *** [selectEasyMove] *)

Lemma filterCloser_spec slack current target l e :
  (forall w, In w (fst (filterCloser slack current target l e)) -> In w l) /\
  same_but_heuristics e (snd (filterCloser slack current target l e)) /\
  (hcache_ok e -> hcache_ok (snd (filterCloser slack current target l e))).
Proof.
  revert e; induction l as [|x r IH]; intros e; cbn [filterCloser].
  - split; [intros w []|]. split; [apply same_but_heuristics_refl | auto].
  - pose proof (heuristic_frame x target e) as F1.
    pose proof (heuristic_hcache_ok x target e) as H1.
    destruct (heuristic x target e) as [hw e1]. cbn [snd] in F1, H1.
    pose proof (heuristic_frame current target e1) as F2.
    pose proof (heuristic_hcache_ok current target e1) as H2.
    destruct (heuristic current target e1) as [hc e2]. cbn [snd] in F2, H2.
    destruct (IH e2) as (I3 & F3 & H3).
    destruct (filterCloser slack current target r e2) as [kept e3].
    cbn [fst snd] in *. split; [|split].
    + intros w Iw. destruct (num_leb hw (num_add hc slack)).
      * destruct Iw as [<-|Iw]; [left; reflexivity | right; apply I3, Iw].
      * right. apply I3, Iw.
    + apply (same_but_heuristics_trans e e1 e3 F1).
      apply (same_but_heuristics_trans e1 e2 e3 F2 F3).
    + intros H. apply H3, H2, H1, H.
Qed.

Lemma selectEasyMove_spec currentWord targetWord t e :
  let '(m, t', e') := selectEasyMove currentWord targetWord t e in
  same_but_heuristics e e' /\ (hcache_ok e -> hcache_ok e') /\
  match m with
  | None => getNeighbors e currentWord = [] /\ t' = t /\ e' = e
  | Some w => In w (getNeighbors e currentWord)
  end.
Proof.
  unfold selectEasyMove, getNeighbors.
  destruct (neighbors (wordGraph e) currentWord) as [|n0 r0] eqn:En.
  { split; [apply same_but_heuristics_refl|]. split; [intros H; exact H|].
    split; [reflexivity|]. split; reflexivity. }
  cbv beta iota. remember (n0 :: r0) as nbrs eqn:Eb.
  assert (Nn : nbrs <> []) by (rewrite Eb; discriminate).
  destruct (random t) as [r t1].
  destruct (qc_ltb r (Q2Qc (3 # 10))).
  - destruct (randomIndex_pick nbrs t1 Nn) as (x & Ex & Ix).
    destruct (randomIndex (length nbrs) t1) as [i t2]. cbn [fst] in Ex.
    rewrite Ex. split; [apply same_but_heuristics_refl|].
    split; [intros H; exact H | exact Ix].
  - destruct (filterCloser_spec (Fin 0%Qc) currentWord targetWord nbrs e)
      as (Iv & Fv & Hv).
    destruct (filterCloser (Fin 0%Qc) currentWord targetWord nbrs e)
      as [validMoves e1]. cbn [fst snd] in Iv, Fv, Hv.
    destruct (Nat.ltb_spec 0 (length validMoves)) as [P|P].
    + assert (Nv : validMoves <> []) by (intros ->; cbn in P; lia).
      destruct (randomIndex_pick validMoves t1 Nv) as (x & Ex & Ix).
      destruct (randomIndex (length validMoves) t1) as [i t2]. cbn [fst] in Ex.
      rewrite Ex. split; [exact Fv|]. split; [exact Hv | apply Iv, Ix].
    + destruct (randomIndex_pick nbrs t1 Nn) as (x & Ex & Ix).
      destruct (randomIndex (length nbrs) t1) as [i t2]. cbn [fst] in Ex.
      rewrite Ex. split; [exact Fv|]. split; [exact Hv | exact Ix].
Qed.

(** X18. [selectEasyMove] returns [null] exactly when the current word
    has no neighbours, and then draws no random number and leaves the
    engine alone; otherwise it returns one of the neighbours of the
    current word, whatever the random draws are.  It changes nothing but
    the heuristic cache. *)
Theorem selectEasyMove_picks_neighbor currentWord targetWord t e :
  let '(m, t', e') := selectEasyMove currentWord targetWord t e in
  same_but_heuristics e e' /\
  match m with
  | None => getNeighbors e currentWord = [] /\ t' = t /\ e' = e
  | Some w => In w (getNeighbors e currentWord)
  end.
Proof.
  pose proof (selectEasyMove_spec currentWord targetWord t e) as S.
  destruct (selectEasyMove currentWord targetWord t e) as [[m t'] e'].
  destruct S as (F & _ & M). split; [exact F | exact M].
Qed.

(** *** [selectMediumMove] *)

Lemma bestLookahead_frame target nn best e :
  same_but_heuristics e (snd (bestLookahead target nn best e)) /\
  (hcache_ok e -> hcache_ok (snd (bestLookahead target nn best e))).
Proof.
  revert best e; induction nn as [|w r IH]; intros best e; cbn [bestLookahead].
  - split; [apply same_but_heuristics_refl | auto].
  - pose proof (heuristic_frame w target e) as F1.
    pose proof (heuristic_hcache_ok w target e) as H1.
    destruct (heuristic w target e) as [score e1]. cbn [snd] in F1, H1.
    destruct (IH (if num_ltb score best then score else best) e1) as [F2 H2].
    split; [apply (same_but_heuristics_trans e e1 _ F1 F2) | intros H; apply H2, H1, H].
Qed.

Lemma scoreMoves_spec target nbrs e :
  map fst (fst (scoreMoves target nbrs e)) = nbrs /\
  same_but_heuristics e (snd (scoreMoves target nbrs e)) /\
  (hcache_ok e -> hcache_ok (snd (scoreMoves target nbrs e))).
Proof.
  revert e; induction nbrs as [|n r IH]; intros e; cbn [scoreMoves].
  - split; [reflexivity|]. split; [apply same_but_heuristics_refl | auto].
  - pose proof (heuristic_frame n target e) as F1.
    pose proof (heuristic_hcache_ok n target e) as H1.
    destruct (heuristic n target e) as [baseScore e1]. cbn [snd] in F1, H1.
    destruct (bestLookahead_frame target (neighbors (wordGraph e1) n) PInf e1) as [F2 H2].
    destruct (bestLookahead target (neighbors (wordGraph e1) n) PInf e1) as [look e2].
    cbn [snd] in F2, H2.
    destruct (IH e2) as (M3 & F3 & H3).
    destruct (scoreMoves target r e2) as [scored e3]. cbn [fst snd] in *.
    split; [cbn [map fst]; now rewrite M3|]. split.
    + apply (same_but_heuristics_trans e e1 e3 F1).
      apply (same_but_heuristics_trans e1 e2 e3 F2 F3).
    + intros H. apply H3, H2, H1, H.
Qed.

Lemma insertMove_In x y l : In x (insertMove y l) <-> x = y \/ In x l.
Proof.
  induction l as [|z r IH]; cbn [insertMove].
  - cbn. split; intros [E|[]]; left; congruence.
  - destruct (num_gtb (num_sub (snd y) (snd z)) (Fin 0%Qc)).
    + cbn [In]. rewrite IH. split; intros X; intuition congruence.
    + cbn [In]. split; intros X; intuition congruence.
Qed.

Lemma sortMoves_In x l : In x (sortMoves l) <-> In x l.
Proof.
  unfold sortMoves. induction l as [|y r IH]; cbn [fold_right]; [reflexivity|].
  rewrite insertMove_In, IH. cbn [In]. split; intros X; intuition congruence.
Qed.

Lemma In_firstn {A} (l : list A) n x : In x (firstn n l) -> In x l.
Proof.
  intros I. rewrite <- (firstn_skipn n l). apply in_or_app. left. exact I.
Qed.

Lemma selectMediumMove_spec currentWord targetWord t e :
  let '(m, t', e') := selectMediumMove currentWord targetWord t e in
  same_but_heuristics e e' /\ (hcache_ok e -> hcache_ok e') /\
  match m with
  | None => getNeighbors e currentWord = [] /\ t' = t /\ e' = e
  | Some w => In w (getNeighbors e currentWord)
  end.
Proof.
  unfold selectMediumMove, getNeighbors.
  destruct (neighbors (wordGraph e) currentWord) as [|n0 r0] eqn:En.
  { split; [apply same_but_heuristics_refl|]. split; [intros H; exact H|].
    split; [reflexivity|]. split; reflexivity. }
  cbv beta iota. remember (n0 :: r0) as nbrs eqn:Eb.
  destruct (scoreMoves_spec targetWord nbrs e) as (Ms & Fs & Hs).
  destruct (scoreMoves targetWord nbrs e) as [scored e1]. cbn [fst snd] in Ms, Fs, Hs.
  assert (Is : forall x, In x (sortMoves scored) -> In (fst x) nbrs).
  { intros x Ix. apply (proj1 (sortMoves_In x scored)) in Ix. rewrite <- Ms.
    exact (in_map fst scored x Ix). }
  assert (Ns : sortMoves scored <> []).
  { destruct scored as [|s0 sr]; [rewrite Eb in Ms; discriminate Ms|].
    intros E. assert (X : In s0 (sortMoves (s0 :: sr)))
      by (apply sortMoves_In; left; reflexivity).
    rewrite E in X. destruct X. }
  destruct (random t) as [r t1].
  destruct (qc_ltb r (Q2Qc (7 # 10))).
  - split; [exact Fs|]. split; [exact Hs|].
    destruct (sortMoves scored) as [|x0 xr] eqn:Es; [contradiction|].
    cbn [nth_error option_map]. apply Is. left. reflexivity.
  - set (topMoves := firstn (Nat.min 3 (length (sortMoves scored))) (sortMoves scored)).
    assert (Nt : topMoves <> []).
    { unfold topMoves. destruct (sortMoves scored) as [|x0 xr]; [contradiction|].
      cbn [length]. discriminate. }
    destruct (randomIndex_pick topMoves t1 Nt) as (x & Ex & Ix).
    destruct (randomIndex (length topMoves) t1) as [i t2]. cbn [fst] in Ex.
    rewrite Ex. cbn [option_map]. split; [exact Fs|]. split; [exact Hs|].
    apply Is. apply (In_firstn _ _ _ Ix).
Qed.

(** X19. [selectMediumMove] returns [null] exactly when the current word
    has no neighbours (no random draw, engine untouched); otherwise it
    returns one of the neighbours of the current word, for every outcome
    of the random draws.  It changes nothing but the heuristic cache. *)
Theorem selectMediumMove_picks_neighbor currentWord targetWord t e :
  let '(m, t', e') := selectMediumMove currentWord targetWord t e in
  same_but_heuristics e e' /\
  match m with
  | None => getNeighbors e currentWord = [] /\ t' = t /\ e' = e
  | Some w => In w (getNeighbors e currentWord)
  end.
Proof.
  pose proof (selectMediumMove_spec currentWord targetWord t e) as S.
  destruct (selectMediumMove currentWord targetWord t e) as [[m t'] e'].
  destruct S as (F & _ & M). split; [exact F | exact M].
Qed.

(** *** [selectExpertMove] *)

Lemma maxLoop_move rec nbrs alpha beta maxScore bestMove e v :
  maxLoop rec nbrs alpha beta maxScore bestMove e = Some v ->
  snd (fst v) = bestMove \/ exists n, snd (fst v) = Some n /\ In n nbrs.
Proof.
  revert alpha maxScore bestMove e; induction nbrs as [|n r IH];
    intros alpha maxScore bestMove e; cbn [maxLoop].
  - intros X. injection X as <-. left. reflexivity.
  - destruct (rec n alpha beta e) as [[[score mv] e1]|]; [|discriminate].
    destruct (num_leb beta (num_max alpha score)).
    + intros X. injection X as <-. cbn [fst snd].
      destruct (num_gtb score maxScore); [right | left; reflexivity].
      exists n. split; [reflexivity | left; reflexivity].
    + intros X. apply IH in X. destruct X as [X|(m & X & I)].
      * destruct (num_gtb score maxScore); [right | left; exact X].
        exists n. split; [exact X | left; reflexivity].
      * right. exists m. split; [exact X | right; exact I].
Qed.

Lemma minLoop_move rec nbrs alpha beta minScore bestMove e v :
  minLoop rec nbrs alpha beta minScore bestMove e = Some v ->
  snd (fst v) = bestMove \/ exists n, snd (fst v) = Some n /\ In n nbrs.
Proof.
  revert beta minScore bestMove e; induction nbrs as [|n r IH];
    intros beta minScore bestMove e; cbn [minLoop].
  - intros X. injection X as <-. left. reflexivity.
  - destruct (rec n alpha beta e) as [[[score mv] e1]|]; [|discriminate].
    destruct (num_leb (num_min beta score) alpha).
    + intros X. injection X as <-. cbn [fst snd].
      destruct (num_ltb score minScore); [right | left; reflexivity].
      exists n. split; [reflexivity | left; reflexivity].
    + intros X. apply IH in X. destruct X as [X|(m & X & I)].
      * destruct (num_ltb score minScore); [right | left; exact X].
        exists n. split; [exact X | left; reflexivity].
      * right. exists m. split; [exact X | right; exact I].
Qed.

Lemma minimax_move fuel depth currentWord targetWord alpha beta isMaximizing
    playerLadder e v :
  minimax fuel depth currentWord targetWord alpha beta isMaximizing playerLadder e
  = Some v ->
  (forall w, snd (fst v) = Some w -> In w (neighbors (wordGraph e) currentWord)) /\
  (depth = 0 \/ currentWord = targetWord \/ neighbors (wordGraph e) currentWord = [] ->
   snd (fst v) = None).
Proof.
  assert (Ev : forall x : option (num * engine),
             option_map (fun r => (fst r, @None word, snd r)) x = Some v ->
             snd (fst v) = None).
  { intros [x|]; cbn [option_map]; [|discriminate]. intros X. now injection X as <-. }
  destruct depth as [|depth]; cbn [minimax].
  { intros X. apply Ev in X. rewrite X. split; [discriminate | reflexivity]. }
  destruct (eqb_spec currentWord targetWord) as [E|N].
  { intros X. apply Ev in X. rewrite X. split; [discriminate | reflexivity]. }
  destruct (neighbors (wordGraph e) currentWord) as [|n0 r0] eqn:En.
  { intros X. injection X as <-. cbn [fst snd]. split; [discriminate | reflexivity]. }
  intros X.
  assert (M : snd (fst v) = None \/ exists n, snd (fst v) = Some n /\ In n (n0 :: r0)).
  { destruct isMaximizing; [apply maxLoop_move in X | apply minLoop_move in X]; exact X. }
  split.
  - intros w Ew. destruct M as [M|(n & M & I)]; [congruence|].
    rewrite Ew in M. injection M as ->. exact I.
  - intros [D|[D|D]]; [discriminate D | contradiction | discriminate D].
Qed.

(** X20. A move that [selectExpertMove] returns is a neighbour of the
    current word; it returns [null] when the current word is the target
    and when the current word has no neighbours. *)
Theorem selectExpertMove_picks_neighbor fuel currentWord targetWord playerLadder e m e' :
  selectExpertMove fuel currentWord targetWord playerLadder e = Some (m, e') ->
  (forall w, m = Some w -> In w (getNeighbors e currentWord)) /\
  (currentWord = targetWord \/ getNeighbors e currentWord = [] -> m = None).
Proof.
  unfold selectExpertMove, expertRoot, getNeighbors.
  destruct (minimax fuel 4 currentWord targetWord NInf PInf true playerLadder e)
    as [v|] eqn:X; [|discriminate].
  cbn [option_map]. intros Y. injection Y as <- <-.
  destruct (minimax_move fuel 4 currentWord targetWord NInf PInf true playerLadder e v X)
    as [A B].
  split; [exact A|]. intros D. apply B. right. exact D.
Qed.

Lemma selectExpertMove_picks_neighbor_witness :
  exists m e',
    selectExpertMove 37 (str "cat") (str "dog") [] scenario1 = Some (m, e') /\
    (forall w, m = Some w -> In w (getNeighbors scenario1 (str "cat"))) /\
    (str "cat" = str "dog" \/ getNeighbors scenario1 (str "cat") = [] -> m = None).
Proof.
  destruct (selectExpertMove 37 (str "cat") (str "dog") [] scenario1)
    as [[m e']|] eqn:X.
  - exists m, e'. split; [reflexivity|].
    apply (selectExpertMove_picks_neighbor 37 (str "cat") (str "dog") [] scenario1 m e' X).
  - exfalso. vm_compute in X. discriminate X.
Defined.

(** *** [findBlockingMove] *)

(** X21. [findBlockingMove] answers with the player's path from
    [findPath]: a move it returns is a neighbour of the AI's word that
    lies strictly inside that path (neither its first nor its last
    word), the path having at least three words; it returns [null] when
    there is no path, when the path is shorter, and when no neighbour of
    the AI's word lies inside it. *)
Theorem findBlockingMove_blocks fuel aiWord playerWord targetWord e m e1 :
  findBlockingMove fuel aiWord playerWord targetWord e = Some (m, e1) ->
  exists r, findPath fuel playerWord targetWord true e = Some (r, e1) /\
    match m with
    | Some b =>
        In b (getNeighbors e aiWord) /\
        exists p, r = Some p /\ 3 <= length p /\
                  In b (firstn (length p - 2) (skipn 1 p))
    | None =>
        forall p, r = Some p -> 3 <= length p ->
          forall n, In n (getNeighbors e aiWord) ->
                    ~ In n (firstn (length p - 2) (skipn 1 p))
    end.
Proof.
  unfold findBlockingMove, getNeighbors.
  destruct (findPath fuel playerWord targetWord true e) as [[[p|] e0]|];
    [| |discriminate].
  - destruct (Nat.ltb_spec (length p) 3) as [S|S].
    + intros X. injection X as <- <-. exists (Some p). split; [reflexivity|].
      intros q Eq. injection Eq as <-. lia.
    + set (inside := firstn (length p - 2) (skipn 1 p)).
      destruct (filter (fun move => JsSet.has move (JsSet.of_list inside))
                       (neighbors (wordGraph e) aiWord)) as [|b0 br] eqn:Ef.
      * intros X. injection X as <- <-. exists (Some p). split; [reflexivity|].
        intros q Eq _ n In_ Ii. injection Eq as <-. fold inside in Ii.
        assert (Y : In n (filter (fun move => JsSet.has move (JsSet.of_list inside))
                                 (neighbors (wordGraph e) aiWord))).
        { apply filter_In. split; [exact In_|].
          apply set_has_In, set_In_of_list. exact Ii. }
        rewrite Ef in Y. destruct Y.
      * intros X. injection X as <- <-. exists (Some p). split; [reflexivity|].
        assert (Y : In b0 (filter (fun move => JsSet.has move (JsSet.of_list inside))
                                  (neighbors (wordGraph e) aiWord)))
          by (rewrite Ef; left; reflexivity).
        apply filter_In in Y. destruct Y as [Y1 Y2].
        split; [exact Y1|]. exists p. split; [reflexivity|]. split; [exact S|].
        apply (proj1 (set_has_In _ _)) in Y2.
        apply (proj1 (set_In_of_list _ _)) in Y2. exact Y2.
  - intros X. injection X as <- <-. exists None. split; [reflexivity|].
    intros p Ep. discriminate Ep.
Qed.

Lemma findBlockingMove_blocks_witness :
  exists m e1 r,
    findBlockingMove 37 (str "dog") (str "cat") (str "dog") scenario1 = Some (m, e1) /\
    findPath 37 (str "cat") (str "dog") true scenario1 = Some (r, e1).
Proof.
  destruct (findBlockingMove 37 (str "dog") (str "cat") (str "dog") scenario1)
    as [[m e1]|] eqn:X.
  - destruct (findBlockingMove_blocks 37 (str "dog") (str "cat") (str "dog")
                scenario1 m e1 X) as (r & R & _).
    exists m, e1, r. split; [reflexivity | exact R].
  - exfalso. vm_compute in X. discriminate X.
Defined.

(** *** [selectHardMove] *)

Lemma findBlockingMove_frame fuel aiWord playerWord targetWord e m e1 :
  search_ready e ->
  findBlockingMove fuel aiWord playerWord targetWord e = Some (m, e1) ->
  still_ready e e1 /\
  forall w, m = Some w -> In w (neighbors (wordGraph e) aiWord).
Proof.
  intros R. unfold findBlockingMove.
  destruct (findPath fuel playerWord targetWord true e) as [[r e0]|] eqn:X;
    [|discriminate].
  pose proof (findPath_ready fuel playerWord targetWord true e r e0 R X) as G.
  destruct r as [p|].
  - destruct (length p <? 3).
    + intros Y. injection Y as <- <-. split; [exact G | discriminate].
    + match goal with
      | |- context [nth_error ?l 0] => destruct l as [|b0 br] eqn:Ef
      end.
      * intros Y. injection Y as <- <-. split; [exact G | discriminate].
      * intros Y. injection Y as <- <-. split; [exact G|].
        intros w Ew. injection Ew as <-.
        match type of Ef with
        | ?l = _ => assert (Z : In b0 l) by (rewrite Ef; left; reflexivity)
        end.
        apply filter_In in Z. tauto.
  - intros Y. injection Y as <- <-. split; [exact G | discriminate].
Qed.

Lemma selectHardMove_spec fuel currentWord targetWord playerLadder t e m t' e' :
  search_ready e ->
  selectHardMove fuel currentWord targetWord playerLadder t e = Some (m, t', e') ->
  (forall w, m = Some w -> In w (neighbors (wordGraph e) currentWord)) /\
  (neighbors (wordGraph e) currentWord = [] -> m = None) /\
  still_ready e e'.
Proof.
  intros R. unfold selectHardMove.
  destruct (findPath fuel currentWord targetWord true e) as [[r e1]|] eqn:X;
    [|discriminate].
  pose proof (findPath_ready fuel currentWord targetWord true e r e1 R X) as R1.
  pose proof (proj1 (proj2 (proj2 R1))) as G1.
  assert (Med : forall t0 m0 t1 e2,
             selectMediumMove currentWord targetWord t0 e1 = (m0, t1, e2) ->
             (forall w, m0 = Some w -> In w (neighbors (wordGraph e) currentWord)) /\
             (neighbors (wordGraph e) currentWord = [] -> m0 = None) /\
             still_ready e e2).
  { intros t0 m0 t1 e2 Y.
    pose proof (selectMediumMove_spec currentWord targetWord t0 e1) as S.
    rewrite Y in S. unfold getNeighbors in S. rewrite G1 in S.
    destruct S as (F & H & S).
    assert (R2 : still_ready e e2).
    { apply (still_ready_trans e e1 e2 R1).
      apply (same_but_heuristics_ready e1 e2 (proj1 R1) F).
      apply H, (sr_heuristics e1 (proj1 R1)). }
    destruct m0 as [w0|].
    - split; [intros w Ew; injection Ew as <-; exact S|].
      split; [|exact R2]. intros E. rewrite E in S. destruct S.
    - split; [discriminate|]. split; [reflexivity | exact R2]. }
  assert (Fallback :
    (let '(m0, t1, e2) := selectMediumMove currentWord targetWord t e1 in
     Some (m0, t1, e2)) = Some (m, t', e') ->
    (forall w, m = Some w -> In w (neighbors (wordGraph e) currentWord)) /\
    (neighbors (wordGraph e) currentWord = [] -> m = None) /\
    still_ready e e').
  { destruct (selectMediumMove currentWord targetWord t e1) as [[m0 t1] e2] eqn:Y.
    intros Z. injection Z as <- <- <-. apply (Med t m0 t1 e2 Y). }
  destruct r as [[|first [|nextMove rest]]|]; try exact Fallback.
  clear Fallback Med.
  destruct (findPath_sound fuel currentWord targetWord true e _ e1 R X)
    as [(Hh & _ & _ & Li) _].
  cbn in Hh. injection Hh as ->.
  destruct Li as [Inx _].
  assert (Tail : forall t1 e2 m t' e',
    still_ready e e2 ->
    (let (r, t2) := random t1 in
     if qc_ltb r (Q2Qc (2 # 10)) then
       let others := filter (fun w => negb (eqb w nextMove))
                            (neighbors (wordGraph e2) currentWord) in
       let (alternatives, e3) :=
         filterCloser (Fin 1%Qc) currentWord targetWord others e2 in
       if 0 <? length alternatives then
         let (i, t3) := randomIndex (length alternatives) t2 in
         Some (nth_error alternatives i, t3, e3)
       else Some (Some nextMove, t2, e3)
     else Some (Some nextMove, t2, e2)) = Some (m, t', e') ->
    (forall w, m = Some w -> In w (neighbors (wordGraph e) currentWord)) /\
    (neighbors (wordGraph e) currentWord = [] -> m = None) /\
    still_ready e e').
  { clear m t' e'. intros t1 e2 m t' e' R2.
    pose proof (proj1 (proj2 (proj2 R2))) as G2.
    assert (Nx : forall (m0 : option word) e0, m0 = Some nextMove -> still_ready e e0 ->
              (forall w, m0 = Some w -> In w (neighbors (wordGraph e) currentWord)) /\
              (neighbors (wordGraph e) currentWord = [] -> m0 = None) /\
              still_ready e e0).
    { intros m0 e0 -> R0. split; [intros w Ew; injection Ew as <-; exact Inx|].
      split; [|exact R0]. intros E. rewrite E in Inx. destruct Inx. }
    destruct (random t1) as [r t2].
    destruct (qc_ltb r (Q2Qc (2 # 10))).
    - cbv zeta. rewrite G2.
      destruct (filterCloser_spec (Fin 1%Qc) currentWord targetWord
                  (filter (fun w => negb (eqb w nextMove))
                          (neighbors (wordGraph e) currentWord)) e2) as (Ia & Fa & Ha).
      destruct (filterCloser (Fin 1%Qc) currentWord targetWord
                  (filter (fun w => negb (eqb w nextMove))
                          (neighbors (wordGraph e) currentWord)) e2)
        as [alternatives e3]. cbn [fst snd] in Ia, Fa, Ha.
      assert (R3 : still_ready e e3).
      { apply (still_ready_trans e e2 e3 R2).
        apply (same_but_heuristics_ready e2 e3 (proj1 R2) Fa).
        apply Ha, (sr_heuristics e2 (proj1 R2)). }
      destruct (0 <? length alternatives).
      + destruct (randomIndex (length alternatives) t2) as [i t3].
        intros Y. injection Y as <- <- <-. split; [|split; [|exact R3]].
        * intros w Ew. apply nth_error_In, Ia, filter_In in Ew. tauto.
        * intros E. rewrite E in Inx. destruct Inx.
      + intros Y. injection Y as <- <- <-. apply Nx; [reflexivity | exact R3].
    - intros Y. injection Y as <- <- <-. apply Nx; [reflexivity | exact R2]. }
  destruct playerLadder as [|pl0 plr].
  { apply (Tail t e1 m t' e' R1). }
  destruct (truthy (lastWord (pl0 :: plr))); [|apply (Tail t e1 m t' e' R1)].
  destruct (random t) as [r0 t1].
  destruct (qc_ltb r0 (Q2Qc (3 # 10))); [|apply (Tail t1 e1 m t' e' R1)].
  destruct (findBlockingMove fuel currentWord (lastWord (pl0 :: plr)) targetWord e1)
    as [[b e2]|] eqn:B; [|discriminate].
  destruct (findBlockingMove_frame fuel currentWord (lastWord (pl0 :: plr)) targetWord
              e1 b e2 (proj1 R1) B) as [R2' Ib].
  pose proof (still_ready_trans e e1 e2 R1 R2') as R2.
  rewrite G1 in Ib.
  destruct b as [b|]; [|apply (Tail t1 e2 m t' e' R2)].
  destruct (truthy b); [|apply (Tail t1 e2 m t' e' R2)].
  intros Y. injection Y as <- <- <-.
  split; [intros w Ew; apply Ib, Ew|]. split; [|exact R2].
  intros E. specialize (Ib b Logic.eq_refl). rewrite E in Ib. destruct Ib.
Qed.

(** X22. From an engine that is ready for the searches,
    [selectHardMove] returns [null] or a neighbour of the current word,
    whichever of its branches is taken (the fallback to
    [selectMediumMove], a blocking move, a random alternative, or the
    second word of the path of [findPath]); and it returns [null] when
    the current word has no neighbours. *)
Theorem selectHardMove_picks_neighbor fuel currentWord targetWord playerLadder t e
    m t' e' :
  search_ready e ->
  selectHardMove fuel currentWord targetWord playerLadder t e = Some (m, t', e') ->
  (forall w, m = Some w -> In w (getNeighbors e currentWord)) /\
  (getNeighbors e currentWord = [] -> m = None).
Proof.
  intros R X. unfold getNeighbors.
  destruct (selectHardMove_spec fuel currentWord targetWord playerLadder t e m t' e' R X)
    as (A & B & _).
  split; [exact A | exact B].
Qed.

Lemma selectHardMove_picks_neighbor_witness :
  exists m t' e',
    selectHardMove 37 (str "cat") (str "dog") [str "cat"; str "cot"] [] scenario1
    = Some (m, t', e') /\
    (forall w, m = Some w -> In w (getNeighbors scenario1 (str "cat"))) /\
    (getNeighbors scenario1 (str "cat") = [] -> m = None).
Proof.
  destruct (selectHardMove 37 (str "cat") (str "dog") [str "cat"; str "cot"] []
              scenario1) as [[[m t'] e']|] eqn:X.
  - exists m, t', e'. split; [reflexivity|].
    apply (selectHardMove_picks_neighbor 37 (str "cat") (str "dog")
             [str "cat"; str "cot"] [] scenario1 m t' e').
    + apply search_ready_initialize.
    + exact X.
  - exfalso. vm_compute in X. discriminate X.
Defined.

(** ** Hints, position scores and difficulty *)

(** *** [getHint] *)

Lemma includes_In usedWords w : includes usedWords w = true <-> In w usedWords.
Proof.
  unfold includes. rewrite existsb_exists. split.
  - intros (u & I & E). apply eqb_eq in E. now subst u.
  - intros I. exists w. split; [exact I | apply eqb_refl].
Qed.

Lemma num_ltb_fin_trans a b c :
  is_fin a -> is_fin b -> is_fin c ->
  num_ltb a b = true -> num_ltb b c = true -> num_ltb a c = true.
Proof.
  destruct a as [x| | |], b as [y| | |], c as [z| | |]; cbn; try tauto.
  intros _ _ _. rewrite !qc_ltb_lt. apply Qclt_trans.
Qed.

Lemma num_ltb_fin_below a b c :
  is_fin a -> is_fin b -> is_fin c ->
  num_ltb a b = false -> num_ltb a c = true -> num_ltb b c = true.
Proof.
  destruct a as [x| | |], b as [y| | |], c as [z| | |]; cbn; try tauto.
  intros _ _ _ N L. apply qc_ltb_lt in L. apply qc_ltb_lt.
  apply (Qcle_lt_trans y x z); [|exact L].
  apply Qcnot_lt_le. intros X. apply qc_ltb_lt in X. congruence.
Qed.

Lemma num_ltb_irrefl a : num_ltb a a = false.
Proof.
  destruct a as [q| | |]; cbn [num_ltb]; try reflexivity.
  destruct (qc_ltb q q) eqn:E; [|reflexivity].
  apply qc_ltb_lt in E. exfalso. exact (Qclt_not_eq _ _ E Logic.eq_refl).
Qed.

Lemma hintLoop_spec target l :
  forall best bestScore e,
    hcache_ok e ->
    match best with
    | None => bestScore = PInf
    | Some b => bestScore = hview true target e b
    end ->
    same_but_heuristics e (snd (hintLoop target l best bestScore e)) /\
    match fst (hintLoop target l best bestScore e) with
    | None => best = None /\ l = []
    | Some w =>
        (best = Some w \/ In w l) /\
        forall n, best = Some n \/ In n l ->
                  num_ltb (hview true target e n) (hview true target e w) = false
    end.
Proof.
  induction l as [|x r IH]; intros best bestScore e H B; cbn [hintLoop fst snd].
  - split; [apply same_but_heuristics_refl|].
    destruct best as [b|]; [|split; reflexivity].
    split; [left; reflexivity|]. intros n [E|[]]. injection E as <-.
    apply num_ltb_irrefl.
  - destruct (estimate_view true target x e) as [Ev V].
    pose proof (heuristic_frame x target e) as F1.
    pose proof (heuristic_hcache_ok x target e H) as H1.
    change (estimate true x target e) with (heuristic x target e) in Ev, V.
    destruct (heuristic x target e) as [score e1]. cbn [snd] in Ev, V, F1, H1.
    assert (Es : score = hview true target e x) by congruence. clear Ev.
    pose proof (hview_fin true target e x H) as Fx.
    assert (Fin_ : forall y, is_fin (hview true target e y))
      by (intros y; apply hview_fin, H).
    destruct (num_ltb score bestScore) eqn:Lt.
    + destruct (IH (Some x) score e1 H1) as [F2 S2].
      { rewrite V. exact Es. }
      split; [apply (same_but_heuristics_trans e e1 _ F1 F2)|].
      destruct (fst (hintLoop target r (Some x) score e1)) as [w|]; [|destruct S2; discriminate].
      destruct S2 as [Iw Mn]. split.
      * right. destruct Iw as [Iw|Iw]; [injection Iw as <-; left; reflexivity | right; exact Iw].
      * intros n In_. rewrite <- !V.
        destruct In_ as [->|[<-|In_]].
        -- (* the previous best *)
           destruct (num_ltb (hview true target e1 n) (hview true target e1 w)) eqn:Q;
             [|reflexivity].
           rewrite !V in Q. rewrite B in Lt. rewrite Es in Lt.
           pose proof (num_ltb_fin_trans _ _ _ (Fin_ x) (Fin_ n) (Fin_ w) Lt Q) as Z.
           rewrite <- !V in Z. rewrite (Mn x (or_introl Logic.eq_refl)) in Z.
           discriminate Z.
        -- apply Mn. left. reflexivity.
        -- apply Mn. right. exact In_.
    + destruct (IH best bestScore e1 H1) as [F2 S2].
      { destruct best as [b|]; [rewrite V; exact B | exact B]. }
      split; [apply (same_but_heuristics_trans e e1 _ F1 F2)|].
      destruct best as [b|].
      2:{ exfalso. rewrite B, Es in Lt. rewrite (is_fin_ltb_PInf _ Fx) in Lt.
          discriminate Lt. }
      destruct (fst (hintLoop target r (Some b) bestScore e1)) as [w|];
        [|destruct S2; discriminate].
      destruct S2 as [Iw Mn]. split.
      * destruct Iw as [Iw|Iw]; [left; exact Iw | right; right; exact Iw].
      * intros n In_. rewrite <- !V.
        destruct In_ as [E|[<-|In_]].
        -- apply Mn. left. exact E.
        -- destruct (num_ltb (hview true target e1 x) (hview true target e1 w)) eqn:Q;
             [|reflexivity].
           rewrite !V in Q. rewrite B, Es in Lt.
           pose proof (num_ltb_fin_below _ _ _ (Fin_ x) (Fin_ b) (Fin_ w) Lt Q) as Z.
           rewrite <- !V in Z. rewrite (Mn b (or_introl Logic.eq_refl)) in Z.
           discriminate Z.
        -- apply Mn. right. exact In_.
Qed.

(** X23. In an engine with a sound heuristic cache, [getHint] returns
    [null] exactly when every neighbour of the current word is among the
    used words; otherwise it returns a neighbour that is not used and
    whose estimate to the target no unused neighbour undercuts.  It
    changes nothing but the heuristic cache. *)
Theorem getHint_best_unused_neighbor currentWord targetWord usedWords e :
  hcache_ok e ->
  let (m, e') := getHint currentWord targetWord usedWords e in
  same_but_heuristics e e' /\
  match m with
  | None => forall n, In n (getNeighbors e currentWord) -> In n usedWords
  | Some w =>
      In w (getNeighbors e currentWord) /\ ~ In w usedWords /\
      forall n, In n (getNeighbors e currentWord) -> ~ In n usedWords ->
        num_ltb (fst (heuristic n targetWord e)) (fst (heuristic w targetWord e)) = false
  end.
Proof.
  intros H. unfold getHint.
  set (unused := filter (fun w => negb (includes usedWords w))
                        (getNeighbors e currentWord)).
  assert (U : forall n, In n unused <-> In n (getNeighbors e currentWord) /\ ~ In n usedWords).
  { intros n. unfold unused. rewrite filter_In, negb_true_iff.
    pose proof (includes_In usedWords n) as Q.
    destruct (includes usedWords n); split; intros [A B]; split;
      try exact A; try reflexivity.
    - discriminate B.
    - exfalso. apply B, Q. reflexivity.
    - intros X. apply Q in X. discriminate X. }
  destruct (Nat.eqb_spec (length unused) 0) as [Z|Z].
  - split; [apply same_but_heuristics_refl|]. intros n In_.
    destruct (includes usedWords n) eqn:Q; [apply includes_In, Q|]. exfalso.
    assert (X : In n unused).
    { apply U. split; [exact In_|]. rewrite <- includes_In. congruence. }
    destruct unused; [destruct X | discriminate Z].
  - destruct (hintLoop_spec targetWord unused None PInf e H Logic.eq_refl) as [F S].
    destruct (hintLoop targetWord unused None PInf e) as [m e']. cbn [fst snd] in F, S.
    split; [exact F|]. destruct m as [w|].
    + destruct S as [[Iw|Iw] Mn]; [discriminate Iw|]. apply U in Iw.
      split; [tauto|]. split; [tauto|]. intros n In_ Nu.
      apply (Mn n). right. apply U. split; assumption.
    + destruct S as [_ S]. rewrite S in Z. contradiction Z. reflexivity.
Qed.

Lemma getHint_best_unused_neighbor_witness :
  let (m, e') := getHint (str "cot") (str "dog") [str "cat"; str "cot"] scenario1 in
  same_but_heuristics scenario1 e' /\
  match m with
  | None => forall n, In n (getNeighbors scenario1 (str "cot")) ->
                      In n [str "cat"; str "cot"]
  | Some w =>
      In w (getNeighbors scenario1 (str "cot")) /\ ~ In w [str "cat"; str "cot"] /\
      forall n, In n (getNeighbors scenario1 (str "cot")) ->
                ~ In n [str "cat"; str "cot"] ->
        num_ltb (fst (heuristic n (str "dog") scenario1))
                (fst (heuristic w (str "dog") scenario1)) = false
  end.
Proof.
  apply (getHint_best_unused_neighbor (str "cot") (str "dog") [str "cat"; str "cot"]
           scenario1).
  apply initialize_hcache_ok, new_engine_hcache_ok.
Defined.

(** *** Finite numbers *)

Lemma qc_of_nat_nonzero n : 0 < n -> qc_eqb (qc_of_nat n) 0 = false.
Proof.
  intros P. destruct (qc_eqb (qc_of_nat n) 0) eqn:E; [|reflexivity]. exfalso.
  apply qc_eqb_eq in E. unfold qc_of_nat in E.
  apply (f_equal this) in E. cbn [this Q2Qc] in E.
  assert (X : (inject_Z (Z.of_nat n) == 0)%Q).
  { rewrite <- (Qred_correct (inject_Z (Z.of_nat n))). rewrite E. reflexivity. }
  unfold Qeq in X. cbn in X. lia.
Qed.

Lemma is_fin_mul a b : is_fin a -> is_fin b -> is_fin (num_mul a b).
Proof. destruct a, b; cbn; tauto. Qed.

Lemma is_fin_sub a b : is_fin a -> is_fin b -> is_fin (num_sub a b).
Proof. destruct a, b; cbn; tauto. Qed.

Lemma is_fin_num_of_nat n : is_fin (num_of_nat n).
Proof. exact I. Qed.

Lemma is_fin_div_nat a n : is_fin a -> 0 < n -> is_fin (num_div a (num_of_nat n)).
Proof.
  intros F P. destruct a as [x| | |]; try contradiction.
  unfold num_of_nat. cbn [num_div]. rewrite (qc_of_nat_nonzero n P). exact I.
Qed.

Lemma heuristic_fin a b e : hcache_ok e -> is_fin (fst (heuristic a b e)).
Proof. intros H. apply (hview_fin true b e a H). Qed.

(** *** [evaluatePosition] *)

Lemma lengthOrInfinity_cases p :
  lengthOrInfinity p = PInf \/ is_fin (lengthOrInfinity p).
Proof.
  unfold lengthOrInfinity. destruct p as [l|]; [|left; reflexivity].
  destruct (length l =? 0); [left; reflexivity | right; exact I].
Qed.

Lemma positionScore_cases d pl :
  is_fin d ->
  pl = PInf \/ is_fin pl ->
  let score := num_sub (num_sub (num_of_nat 100) d) (num_mul pl (num_of_nat 2)) in
  (pl = PInf /\ score = NInf) \/ (is_fin pl /\ is_fin score).
Proof.
  intros Fd [->|Fp]; cbv zeta.
  - left. split; [reflexivity|]. destruct d; try contradiction. reflexivity.
  - right. split; [exact Fp|].
    apply is_fin_sub; [apply is_fin_sub; [exact I | exact Fd]|].
    apply is_fin_mul; [exact Fp | exact I].
Qed.

Lemma add_bonus_cases score bonus :
  is_fin bonus -> is_fin score \/ score = NInf ->
  is_fin (num_add score bonus) \/ num_add score bonus = NInf.
Proof.
  intros Fb [Fs| ->].
  - left. apply is_fin_add; assumption.
  - right. destruct bonus; try contradiction. reflexivity.
Qed.

(** X24. From an engine with a sound heuristic cache and with enough
    fuel for the search, [evaluatePosition] returns a score that is a
    finite number or [-Infinity], never [NaN] and never [+Infinity];
    the graph is as before and the cache is sound again. *)
Theorem evaluatePosition_finite_or_minus_infinity fuel currentWord targetWord
    playerLadder e :
  hcache_ok e -> enoughFuel (wordGraph e) <= fuel ->
  exists score e',
    evaluatePosition fuel currentWord targetWord playerLadder e = Some (score, e') /\
    hcache_ok e' /\ wordGraph e' = wordGraph e /\
    (is_fin score \/ score = NInf).
Proof.
  intros H F. unfold evaluatePosition.
  pose proof (heuristic_fin currentWord targetWord e H) as Fd.
  pose proof (heuristic_frame currentWord targetWord e) as F1.
  pose proof (heuristic_hcache_ok currentWord targetWord e H) as H1.
  destruct (heuristic currentWord targetWord e) as [d e1]. cbn [fst snd] in Fd, F1, H1.
  pose proof (same_but_heuristics_graph _ _ F1) as G1.
  destruct (findPath_total fuel currentWord targetWord true e1 H1) as
    (p & e2 & X & H2 & G2 & _); [rewrite G1; exact F|].
  rewrite X.
  assert (S : is_fin (num_sub (num_sub (num_of_nat 100) d)
                              (num_mul (lengthOrInfinity p) (num_of_nat 2))) \/
              num_sub (num_sub (num_of_nat 100) d)
                      (num_mul (lengthOrInfinity p) (num_of_nat 2)) = NInf).
  { destruct (positionScore_cases d (lengthOrInfinity p) Fd (lengthOrInfinity_cases p))
      as [[_ S]|[_ S]]; [right; exact S | left; exact S]. }
  destruct playerLadder as [|pl0 plr].
  - eexists _, e2. split; [reflexivity|]. split; [exact H2|].
    split; [now rewrite G2, G1 | exact S].
  - pose proof (heuristic_fin (lastWord (pl0 :: plr)) targetWord e2 H2) as Fp.
    pose proof (heuristic_frame (lastWord (pl0 :: plr)) targetWord e2) as F3.
    pose proof (heuristic_hcache_ok (lastWord (pl0 :: plr)) targetWord e2 H2) as H3.
    destruct (heuristic (lastWord (pl0 :: plr)) targetWord e2) as [pd e3].
    cbn [fst snd] in Fp, F3, H3.
    eexists _, e3. split; [reflexivity|]. split; [exact H3|].
    split; [now rewrite (same_but_heuristics_graph _ _ F3), G2, G1|].
    apply add_bonus_cases; [|exact S].
    apply is_fin_mul; [apply is_fin_sub; assumption | exact I].
Qed.

Lemma evaluatePosition_finite_or_minus_infinity_witness :
  exists score e',
    evaluatePosition 37 (str "cat") (str "dog") [str "cat"; str "cot"] scenario1
    = Some (score, e') /\
    hcache_ok e' /\ wordGraph e' = wordGraph scenario1 /\
    (is_fin score \/ score = NInf).
Proof.
  apply (evaluatePosition_finite_or_minus_infinity 37 (str "cat") (str "dog")
           [str "cat"; str "cot"] scenario1).
  - apply initialize_hcache_ok, new_engine_hcache_ok.
  - vm_compute. lia.
Defined.

(** *** [calculateDifficulty] *)

(** X25. From an engine that is ready for the searches and with enough
    fuel, [calculateDifficulty] returns [Infinity] when [findPath] finds
    no path, leaving the engine as [findPath] left it, and a finite
    number when it finds one. *)
Theorem calculateDifficulty_finite_iff_path fuel startWord endWord e :
  search_ready e -> enoughFuel (wordGraph e) <= fuel ->
  exists r e1 d e',
    findPath fuel startWord endWord true e = Some (r, e1) /\
    calculateDifficulty fuel startWord endWord e = Some (d, e') /\
    match r with
    | None => d = PInf /\ e' = e1
    | Some p => is_fin d
    end.
Proof.
  intros R F. unfold calculateDifficulty.
  destruct (findPath_total fuel startWord endWord true e (sr_heuristics e R) F)
    as (r & e1 & X & H1 & _).
  rewrite X. destruct r as [p|].
  - destruct (findPath_sound fuel startWord endWord true e p e1 R X)
      as [(_ & _ & Np & _) _].
    assert (P : 0 < length p) by (destruct p; [contradiction | cbn; lia]).
    pose proof (heuristic_fin startWord endWord e1 H1) as Fh.
    destruct (heuristic startWord endWord e1) as [h e2]. cbn [fst] in Fh.
    eexists (Some p), e1, _, e2. split; [reflexivity|]. split; [reflexivity|].
    apply is_fin_add.
    + apply is_fin_add; (apply is_fin_mul; [|exact I]); [exact I | exact Fh].
    + apply is_fin_sub; [exact I|]. apply is_fin_div_nat; [exact I | exact P].
  - exists None, e1, PInf, e1. split; [reflexivity|]. split; [reflexivity|].
    split; reflexivity.
Qed.

Lemma calculateDifficulty_finite_iff_path_witness :
  exists r e1 d e',
    findPath 37 (str "cat") (str "dog") true scenario1 = Some (r, e1) /\
    calculateDifficulty 37 (str "cat") (str "dog") scenario1 = Some (d, e') /\
    match r with
    | None => d = PInf /\ e' = e1
    | Some p => is_fin d
    end.
Proof.
  apply (calculateDifficulty_finite_iff_path 37 (str "cat") (str "dog") scenario1).
  - apply search_ready_initialize.
  - vm_compute. lia.
Defined.

(** ** The strategies return *)

Lemma fuel_still e e' fuel :
  still_ready e e' -> enoughFuel (wordGraph e) <= fuel ->
  enoughFuel (wordGraph e') <= fuel.
Proof. intros [_ (_ & G & _)] F. rewrite G. exact F. Qed.

Lemma findPath_some fuel (start end_ : word) useH e :
  search_ready e -> enoughFuel (wordGraph e) <= fuel ->
  exists r e', findPath fuel start end_ useH e = Some (r, e').
Proof.
  intros R F.
  destruct (findPath_total fuel start end_ useH e (sr_heuristics e R) F)
    as (r & e' & X & _).
  exists r, e'. exact X.
Qed.

Lemma evaluatePosition_some fuel currentWord targetWord playerLadder e :
  search_ready e -> enoughFuel (wordGraph e) <= fuel ->
  evaluatePosition fuel currentWord targetWord playerLadder e <> None.
Proof.
  intros R F. unfold evaluatePosition.
  pose proof (heuristic_ready currentWord targetWord e R) as R1.
  destruct (heuristic currentWord targetWord e) as [d e1]. cbn [snd] in R1.
  destruct (findPath_some fuel currentWord targetWord true e1 (proj1 R1)
              (fuel_still e e1 fuel R1 F)) as (r & e2 & X).
  rewrite X. destruct playerLadder as [|pl0 plr]; [discriminate|].
  destruct (heuristic (lastWord (pl0 :: plr)) targetWord e2). discriminate.
Qed.

Section LoopsReturn.
Variable fuel : nat.
Variable rec : word -> num -> num -> engine -> option verdict.
Hypothesis rec_ready :
  forall n a b e v, search_ready e -> rec n a b e = Some v -> still_ready e (snd v).
Hypothesis rec_some :
  forall n a b e, search_ready e -> enoughFuel (wordGraph e) <= fuel ->
                  rec n a b e <> None.

Lemma maxLoop_some nbrs alpha beta maxScore bestMove e :
  search_ready e -> enoughFuel (wordGraph e) <= fuel ->
  maxLoop rec nbrs alpha beta maxScore bestMove e <> None.
Proof.
  revert alpha maxScore bestMove e; induction nbrs as [|n r IH];
    intros alpha maxScore bestMove e R F; cbn [maxLoop]; [discriminate|].
  destruct (rec n alpha beta e) as [[[score mv] e1]|] eqn:C;
    [|exfalso; exact (rec_some n alpha beta e R F C)].
  pose proof (rec_ready n alpha beta e _ R C) as R1. cbn [snd] in R1.
  destruct (num_leb beta (num_max alpha score)); [discriminate|].
  apply IH; [exact (proj1 R1) | exact (fuel_still e e1 fuel R1 F)].
Qed.

Lemma minLoop_some nbrs alpha beta minScore bestMove e :
  search_ready e -> enoughFuel (wordGraph e) <= fuel ->
  minLoop rec nbrs alpha beta minScore bestMove e <> None.
Proof.
  revert beta minScore bestMove e; induction nbrs as [|n r IH];
    intros beta minScore bestMove e R F; cbn [minLoop]; [discriminate|].
  destruct (rec n alpha beta e) as [[[score mv] e1]|] eqn:C;
    [|exfalso; exact (rec_some n alpha beta e R F C)].
  pose proof (rec_ready n alpha beta e _ R C) as R1. cbn [snd] in R1.
  destruct (num_leb (num_min beta score) alpha); [discriminate|].
  apply IH; [exact (proj1 R1) | exact (fuel_still e e1 fuel R1 F)].
Qed.

End LoopsReturn.

Lemma minimax_some fuel depth :
  forall currentWord targetWord alpha beta isMaximizing playerLadder e,
    search_ready e -> enoughFuel (wordGraph e) <= fuel ->
    minimax fuel depth currentWord targetWord alpha beta isMaximizing playerLadder e
    <> None.
Proof.
  assert (Ev : forall currentWord targetWord playerLadder e,
             search_ready e -> enoughFuel (wordGraph e) <= fuel ->
             option_map (fun r => (fst r, @None word, snd r))
               (evaluatePosition fuel currentWord targetWord playerLadder e) <> None).
  { intros c t pl e R F.
    pose proof (evaluatePosition_some fuel c t pl e R F) as X.
    destruct (evaluatePosition fuel c t pl e); [discriminate | contradiction]. }
  induction depth as [|depth IH];
    intros currentWord targetWord alpha beta isMaximizing playerLadder e R F;
    cbn [minimax].
  - apply Ev; assumption.
  - destruct (eqb currentWord targetWord); [apply Ev; assumption|].
    destruct (neighbors (wordGraph e) currentWord) as [|n0 r0]; [discriminate|].
    destruct isMaximizing.
    + apply (maxLoop_some fuel); [| |exact R|exact F].
      * intros n a b e0 v0 R0 X0. apply (minimax_ready fuel depth _ _ _ _ _ _ _ _ R0 X0).
      * intros n a b e0 R0 F0. apply IH; assumption.
    + apply (minLoop_some fuel); [| |exact R|exact F].
      * intros n a b e0 v0 R0 X0. apply (minimax_ready fuel depth _ _ _ _ _ _ _ _ R0 X0).
      * intros n a b e0 R0 F0. apply IH; assumption.
Qed.

Lemma findBlockingMove_some fuel aiWord playerWord targetWord e :
  search_ready e -> enoughFuel (wordGraph e) <= fuel ->
  findBlockingMove fuel aiWord playerWord targetWord e <> None.
Proof.
  intros R F. unfold findBlockingMove.
  destruct (findPath_some fuel playerWord targetWord true e R F) as (r & e1 & X).
  rewrite X. destruct r as [p|]; [|discriminate].
  destruct (length p <? 3); discriminate.
Qed.

Lemma selectHardMove_some fuel currentWord targetWord playerLadder t e :
  search_ready e -> enoughFuel (wordGraph e) <= fuel ->
  selectHardMove fuel currentWord targetWord playerLadder t e <> None.
Proof.
  intros R F. unfold selectHardMove.
  destruct (findPath_some fuel currentWord targetWord true e R F) as (r & e1 & X).
  pose proof (findPath_ready fuel currentWord targetWord true e r e1 R X) as R1.
  rewrite X.
  assert (Med : forall t0,
             (let '(m, t1, e2) := selectMediumMove currentWord targetWord t0 e1 in
              Some (m, t1, e2)) <> None).
  { intros t0. destruct (selectMediumMove currentWord targetWord t0 e1) as [[m t1] e2].
    discriminate. }
  destruct r as [[|first [|nextMove rest]]|]; try apply Med.
  pose proof (findBlockingMove_some fuel currentWord (lastWord playerLadder) targetWord
                e1 (proj1 R1) (fuel_still e e1 fuel R1 F)) as B.
  assert (Rest : forall (b : option word) t1 e2,
    match Some (b, t1, e2) with
    | None => None
    | Some (Some b, t1, e2) =>
        if truthy b then Some (Some b, t1, e2)
        else
          let (r, t2) := random t1 in
          if qc_ltb r (Q2Qc (2 # 10)) then
            let others := filter (fun w => negb (eqb w nextMove))
                                 (neighbors (wordGraph e2) currentWord) in
            let (alternatives, e3) :=
              filterCloser (Fin 1%Qc) currentWord targetWord others e2 in
            if 0 <? length alternatives then
              let (i, t3) := randomIndex (length alternatives) t2 in
              Some (nth_error alternatives i, t3, e3)
            else Some (Some nextMove, t2, e3)
          else Some (Some nextMove, t2, e2)
    | Some (None, t1, e2) =>
        let (r, t2) := random t1 in
        if qc_ltb r (Q2Qc (2 # 10)) then
          let others := filter (fun w => negb (eqb w nextMove))
                               (neighbors (wordGraph e2) currentWord) in
          let (alternatives, e3) :=
            filterCloser (Fin 1%Qc) currentWord targetWord others e2 in
          if 0 <? length alternatives then
            let (i, t3) := randomIndex (length alternatives) t2 in
            Some (nth_error alternatives i, t3, e3)
          else Some (Some nextMove, t2, e3)
        else Some (Some nextMove, t2, e2)
    end <> None).
  { intros b t1 e2. cbv beta iota zeta.
    assert (Tail : (let (r, t2) := random t1 in
          if qc_ltb r (Q2Qc (2 # 10)) then
            let (alternatives, e3) :=
              filterCloser (Fin 1%Qc) currentWord targetWord
                (filter (fun w => negb (eqb w nextMove))
                        (neighbors (wordGraph e2) currentWord)) e2 in
            if 0 <? length alternatives then
              let (i, t3) := randomIndex (length alternatives) t2 in
              Some (nth_error alternatives i, t3, e3)
            else Some (Some nextMove, t2, e3)
          else Some (Some nextMove, t2, e2)) <> None).
    { destruct (random t1) as [r0 t2].
      destruct (qc_ltb r0 (Q2Qc (2 # 10))); [|discriminate].
      destruct (filterCloser _ _ _ _ _) as [alts e3].
      destruct (0 <? length alts); [|discriminate].
      destruct (randomIndex (length alts) t2). discriminate. }
    destruct b as [b|]; [|exact Tail].
    destruct (truthy b); [discriminate | exact Tail]. }
  cbv zeta.
  destruct playerLadder as [|pl0 plr]; [exact (Rest None t e1)|].
  destruct (truthy (lastWord (pl0 :: plr))); [|exact (Rest None t e1)].
  destruct (random t) as [r0 t1].
  destruct (qc_ltb r0 (Q2Qc (3 # 10))); [|exact (Rest None t1 e1)].
  destruct (findBlockingMove fuel currentWord (lastWord (pl0 :: plr)) targetWord e1)
    as [[b e2]|]; [exact (Rest b t1 e2) | contradiction].
Qed.

Lemma selectAIMove_some fuel currentWord targetWord difficulty playerLadder t e :
  In difficulty four_names -> search_ready e -> enoughFuel (wordGraph e) <= fuel ->
  selectAIMove fuel currentWord targetWord difficulty playerLadder t e <> None.
Proof.
  intros I R F. unfold four_names in I. cbn [map In] in I.
  destruct I as [<-|[<-|[<-|[<-|[]]]]]; unfold selectAIMove.
  - change (lookupStrategy (str "easy")) with (OwnStrategy Easy). cbv iota.
    destruct (selectEasyMove currentWord targetWord t e) as [[m t1] e1]. discriminate.
  - change (lookupStrategy (str "medium")) with (OwnStrategy Medium). cbv iota.
    destruct (selectMediumMove currentWord targetWord t e) as [[m t1] e1]. discriminate.
  - change (lookupStrategy (str "hard")) with (OwnStrategy Hard). cbv iota.
    pose proof (selectHardMove_some fuel currentWord targetWord playerLadder t e R F) as H.
    destruct (selectHardMove fuel currentWord targetWord playerLadder t e)
      as [[[m t1] e1]|]; [discriminate | contradiction].
  - change (lookupStrategy (str "expert")) with (OwnStrategy Expert). cbv iota.
    unfold selectExpertMove, expertRoot.
    pose proof (minimax_some fuel 4 currentWord targetWord NInf PInf true playerLadder
                  e R F) as H.
    destruct (minimax fuel 4 currentWord targetWord NInf PInf true playerLadder e)
      as [[[s m] e1]|]; [discriminate | contradiction].
Qed.

(** ** Alpha-beta pruning and the score of the root *)

(** *** The order tests *)

Lemma pick_gtb s m : valid s -> valid m ->
  (nlt m s /\ (if num_gtb s m then s else m) = s) \/
  (nle s m /\ (if num_gtb s m then s else m) = m).
Proof.
  intros Vs Vm. unfold num_gtb. pose proof (num_ltb_spec m s Vm Vs) as H.
  destruct (num_ltb m s); [left | right]; split; auto.
Qed.

Lemma pick_ltb s m : valid s -> valid m ->
  (nlt s m /\ (if num_ltb s m then s else m) = s) \/
  (nle m s /\ (if num_ltb s m then s else m) = m).
Proof.
  intros Vs Vm. pose proof (num_ltb_spec s m Vs Vm) as H.
  destruct (num_ltb s m); [left | right]; split; auto.
Qed.

Lemma max_cases a b : valid a -> valid b ->
  (nlt a b /\ num_max a b = b) \/ (nle b a /\ num_max a b = a).
Proof.
  intros Va Vb. rewrite (num_max_spec a b Va Vb).
  pose proof (num_ltb_spec a b Va Vb) as H.
  destruct (num_ltb a b); [left | right]; split; auto.
Qed.

Lemma min_cases a b : valid a -> valid b ->
  (nlt b a /\ num_min a b = b) \/ (nle a b /\ num_min a b = a).
Proof.
  intros Va Vb. rewrite (num_min_spec a b Va Vb).
  pose proof (num_ltb_spec b a Vb Va) as H.
  destruct (num_ltb b a); [left | right]; split; auto.
Qed.

Lemma leb_cases a b : valid a -> valid b ->
  (nle a b /\ num_leb a b = true) \/ (nlt b a /\ num_leb a b = false).
Proof.
  intros Va Vb. pose proof (num_leb_spec a b Va Vb) as H.
  destruct (num_leb a b); [left | right]; split; auto.
Qed.

Lemma bounds_refl alpha beta r : bounds alpha beta r r.
Proof.
  unfold bounds. split; [|split]; intros; [right | right |]; reflexivity.
Qed.

Lemma bounds_cases alpha beta r v :
  bounds alpha beta r v ->
  (nle r alpha /\ nle v r) \/ (nlt alpha r /\ nlt r beta /\ r = v) \/
  (nle beta r /\ nle r v).
Proof.
  intros (B1 & B2 & B3).
  destruct (nlt_total alpha r) as [L|[E|G]].
  - destruct (nlt_total r beta) as [L2|[E2|G2]].
    + right. left. split; [exact L|]. split; [exact L2 | exact (B3 L L2)].
    + right. right. assert (X : nle beta r) by (right; congruence).
      split; [exact X | exact (B2 X)].
    + right. right. assert (X : nle beta r) by (left; exact G2).
      split; [exact X | exact (B2 X)].
  - left. assert (X : nle r alpha) by (right; congruence). split; [exact X | exact (B1 X)].
  - left. assert (X : nle r alpha) by (left; exact G). split; [exact X | exact (B1 X)].
Qed.

Lemma nle_cases a b : nle a b \/ nlt b a.
Proof.
  destruct (nlt_total a b) as [L|[E|G]];
    [left; left; exact L | left; right; exact E | right; exact G].
Qed.

Lemma num_max_valid a b : valid a -> valid b -> valid (num_max a b).
Proof. intros Va Vb. destruct (max_cases a b Va Vb) as [[_ ->]|[_ ->]]; assumption. Qed.

Lemma num_min_valid a b : valid a -> valid b -> valid (num_min a b).
Proof. intros Va Vb. destruct (min_cases a b Va Vb) as [[_ ->]|[_ ->]]; assumption. Qed.

(** *** The loops *)

Section PureLoops.
Variable rec : word -> num -> num -> num.
Variable recB : word -> num.
Hypothesis rec_valid : forall n a b, valid a -> valid b -> valid (rec n a b).
Hypothesis recB_valid : forall n, valid (recB n).
Hypothesis rec_bounds :
  forall n a b, valid a -> valid b -> nlt a b -> bounds a b (rec n a b) (recB n).

Lemma maxLoopP_valid nbrs alpha beta m :
  valid alpha -> valid beta -> valid m -> valid (maxLoopP rec nbrs alpha beta m).
Proof.
  revert alpha m; induction nbrs as [|n r IH]; intros alpha m Va Vb Vm;
    cbn [maxLoopP]; [exact Vm|].
  pose proof (rec_valid n alpha beta Va Vb) as Vs.
  assert (Vm' : valid (if num_gtb (rec n alpha beta) m then rec n alpha beta else m))
    by (destruct (num_gtb (rec n alpha beta) m); assumption).
  destruct (num_leb beta (num_max alpha (rec n alpha beta))); [exact Vm'|].
  apply IH; [apply num_max_valid; assumption | exact Vb | exact Vm'].
Qed.

Lemma minLoopP_valid nbrs alpha beta m :
  valid alpha -> valid beta -> valid m -> valid (minLoopP rec nbrs alpha beta m).
Proof.
  revert beta m; induction nbrs as [|n r IH]; intros beta m Va Vb Vm;
    cbn [minLoopP]; [exact Vm|].
  pose proof (rec_valid n alpha beta Va Vb) as Vs.
  assert (Vm' : valid (if num_ltb (rec n alpha beta) m then rec n alpha beta else m))
    by (destruct (num_ltb (rec n alpha beta) m); assumption).
  destruct (num_leb (num_min beta (rec n alpha beta)) alpha); [exact Vm'|].
  apply IH; [exact Va | apply num_min_valid; assumption | exact Vm'].
Qed.

Lemma plainLoopP_max nbrs best :
  valid best ->
  valid (plainLoopP num_gtb recB nbrs best) /\
  nle best (plainLoopP num_gtb recB nbrs best).
Proof.
  revert best; induction nbrs as [|n r IH]; intros best Vb; cbn [plainLoopP].
  - split; [exact Vb | right; reflexivity].
  - destruct (pick_gtb (recB n) best (recB_valid n) Vb) as [[L ->]|[L ->]].
    + destruct (IH (recB n) (recB_valid n)) as [V G]. split; [exact V|]. num_order.
    + apply IH, Vb.
Qed.

Lemma plainLoopP_min nbrs best :
  valid best ->
  valid (plainLoopP num_ltb recB nbrs best) /\
  nle (plainLoopP num_ltb recB nbrs best) best.
Proof.
  revert best; induction nbrs as [|n r IH]; intros best Vb; cbn [plainLoopP].
  - split; [exact Vb | right; reflexivity].
  - destruct (pick_ltb (recB n) best (recB_valid n) Vb) as [[L ->]|[L ->]].
    + destruct (IH (recB n) (recB_valid n)) as [V G]. split; [exact V|]. num_order.
    + apply IH, Vb.
Qed.

(** The maximizing loop with the window [(alpha0, beta)] at its start:
    [alpha1] is the window's lower end by now, [m] the best score so
    far and [bm] the best score of the loop that does not prune. *)
Lemma maxLoopP_bounds nbrs :
  forall alpha0 alpha1 beta m bm,
    valid alpha0 -> valid alpha1 -> valid beta -> valid m -> valid bm ->
    nle alpha0 alpha1 -> nle m alpha1 -> alpha1 = alpha0 \/ alpha1 = m ->
    nlt alpha1 beta ->
    (nle m alpha0 -> nle bm m) -> (nlt alpha0 m -> m = bm) ->
    bounds alpha0 beta (maxLoopP rec nbrs alpha1 beta m)
           (plainLoopP num_gtb recB nbrs bm).
Proof.
  induction nbrs as [|n r IH];
    intros alpha0 alpha1 beta m bm V0 V1 Vb Vm Vbm H1 H2 H3 H4 H5 H6;
    cbn [maxLoopP plainLoopP].
  - unfold bounds. split; [|split].
    + exact H5.
    + intros X. exfalso. num_order.
    + intros X _. exact (H6 X).
  - pose proof (rec_valid n alpha1 beta V1 Vb) as Vs.
    pose proof (recB_valid n) as Vv.
    pose proof (bounds_cases _ _ _ _ (rec_bounds n alpha1 beta V1 Vb H4)) as B.
    set (s := rec n alpha1 beta) in *. set (v := recB n) in *.
    assert (M : (nle m alpha0 /\ nle bm m) \/ (nlt alpha0 m /\ m = bm)).
    { destruct (nle_cases m alpha0) as [X|X]; [left | right]; auto. }
    clear H5 H6.
    destruct (pick_gtb s m Vs Vm) as [[Lm ->]|[Lm ->]];
      destruct (pick_gtb v bm Vv Vbm) as [[Lb ->]|[Lb ->]];
      destruct (max_cases alpha1 s V1 Vs) as [[La ->]|[La ->]];
      match goal with
      | |- context [num_leb beta ?a] =>
          destruct (leb_cases beta a Vb ltac:(assumption)) as [[Lc ->]|[Lc ->]]
      end;
      try solve [exfalso; destruct H3; destruct M as [[? ?]|[? ?]];
                 destruct B as [[? ?]|[[? [? ?]]|[? ?]]]; num_order];
      try (match goal with
           | |- bounds _ _ _ (plainLoopP num_gtb recB r ?b) =>
               destruct (plainLoopP_max r b ltac:(assumption)) as [_ G];
               unfold bounds; split; [|split]; intros;
               destruct H3; destruct M as [[? ?]|[? ?]];
               destruct B as [[? ?]|[[? [? ?]]|[? ?]]]; num_order
           end);
      try (apply IH; try assumption;
           try solve [destruct H3; destruct M as [[? ?]|[? ?]];
                      destruct B as [[? ?]|[[? [? ?]]|[? ?]]];
                      first [num_order | left; num_order | right; num_order
                            | intros; num_order]]).
Qed.

Lemma minLoopP_bounds nbrs :
  forall alpha beta0 beta1 m bm,
    valid alpha -> valid beta0 -> valid beta1 -> valid m -> valid bm ->
    nle beta1 beta0 -> nle beta1 m -> beta1 = beta0 \/ beta1 = m ->
    nlt alpha beta1 ->
    (nle beta0 m -> nle m bm) -> (nlt m beta0 -> m = bm) ->
    bounds alpha beta0 (minLoopP rec nbrs alpha beta1 m)
           (plainLoopP num_ltb recB nbrs bm).
Proof.
  induction nbrs as [|n r IH];
    intros alpha beta0 beta1 m bm Va V0 V1 Vm Vbm H1 H2 H3 H4 H5 H6;
    cbn [minLoopP plainLoopP].
  - unfold bounds. split; [|split].
    + intros X. exfalso. num_order.
    + exact H5.
    + intros _ X. exact (H6 X).
  - pose proof (rec_valid n alpha beta1 Va V1) as Vs.
    pose proof (recB_valid n) as Vv.
    pose proof (bounds_cases _ _ _ _ (rec_bounds n alpha beta1 Va V1 H4)) as B.
    set (s := rec n alpha beta1) in *. set (v := recB n) in *.
    assert (M : (nle beta0 m /\ nle m bm) \/ (nlt m beta0 /\ m = bm)).
    { destruct (nle_cases beta0 m) as [X|X]; [left | right]; auto. }
    clear H5 H6.
    destruct (pick_ltb s m Vs Vm) as [[Lm ->]|[Lm ->]];
      destruct (pick_ltb v bm Vv Vbm) as [[Lb ->]|[Lb ->]];
      destruct (min_cases beta1 s V1 Vs) as [[La ->]|[La ->]];
      match goal with
      | |- context [num_leb ?b alpha] =>
          destruct (leb_cases b alpha ltac:(assumption) Va) as [[Lc ->]|[Lc ->]]
      end;
      try solve [exfalso; destruct H3; destruct M as [[? ?]|[? ?]];
                 destruct B as [[? ?]|[[? [? ?]]|[? ?]]]; num_order];
      try (match goal with
           | |- bounds _ _ _ (plainLoopP num_ltb recB r ?b) =>
               destruct (plainLoopP_min r b ltac:(assumption)) as [_ G];
               unfold bounds; split; [|split]; intros;
               destruct H3; destruct M as [[? ?]|[? ?]];
               destruct B as [[? ?]|[[? [? ?]]|[? ?]]]; num_order
           end);
      try (apply IH; try assumption;
           try solve [destruct H3; destruct M as [[? ?]|[? ?]];
                      destruct B as [[? ?]|[[? [? ?]]|[? ?]]];
                      first [num_order | left; num_order | right; num_order
                            | intros; num_order]]).
Qed.

End PureLoops.

(** *** The recursion *)

Section PureSearch.
Variable ev : word -> num.
Variable g : graph.
Variable targetWord : word.
Hypothesis ev_valid : forall w, valid (ev w).

Lemma alphaBetaP_valid depth :
  forall currentWord alpha beta isMaximizing,
    valid alpha -> valid beta ->
    valid (alphaBetaP ev g targetWord depth currentWord alpha beta isMaximizing).
Proof.
  induction depth as [|depth IH]; intros currentWord alpha beta isMaximizing Va Vb;
    cbn [alphaBetaP]; [apply ev_valid|].
  destruct (eqb currentWord targetWord); [apply ev_valid|].
  destruct (neighbors g currentWord) as [|n0 r0];
    [destruct isMaximizing; discriminate|].
  destruct isMaximizing.
  - apply maxLoopP_valid; [|exact Va|exact Vb|discriminate].
    intros n a b Va' Vb'. apply IH; assumption.
  - apply minLoopP_valid; [|exact Va|exact Vb|discriminate].
    intros n a b Va' Vb'. apply IH; assumption.
Qed.

Lemma bruteForceP_valid depth :
  forall currentWord isMaximizing,
    valid (bruteForceP ev g targetWord depth currentWord isMaximizing).
Proof.
  induction depth as [|depth IH]; intros currentWord isMaximizing;
    cbn [bruteForceP]; [apply ev_valid|].
  destruct (eqb currentWord targetWord); [apply ev_valid|].
  destruct (neighbors g currentWord) as [|n0 r0];
    [destruct isMaximizing; discriminate|].
  destruct isMaximizing.
  - apply plainLoopP_max; [|discriminate]. intros n. apply IH.
  - apply plainLoopP_min; [|discriminate]. intros n. apply IH.
Qed.

(** A search with the window [(alpha, beta)] bounds the value of the
    search that does not prune. *)
Lemma alphaBetaP_bounds depth :
  forall currentWord alpha beta isMaximizing,
    valid alpha -> valid beta -> nlt alpha beta ->
    bounds alpha beta
      (alphaBetaP ev g targetWord depth currentWord alpha beta isMaximizing)
      (bruteForceP ev g targetWord depth currentWord isMaximizing).
Proof.
  induction depth as [|depth IH]; intros currentWord alpha beta isMaximizing Va Vb L;
    cbn [alphaBetaP bruteForceP]; [apply bounds_refl|].
  destruct (eqb currentWord targetWord); [apply bounds_refl|].
  destruct (neighbors g currentWord) as [|n0 r0]; [apply bounds_refl|].
  destruct isMaximizing.
  - apply (maxLoopP_bounds
             (fun n a b => alphaBetaP ev g targetWord depth n a b false)
             (fun n => bruteForceP ev g targetWord depth n false)); try assumption.
    + intros n a b Va' Vb'. apply alphaBetaP_valid; assumption.
    + intros n. apply bruteForceP_valid.
    + intros n a b Va' Vb' L'. apply IH; assumption.
    + discriminate.
    + discriminate.
    + right. reflexivity.
    + apply nle_NInf, Va.
    + left. reflexivity.
    + intros _. right. reflexivity.
    + intros _. reflexivity.
  - apply (minLoopP_bounds
             (fun n a b => alphaBetaP ev g targetWord depth n a b true)
             (fun n => bruteForceP ev g targetWord depth n true)); try assumption.
    + intros n a b Va' Vb'. apply alphaBetaP_valid; assumption.
    + intros n. apply bruteForceP_valid.
    + intros n a b Va' Vb' L'. apply IH; assumption.
    + discriminate.
    + discriminate.
    + right. reflexivity.
    + apply nle_PInf, Vb.
    + left. reflexivity.
    + intros _. right. reflexivity.
    + intros _. reflexivity.
Qed.

(** With the window [(-Infinity, Infinity)] of the root, pruning gives
    the score of the search that does not prune. *)
Lemma alphaBetaP_root depth currentWord isMaximizing :
  alphaBetaP ev g targetWord depth currentWord NInf PInf isMaximizing
  = bruteForceP ev g targetWord depth currentWord isMaximizing.
Proof.
  pose proof (alphaBetaP_bounds depth currentWord NInf PInf isMaximizing
                valid_NInf valid_PInf nlt_NInf_PInf) as (B1 & B2 & B3).
  pose proof (alphaBetaP_valid depth currentWord NInf PInf isMaximizing
                valid_NInf valid_PInf) as Vr.
  pose proof (bruteForceP_valid depth currentWord isMaximizing) as Vv.
  set (r := alphaBetaP ev g targetWord depth currentWord NInf PInf isMaximizing) in *.
  set (v := bruteForceP ev g targetWord depth currentWord isMaximizing) in *.
  pose proof (nle_NInf v Vv) as Lv. pose proof (nle_PInf v Vv) as Uv.
  pose proof (nle_NInf r Vr) as Lr. pose proof (nle_PInf r Vr) as Ur.
  destruct (nlt_total NInf r) as [L|[E|G]]; [|rewrite <- E in *|exfalso; num_order].
  - destruct (nlt_total r PInf) as [L2|[E2|G2]]; [exact (B3 L L2)| |exfalso; num_order].
    assert (X : nle PInf r) by (right; congruence). specialize (B2 X). num_order.
  - assert (X : nle NInf NInf) by (right; reflexivity). specialize (B1 X). num_order.
Qed.

End PureSearch.

(** *** The searches on an engine *)

Lemma findPathP_ext fuel h h' g cached (start end_ : word) :
  (forall x, h x = h' x) ->
  findPathP fuel h g cached start end_ = findPathP fuel h' g cached start end_.
Proof.
  intros E. unfold findPathP. rewrite (E start).
  destruct (negb (length start =? length end_)); [reflexivity|].
  destruct (eqb start end_); [reflexivity|].
  destruct cached; [reflexivity|]. apply astarP_ext, E.
Qed.

Lemma same_answers_refl fuel t e : hcache_ok e -> same_answers fuel t e e.
Proof. intros H. split; [reflexivity | reflexivity | reflexivity | exact H]. Qed.

Lemma same_answers_heuristic fuel t e0 e a :
  same_answers fuel t e0 e ->
  fst (heuristic a t e) = hview true t e0 a /\
  same_answers fuel t e0 (snd (heuristic a t e)).
Proof.
  intros [G Hv Pv Hc].
  pose proof (estimate_view true t a e) as [_ V].
  change (estimate true a t e) with (heuristic a t e) in V.
  pose proof (heuristic_frame a t e) as F.
  split.
  - rewrite <- (Hv a). reflexivity.
  - split.
    + rewrite (same_but_heuristics_graph _ _ F). exact G.
    + intros w. rewrite V. apply Hv.
    + intros w. rewrite <- (Pv w). unfold pview.
      rewrite (same_but_heuristics_graph _ _ F), (same_but_heuristics_paths _ _ F).
      apply findPathP_ext, V.
    + apply heuristic_hcache_ok, Hc.
Qed.

Lemma same_answers_findPath fuel t e0 e c :
  same_answers fuel t e0 e ->
  match pview fuel t e0 c with
  | None => findPath fuel c t true e = None
  | Some r => exists e', findPath fuel c t true e = Some (r, e') /\
                         same_answers fuel t e0 e'
  end.
Proof.
  intros [G Hv Pv Hc]. rewrite <- (Pv c).
  pose proof (findPath_pure fuel c t true e) as P. unfold pview.
  destruct (findPathP fuel (hview true t e) (wordGraph e)
              (JsMap.get (cacheKey c t) (precomputedPaths e)) c t) as [r|] eqn:R;
    [|exact P].
  destruct P as (e' & X & V' & G' & _ & _ & C & Hc').
  exists e'. split; [exact X|]. split.
  - congruence.
  - intros w. rewrite V'. apply Hv.
  - intros w. rewrite <- (Pv w). unfold pview. rewrite G'.
    rewrite (findPathP_ext fuel (hview true t e') (hview true t e) _ _ w t V').
    destruct C as [C|(p & Er & L & N & Gn & C)].
    + rewrite C. reflexivity.
    + rewrite C, map_get_set.
      destruct (eqb_spec (cacheKey w t) (cacheKey c t)) as [K|K]; [|reflexivity].
      apply cacheKey_inj_l in K. subst w. rewrite Gn in R |- *. rewrite R, Er.
      unfold findPathP. rewrite L, Nat.eqb_refl. cbn [negb].
      destruct (eqb_spec c t) as [Ect|Nct]; [contradiction | reflexivity].
  - apply Hc', Hc.
Qed.

Lemma evaluatePosition_pure fuel c t pl e0 e :
  same_answers fuel t e0 e ->
  match evaluateP (hview true t e0) (pview fuel t e0) pl c with
  | None => evaluatePosition fuel c t pl e = None
  | Some s => exists e', evaluatePosition fuel c t pl e = Some (s, e') /\
                         same_answers fuel t e0 e'
  end.
Proof.
  intros S. unfold evaluateP, evaluatePosition.
  destruct (same_answers_heuristic fuel t e0 e c S) as [D S1].
  destruct (heuristic c t e) as [d e1]. cbn [fst snd] in D, S1. subst d.
  pose proof (same_answers_findPath fuel t e0 e1 c S1) as P.
  destruct (pview fuel t e0 c) as [r|]; [|rewrite P; reflexivity].
  destruct P as (e2 & X & S2). rewrite X.
  destruct pl as [|pl0 plr].
  - exists e2. split; [reflexivity | exact S2].
  - destruct (same_answers_heuristic fuel t e0 e2 (lastWord (pl0 :: plr)) S2) as [D3 S3].
    destruct (heuristic (lastWord (pl0 :: plr)) t e2) as [pd e3].
    cbn [fst snd] in D3, S3. subst pd.
    exists e3. split; [reflexivity | exact S3].
Qed.

Lemma fin_valid a : is_fin a -> valid a.
Proof. destruct a; try contradiction. discriminate. Qed.

Lemma evaluateView_spec fuel t pl e0 w :
  hcache_ok e0 -> enoughFuel (wordGraph e0) <= fuel ->
  evaluateP (hview true t e0) (pview fuel t e0) pl w
  = Some (evaluateView fuel t pl e0 w) /\
  valid (evaluateView fuel t pl e0 w).
Proof.
  intros H F. unfold evaluateView, evaluateP.
  pose proof (findPathP_total fuel (hview true t e0) (wordGraph e0)
                (JsMap.get (cacheKey w t) (precomputedPaths e0)) w t
                (fun x => hview_fin true t e0 x H) F) as T.
  fold (pview fuel t e0 w) in T.
  destruct (pview fuel t e0 w) as [p|]; [|contradiction].
  split; [reflexivity|]. unfold positionScore.
  pose proof (positionScore_cases (hview true t e0 w) (lengthOrInfinity p)
                (hview_fin true t e0 w H) (lengthOrInfinity_cases p)) as C.
  cbv zeta in C.
  assert (Sc : is_fin (num_sub (num_sub (num_of_nat 100) (hview true t e0 w))
                         (num_mul (lengthOrInfinity p) (num_of_nat 2))) \/
               num_sub (num_sub (num_of_nat 100) (hview true t e0 w))
                 (num_mul (lengthOrInfinity p) (num_of_nat 2)) = NInf)
    by (destruct C as [[_ C]|[_ C]]; [right | left]; exact C).
  destruct pl as [|pl0 plr].
  - destruct Sc as [Sc| ->]; [apply fin_valid, Sc | discriminate].
  - destruct (add_bonus_cases _
                (num_mul (num_sub (hview true t e0 (lastWord (pl0 :: plr)))
                                  (hview true t e0 w)) (num_of_nat 10))
                (is_fin_mul _ (num_of_nat 10)
                   (is_fin_sub _ _ (hview_fin true t e0 _ H) (hview_fin true t e0 w H))
                   (is_fin_num_of_nat 10)) Sc)
      as [A|A]; [apply fin_valid, A | rewrite A; discriminate].
Qed.

Section EngineLoops.
Variable fuel : nat.
Variable t : word.
Variable e0 : engine.

Section WithWindow.
Variable rec : word -> num -> num -> engine -> option verdict.
Variable recP : word -> num -> num -> num.
Hypothesis rec_pure :
  forall n a b e, same_answers fuel t e0 e ->
    exists m e', rec n a b e = Some (recP n a b, m, e') /\ same_answers fuel t e0 e'.

Lemma maxLoop_pure nbrs alpha beta maxScore bestMove e :
  same_answers fuel t e0 e ->
  exists m e', maxLoop rec nbrs alpha beta maxScore bestMove e
               = Some (maxLoopP recP nbrs alpha beta maxScore, m, e') /\
               same_answers fuel t e0 e'.
Proof.
  revert alpha maxScore bestMove e; induction nbrs as [|n r IH];
    intros alpha maxScore bestMove e S; cbn [maxLoop maxLoopP].
  - exists bestMove, e. split; [reflexivity | exact S].
  - destruct (rec_pure n alpha beta e S) as (m1 & e1 & X & S1). rewrite X.
    cbv beta iota zeta.
    destruct (num_leb beta (num_max alpha (recP n alpha beta))).
    + eexists _, e1. split; [reflexivity | exact S1].
    + apply IH, S1.
Qed.

Lemma minLoop_pure nbrs alpha beta minScore bestMove e :
  same_answers fuel t e0 e ->
  exists m e', minLoop rec nbrs alpha beta minScore bestMove e
               = Some (minLoopP recP nbrs alpha beta minScore, m, e') /\
               same_answers fuel t e0 e'.
Proof.
  revert beta minScore bestMove e; induction nbrs as [|n r IH];
    intros beta minScore bestMove e S; cbn [minLoop minLoopP].
  - exists bestMove, e. split; [reflexivity | exact S].
  - destruct (rec_pure n alpha beta e S) as (m1 & e1 & X & S1). rewrite X.
    cbv beta iota zeta.
    destruct (num_leb (num_min beta (recP n alpha beta)) alpha).
    + eexists _, e1. split; [reflexivity | exact S1].
    + apply IH, S1.
Qed.

End WithWindow.

Section NoWindow.
Variable better : num -> num -> bool.
Variable rec : word -> engine -> option (num * engine).
Variable recP : word -> num.
Hypothesis rec_pure :
  forall n e, same_answers fuel t e0 e ->
    exists e', rec n e = Some (recP n, e') /\ same_answers fuel t e0 e'.

Lemma plainLoop_pure nbrs best e :
  same_answers fuel t e0 e ->
  exists e', plainLoop better rec nbrs best e
             = Some (plainLoopP better recP nbrs best, e') /\
             same_answers fuel t e0 e'.
Proof.
  revert best e; induction nbrs as [|n r IH]; intros best e S;
    cbn [plainLoop plainLoopP].
  - exists e. split; [reflexivity | exact S].
  - destruct (rec_pure n e S) as (e1 & X & S1). rewrite X.
    cbv beta iota zeta. apply IH, S1.
Qed.

End NoWindow.
End EngineLoops.

Lemma minimax_pure fuel t pl e0 :
  hcache_ok e0 -> enoughFuel (wordGraph e0) <= fuel ->
  forall depth c a b isMaximizing e,
    same_answers fuel t e0 e ->
    exists m e',
      minimax fuel depth c t a b isMaximizing pl e
      = Some (alphaBetaP (evaluateView fuel t pl e0) (wordGraph e0) t depth c a b
                         isMaximizing, m, e') /\
      same_answers fuel t e0 e'.
Proof.
  intros H F.
  assert (Ev : forall c e, same_answers fuel t e0 e ->
             exists m e',
               option_map (fun r => (fst r, @None word, snd r))
                          (evaluatePosition fuel c t pl e)
               = Some (evaluateView fuel t pl e0 c, m, e') /\
               same_answers fuel t e0 e').
  { intros c e S. pose proof (evaluatePosition_pure fuel c t pl e0 e S) as P.
    rewrite (proj1 (evaluateView_spec fuel t pl e0 c H F)) in P.
    destruct P as (e' & X & S'). rewrite X. cbn [option_map fst snd].
    exists None, e'. split; [reflexivity | exact S']. }
  induction depth as [|depth IH]; intros c a b isMaximizing e S;
    cbn [minimax alphaBetaP]; [apply Ev, S|].
  destruct (eqb c t); [apply Ev, S|].
  rewrite (sa_graph fuel t e0 e S).
  destruct (neighbors (wordGraph e0) c) as [|n0 r0].
  - exists None, e. split; [reflexivity | exact S].
  - destruct isMaximizing.
    + apply (maxLoop_pure fuel t e0 _
               (fun n a b => alphaBetaP (evaluateView fuel t pl e0) (wordGraph e0) t
                                        depth n a b false)); [|exact S].
      intros n a1 b1 e1 S1. apply IH, S1.
    + apply (minLoop_pure fuel t e0 _
               (fun n a b => alphaBetaP (evaluateView fuel t pl e0) (wordGraph e0) t
                                        depth n a b true)); [|exact S].
      intros n a1 b1 e1 S1. apply IH, S1.
Qed.

Lemma bruteForce_pure fuel t pl e0 :
  hcache_ok e0 -> enoughFuel (wordGraph e0) <= fuel ->
  forall depth c isMaximizing e,
    same_answers fuel t e0 e ->
    exists e',
      bruteForce fuel depth c t isMaximizing pl e
      = Some (bruteForceP (evaluateView fuel t pl e0) (wordGraph e0) t depth c
                          isMaximizing, e') /\
      same_answers fuel t e0 e'.
Proof.
  intros H F.
  assert (Ev : forall c e, same_answers fuel t e0 e ->
             exists e',
               evaluatePosition fuel c t pl e
               = Some (evaluateView fuel t pl e0 c, e') /\
               same_answers fuel t e0 e').
  { intros c e S. pose proof (evaluatePosition_pure fuel c t pl e0 e S) as P.
    rewrite (proj1 (evaluateView_spec fuel t pl e0 c H F)) in P. exact P. }
  induction depth as [|depth IH]; intros c isMaximizing e S;
    cbn [bruteForce bruteForceP]; [apply Ev, S|].
  destruct (eqb c t); [apply Ev, S|].
  rewrite (sa_graph fuel t e0 e S).
  destruct (neighbors (wordGraph e0) c) as [|n0 r0].
  - exists e. split; [reflexivity | exact S].
  - destruct isMaximizing.
    + apply (plainLoop_pure fuel t e0 num_gtb _
               (fun n => bruteForceP (evaluateView fuel t pl e0) (wordGraph e0) t
                                     depth n false)); [|exact S].
      intros n e1 S1. apply IH, S1.
    + apply (plainLoop_pure fuel t e0 num_ltb _
               (fun n => bruteForceP (evaluateView fuel t pl e0) (wordGraph e0) t
                                     depth n true)); [|exact S].
      intros n e1 S1. apply IH, S1.
Qed.

(** C5. Pruning does not change the score of the root: from an engine
    with a sound heuristic cache, and with enough fuel for the searches
    of the evaluation, the depth-4 alpha-beta minimax of the Expert
    strategy (the root call of [selectExpertMove], which draws no random
    number) and the depth-4 minimax with no [alpha], no [beta] and no
    [break] over the same [evaluatePosition] both return, with the same
    score, for every current word, target word and opponent ladder. *)
Theorem expert_score_is_brute_force_score fuel currentWord targetWord playerLadder e :
  hcache_ok e -> enoughFuel (wordGraph e) <= fuel ->
  exists score move e1 e2,
    expertRoot fuel currentWord targetWord playerLadder e = Some (score, move, e1) /\
    bruteForce fuel 4 currentWord targetWord true playerLadder e = Some (score, e2).
Proof.
  intros H F. unfold expertRoot.
  pose proof (same_answers_refl fuel targetWord e H) as S.
  destruct (minimax_pure fuel targetWord playerLadder e H F 4 currentWord NInf PInf
              true e S) as (m & e1 & X & _).
  destruct (bruteForce_pure fuel targetWord playerLadder e H F 4 currentWord true e S)
    as (e2 & Y & _).
  exists (bruteForceP (evaluateView fuel targetWord playerLadder e) (wordGraph e)
            targetWord 4 currentWord true), m, e1, e2.
  split; [|exact Y]. rewrite X.
  rewrite (alphaBetaP_root (evaluateView fuel targetWord playerLadder e) (wordGraph e)
             targetWord
             (fun w => proj2 (evaluateView_spec fuel targetWord playerLadder e w H F))).
  reflexivity.
Qed.

Lemma expert_score_is_brute_force_score_witness :
  exists score move e1 e2,
    expertRoot 37 (str "cat") (str "dog") [str "cat"; str "cot"] scenario1
    = Some (score, move, e1) /\
    bruteForce 37 4 (str "cat") (str "dog") true [str "cat"; str "cot"] scenario1
    = Some (score, e2).
Proof.
  apply (expert_score_is_brute_force_score 37 (str "cat") (str "dog")
           [str "cat"; str "cot"] scenario1).
  - apply initialize_hcache_ok, new_engine_hcache_ok.
  - apply Nat.leb_le. vm_compute. reflexivity.
Defined.

(** ** Random pairs: [generateRandomPair] *)

(** *** [findPath] answers alike along the loop *)













(** *** The loop *)

Section Sampling.
Context {T : Type}.
Variable pick : nat -> T -> nat * T.
Variable fuel : nat.
Variable e0 : engine.
Variable ws : list word.
Variable t0 : T.
Hypothesis E0 : engine_ok e0.
Hypothesis F0 : enoughFuel (wordGraph e0) <= fuel.
Hypothesis Wd : forall w, In w ws -> dash_free w.





End Sampling.

(** *** The length classes and the dictionary *)







(** ** The game: moves and scores *)

Lemma player_id_eqb_eq a b : Game.player_id_eqb a b = true <-> a = b.
Proof. destruct a, b; cbn; split; congruence. Qed.

Lemma players_with_player g p d q :
  Game.players (Game.with_player g p d) q
  = if Game.player_id_eqb q p then d else Game.players g q.
Proof. destruct p, q; reflexivity. Qed.

(** [calculateScores] sets the two scores and nothing else. *)
Lemma calculateScores_spec g :
  let g' := Game.calculateScores g in
  Game.algorithm g' = Game.algorithm g /\
  Game.endWord g' = Game.endWord g /\ Game.startWord g' = Game.startWord g /\
  Game.currentTurn g' = Game.currentTurn g /\
  Game.gameEnded g' = Game.gameEnded g /\ Game.isPaused g' = Game.isPaused g /\
  Game.difficulty g' = Game.difficulty g /\
  forall q, Game.currentWord (Game.players g' q) = Game.currentWord (Game.players g q) /\
            Game.ladder (Game.players g' q) = Game.ladder (Game.players g q) /\
            Game.isAI (Game.players g' q) = Game.isAI (Game.players g q) /\
            Game.hintsUsed (Game.players g' q) = Game.hintsUsed (Game.players g q) /\
            Game.score (Game.players g' q) = Game.finalScore g (Game.players g q).
Proof.
  cbv zeta. repeat (split; [reflexivity|]). intros [|]; repeat split; reflexivity.
Qed.

Lemma makeMove_spec p w g :
  let d := Game.players g p in
  let g' := fst (Game.makeMove p w g) in
  Game.algorithm g' = Game.algorithm g /\
  Game.endWord g' = Game.endWord g /\ Game.difficulty g' = Game.difficulty g /\
  Game.startWord g' = Game.startWord g /\
  Game.currentWord (Game.players g' p) = w /\
  Game.ladder (Game.players g' p) = Game.ladder d ++ [w] /\
  Game.currentWord (Game.players g' (Game.opponent p))
  = Game.currentWord (Game.players g (Game.opponent p)) /\
  Game.ladder (Game.players g' (Game.opponent p))
  = Game.ladder (Game.players g (Game.opponent p)) /\
  (if eqb w (Game.endWord g)
   then snd (Game.makeMove p w g) = Game.GameOver p /\ Game.gameEnded g' = true
   else Game.currentTurn g' = Game.opponent p /\
        Game.gameEnded g' = Game.gameEnded g /\
        snd (Game.makeMove p w g)
        = Game.GoesOn (Game.isAI (Game.players g (Game.opponent p))
                       && negb (Game.gameEnded g || Game.isPaused g))).
Proof.
  cbv zeta. unfold Game.makeMove.
  assert (E : Game.endWord
                (Game.with_player g p
                   (Game.mkPlayer w (Game.ladder (Game.players g p) ++ [w])
                      (Game.isAI (Game.players g p)) (Game.hintsUsed (Game.players g p))
                      (Game.score (Game.players g p)))) = Game.endWord g)
    by (destruct p; reflexivity).
  rewrite E. destruct (eqb w (Game.endWord g)); destruct p; cbn;
    repeat split; reflexivity.
Qed.

(** X27. [submitMove] makes a move only when the game is neither ended
    nor paused and it is the player's turn, and only with a word (the
    input in lower case, trimmed) that is not empty, is a valid word, is
    not yet on the player's ladder and passes [areNeighbors] with the
    player's current word.  The move puts the word at the end of the
    player's ladder and makes it the current word, leaves the other
    player's ladder and the engine alone, and either ends the game, when
    the word is the end word, or passes the turn. *)
Theorem submitMove_accepts_legal_moves_only p input g g' o :
  Game.submitMove p input g = Game.Moved g' o ->
  let w := trim (toLowerCase input) in
  let d := Game.players g p in
  (Game.gameEnded g = false /\ Game.isPaused g = false /\ Game.currentTurn g = p) /\
  (w <> [] /\ isValidWord (Game.algorithm g) w = true /\ ~ In w (Game.ladder d) /\
   areNeighbors (Game.currentWord d) w = true) /\
  (Game.currentWord (Game.players g' p) = w /\
   Game.ladder (Game.players g' p) = Game.ladder d ++ [w] /\
   Game.ladder (Game.players g' (Game.opponent p))
   = Game.ladder (Game.players g (Game.opponent p)) /\
   Game.algorithm g' = Game.algorithm g) /\
  (if eqb w (Game.endWord g)
   then o = Game.GameOver p /\ Game.gameEnded g' = true
   else Game.currentTurn g' = Game.opponent p /\ Game.gameEnded g' = false).
Proof.
  unfold Game.submitMove. cbv zeta.
  destruct (Game.gameEnded g) eqn:Ee; [discriminate|].
  destruct (Game.isPaused g) eqn:Ep; [discriminate|]. cbn [orb].
  destruct (Game.player_id_eqb (Game.currentTurn g) p) eqn:Et; [|discriminate].
  cbn [negb]. apply player_id_eqb_eq in Et.
  destruct (truthy (trim (toLowerCase input))) eqn:Tw; [|discriminate]. cbn [negb].
  destruct (isValidWord (Game.algorithm g) (trim (toLowerCase input))) eqn:Vw;
    [|discriminate]. cbn [negb].
  destruct (includes (Game.ladder (Game.players g p)) (trim (toLowerCase input))) eqn:Iw;
    [discriminate|].
  destruct (areNeighbors (Game.currentWord (Game.players g p))
              (trim (toLowerCase input))) eqn:Nw; [|discriminate]. cbn [negb].
  pose proof (makeMove_spec p (trim (toLowerCase input)) g) as M. cbv zeta in M.
  destruct (Game.makeMove p (trim (toLowerCase input)) g) as [g1 o1].
  cbn [fst snd] in M. intros X. injection X as <- <-.
  destruct M as (Ma & _ & _ & _ & Mc & Ml & _ & Mo & Mr).
  split; [split; [reflexivity | split; [reflexivity | exact Et]]|].
  split.
  { split; [intros E; rewrite E in Tw; discriminate Tw|].
    split; [reflexivity|]. split; [|reflexivity].
    intros I. apply includes_In in I. congruence. }
  split; [split; [exact Mc | split; [exact Ml | split; [exact Mo | exact Ma]]]|].
  destruct (eqb (trim (toLowerCase input)) (Game.endWord g)).
  - exact Mr.
  - destruct Mr as (Mt & Me & _). split; [exact Mt | congruence].
Qed.

Lemma submitMove_accepts_legal_moves_only_witness :
  exists g' o,
    Game.submitMove Game.player1 (str " Cot ") game_cat_cot = Game.Moved g' o /\
    Game.ladder (Game.players g' Game.player1) = [str "cat"; str "cot"] /\
    Game.currentTurn g' = Game.player2.
Proof.
  destruct (Game.submitMove Game.player1 (str " Cot ") game_cat_cot)
    as [| |g' o] eqn:X; [discriminate X | discriminate X |].
  exists g', o. split; [reflexivity|].
  destruct (submitMove_accepts_legal_moves_only Game.player1 (str " Cot ")
              game_cat_cot g' o X) as (_ & _ & (_ & L & _) & T).
  split; [exact L|]. exact (proj1 T).
Defined.


(** *** Ladders stay chains *)

Lemma chain_snoc e l w :
  l <> [] -> chain e l -> one_letter_apart (last l []) w -> isValidWord e w = true ->
  chain e (l ++ [w]).
Proof.
  induction l as [|a r IH]; intros N C O V; [contradiction|].
  destruct r as [|b r'].
  - cbn in O |- *. split; [exact O|]. split; [exact V | exact I].
  - change (chain e (a :: b :: r' ++ [w])).
    change (chain e (a :: b :: r'))
      with (one_letter_apart a b /\ isValidWord e b = true /\ chain e (b :: r')) in C.
    destruct C as (C1 & C2 & C3).
    change (one_letter_apart a b /\ isValidWord e b = true /\ chain e ((b :: r') ++ [w])).
    split; [exact C1|]. split; [exact C2|].
    apply IH; [discriminate | exact C3 | exact O | exact V].
Qed.

Lemma chain_same_dict e e' l : same_dict e e' -> chain e l -> chain e' l.
Proof.
  intros (W & _ & _). induction l as [|a r IH]; intros C; [exact I|].
  destruct r as [|b r']; [exact I|].
  change (one_letter_apart a b /\ isValidWord e b = true /\ chain e (b :: r')) in C.
  change (one_letter_apart a b /\ isValidWord e' b = true /\ chain e' (b :: r')).
  destruct C as (C1 & C2 & C3). split; [exact C1|]. split; [|apply IH, C3].
  unfold isValidWord in *. rewrite W. exact C2.
Qed.

Lemma player_ok_same_dict e e' sw d :
  same_dict e e' -> player_ok e sw d -> player_ok e' sw d.
Proof.
  intros D (N & L & C). split; [exact N|]. split; [exact L|].
  apply (chain_same_dict e e' _ D C).
Qed.

Lemma dict_ok_same_dict e e' : same_dict e e' -> dict_ok e -> dict_ok e'.
Proof.
  intros (W & G & B) [[K C Ws Gr] Kn].
  assert (Kn' : forall w, known e' w <-> known e w)
    by (intros w; unfold known; rewrite B; reflexivity).
  split; [split|].
  - rewrite B. exact K.
  - rewrite B. exact C.
  - intros w I. apply Kn'. apply Ws. rewrite <- W. exact I.
  - intros u v. rewrite G, !Kn'. apply Gr.
  - intros w I. rewrite W. apply Kn, Kn', I.
Qed.

Lemma player_either p q : q = p \/ q = Game.opponent p.
Proof. destruct p, q; cbn; auto. Qed.

Lemma player_ok_moved e sw d w :
  player_ok e sw d -> one_letter_apart (Game.currentWord d) w ->
  isValidWord e w = true ->
  forall d', Game.currentWord d' = w -> Game.ladder d' = Game.ladder d ++ [w] ->
             player_ok e sw d'.
Proof.
  intros (N & L & C) O V d' Ec El.
  assert (Nn : Game.ladder d <> []) by (intros E; rewrite E in N; discriminate N).
  split; [|split].
  - rewrite El. apply hd_error_app, N.
  - rewrite El, Ec. symmetry. apply last_last.
  - rewrite El. apply chain_snoc; [exact Nn | exact C | now rewrite <- L | exact V].
Qed.

(** A word listed as a neighbour is one letter apart and valid. *)
Lemma dict_ok_neighbor e u v :
  dict_ok e -> In v (neighbors (wordGraph e) u) ->
  one_letter_apart u v /\ isValidWord e v = true.
Proof.
  intros [[K C Ws Gr] Kn] I. apply Gr in I. destruct I as (_ & Kv & O).
  split; [exact O|]. unfold isValidWord.
  assert (T : test_lower_alpha v = true).
  { unfold known in Kv. pose proof (class_of_In_entry _ _ _ Kv) as En.
    destruct (C _ _ En) as [_ S]. apply (S v Kv). }
  rewrite (lower_toLowerCase v T). apply set_has_In, Kn, Kv.
Qed.

(** A move keeps the game in order, when the word is one letter from
    the current word of the player, and valid. *)
Lemma makeMove_ok p w g :
  game_ok g ->
  one_letter_apart (Game.currentWord (Game.players g p)) w ->
  isValidWord (Game.algorithm g) w = true ->
  game_ok (fst (Game.makeMove p w g)).
Proof.
  intros [D R Df Pl] O V.
  destruct (makeMove_spec p w g) as (Ma & _ & Md & Ms & Mc & Ml & Moc & Mol & _).
  split.
  - rewrite Ma. exact D.
  - rewrite Ma. exact R.
  - rewrite Md. exact Df.
  - intros q. rewrite Ma, Ms. destruct (player_either p q) as [->| ->].
    + apply (player_ok_moved _ _ _ w (Pl p) O V _ Mc Ml).
    + destruct (Pl (Game.opponent p)) as (N & L & C).
      split; [rewrite Mol; exact N|]. split; [rewrite Mol, Moc; exact L|].
      rewrite Mol. exact C.
Qed.

Lemma endGame_ok g : game_ok g -> game_ok (Game.endGame g).
Proof.
  intros [D R Df Pl]. unfold Game.endGame.
  destruct (calculateScores_spec (Game.with_ended g true))
    as (Ea & _ & Es & _ & _ & _ & Ed & Q).
  split.
  - rewrite Ea. exact D.
  - rewrite Ea. exact R.
  - rewrite Ed. exact Df.
  - intros q. rewrite Ea, Es. destruct (Q q) as (Qc & Ql & _).
    assert (Pq : Game.players (Game.with_ended g true) q = Game.players g q)
      by (destruct q; reflexivity).
    rewrite Pq in Qc, Ql. destruct (Pl q) as (N & L & C).
    split; [rewrite Ql; exact N|]. split; [rewrite Ql, Qc; exact L|].
    rewrite Ql. exact C.
Qed.

Lemma with_algorithm_ok g e1 :
  game_ok g -> still_ready (Game.algorithm g) e1 -> game_ok (Game.with_algorithm g e1).
Proof.
  intros [D R Df Pl] [R1 D1]. split.
  - apply (dict_ok_same_dict _ _ D1 D).
  - exact R1.
  - exact Df.
  - intros q. assert (Pq : Game.players (Game.with_algorithm g e1) q = Game.players g q)
      by (destruct q; reflexivity).
    rewrite Pq. apply (player_ok_same_dict _ _ _ _ D1 (Pl q)).
Qed.

Lemma submitMove_ok p input g g' o :
  game_ok g -> Game.submitMove p input g = Game.Moved g' o -> game_ok g'.
Proof.
  intros Ok. unfold Game.submitMove.
  destruct (Game.gameEnded g || Game.isPaused g); [discriminate|].
  destruct (negb (Game.player_id_eqb (Game.currentTurn g) p)); [discriminate|].
  cbv zeta.
  destruct (negb (truthy (trim (toLowerCase input)))); [discriminate|].
  destruct (isValidWord (Game.algorithm g) (trim (toLowerCase input))) eqn:V;
    [|discriminate]. cbn [negb].
  destruct (includes (Game.ladder (Game.players g p)) (trim (toLowerCase input)));
    [discriminate|].
  destruct (areNeighbors (Game.currentWord (Game.players g p))
              (trim (toLowerCase input))) eqn:N; [|discriminate]. cbn [negb].
  pose proof (makeMove_ok p (trim (toLowerCase input)) g Ok
                (proj1 (areNeighbors_iff _ _) N) V) as M.
  destruct (Game.makeMove p (trim (toLowerCase input)) g) as [g1 o1].
  cbn [fst] in M. intros X. injection X as <- <-. exact M.
Qed.

(** *** The move of the AI *)

Lemma selectAIMove_four fuel currentWord targetWord difficulty playerLadder t e x :
  In difficulty four_names -> search_ready e ->
  selectAIMove fuel currentWord targetWord difficulty playerLadder t e = Some x ->
  exists m t1 e1, x = Returns (VMove m) t1 e1 /\
    (forall w, m = Some w -> In w (neighbors (wordGraph e) currentWord)) /\
    still_ready e e1.
Proof.
  intros I R. unfold four_names in I. cbn [map In] in I.
  destruct I as [<-|[<-|[<-|[<-|[]]]]]; unfold selectAIMove.
  - change (lookupStrategy (str "easy")) with (OwnStrategy Easy). cbv iota.
    pose proof (selectEasyMove_spec currentWord targetWord t e) as S.
    destruct (selectEasyMove currentWord targetWord t e) as [[m t1] e1].
    destruct S as (F & H & M). intros X. injection X as <-.
    exists m, t1, e1. split; [reflexivity|]. split.
    + intros w ->. exact M.
    + apply (same_but_heuristics_ready e e1 R F), H, (sr_heuristics e R).
  - change (lookupStrategy (str "medium")) with (OwnStrategy Medium). cbv iota.
    pose proof (selectMediumMove_spec currentWord targetWord t e) as S.
    destruct (selectMediumMove currentWord targetWord t e) as [[m t1] e1].
    destruct S as (F & H & M). intros X. injection X as <-.
    exists m, t1, e1. split; [reflexivity|]. split.
    + intros w ->. exact M.
    + apply (same_but_heuristics_ready e e1 R F), H, (sr_heuristics e R).
  - change (lookupStrategy (str "hard")) with (OwnStrategy Hard). cbv iota.
    destruct (selectHardMove fuel currentWord targetWord playerLadder t e)
      as [[[m t1] e1]|] eqn:Y; [|discriminate].
    destruct (selectHardMove_spec fuel currentWord targetWord playerLadder t e
                m t1 e1 R Y) as (A & _ & R1).
    intros X. injection X as <-. exists m, t1, e1.
    split; [reflexivity|]. split; [exact A | exact R1].
  - change (lookupStrategy (str "expert")) with (OwnStrategy Expert). cbv iota.
    destruct (selectExpertMove fuel currentWord targetWord playerLadder e)
      as [[m e1]|] eqn:Y; [|discriminate].
    pose proof (selectExpertMove_ready fuel currentWord targetWord playerLadder e
                  m e1 R Y) as R1.
    intros X. injection X as <-. exists m, t, e1.
    split; [reflexivity|]. split; [|exact R1].
    unfold selectExpertMove, expertRoot in Y.
    destruct (minimax fuel 4 currentWord targetWord NInf PInf true playerLadder e)
      as [v|] eqn:Z; [|discriminate].
    cbn [option_map] in Y. injection Y as <- <-.
    apply (minimax_move fuel 4 currentWord targetWord NInf PInf true playerLadder e v Z).
Qed.

Lemma aiTimeout_spec fuel p t g r :
  game_ok g -> Game.aiTimeout fuel p t g = Some r ->
  match r with
  | Game.AiMoved g' o t' =>
      game_ok g' /\
      exists w,
        In w (getNeighbors (Game.algorithm g) (Game.currentWord (Game.players g p))) /\
        Game.currentWord (Game.players g' p) = w /\
        Game.ladder (Game.players g' p) = Game.ladder (Game.players g p) ++ [w] /\
        Game.ladder (Game.players g' (Game.opponent p))
        = Game.ladder (Game.players g (Game.opponent p)) /\
        (if eqb w (Game.endWord g) then o = Game.GameOver p
         else Game.currentTurn g' = Game.opponent p)
  | Game.AiStuck g' winner t' =>
      game_ok g' /\ winner = Game.opponent p /\ Game.gameEnded g' = true /\
      forall q, Game.ladder (Game.players g' q) = Game.ladder (Game.players g q)
  | Game.AiThrows => False
  | Game.AiNotAString _ => False
  end.
Proof.
  intros Ok. unfold Game.aiTimeout. cbv zeta.
  destruct (selectAIMove fuel (Game.currentWord (Game.players g p)) (Game.endWord g)
              (Game.difficulty g) (Game.ladder (Game.players g (Game.opponent p))) t
              (Game.algorithm g)) as [x|] eqn:X; [|discriminate].
  destruct (selectAIMove_four _ _ _ _ _ _ _ x (go_difficulty g Ok) (go_ready g Ok) X)
    as (m & t1 & e1 & -> & Nb & R1).
  pose proof (with_algorithm_ok g e1 Ok R1) as Ok1.
  assert (Pq : forall q, Game.players (Game.with_algorithm g e1) q = Game.players g q)
    by (intros q; destruct q; reflexivity).
  assert (Stuck : forall r0,
            Some (Game.AiStuck (Game.endGame (Game.with_algorithm g e1))
                               (Game.opponent p) t1) = Some r0 ->
            match r0 with
            | Game.AiStuck g' winner t' =>
                game_ok g' /\ winner = Game.opponent p /\ Game.gameEnded g' = true /\
                forall q, Game.ladder (Game.players g' q) = Game.ladder (Game.players g q)
            | _ => False
            end).
  { intros r0 E. injection E as <-.
    split; [apply endGame_ok, Ok1|]. split; [reflexivity|].
    destruct (calculateScores_spec (Game.with_ended (Game.with_algorithm g e1) true))
      as (_ & _ & _ & _ & Ee & _ & _ & Q).
    split; [exact Ee|]. intros q. destruct (Q q) as (_ & Ql & _).
    unfold Game.endGame. rewrite Ql. destruct q; reflexivity. }
  assert (Move : forall w r0,
            m = Some w ->
            (let (g2, o) := Game.makeMove p w (Game.with_algorithm g e1) in
             Some (Game.AiMoved g2 o t1)) = Some r0 ->
            match r0 with
            | Game.AiMoved g' o t' =>
                game_ok g' /\
                exists w,
                  In w (getNeighbors (Game.algorithm g)
                          (Game.currentWord (Game.players g p))) /\
                  Game.currentWord (Game.players g' p) = w /\
                  Game.ladder (Game.players g' p) = Game.ladder (Game.players g p) ++ [w] /\
                  Game.ladder (Game.players g' (Game.opponent p))
                  = Game.ladder (Game.players g (Game.opponent p)) /\
                  (if eqb w (Game.endWord g) then o = Game.GameOver p
                   else Game.currentTurn g' = Game.opponent p)
            | _ => False
            end).
  { intros w r0 Em. pose proof (Nb w Em) as Iw.
    destruct (dict_ok_neighbor _ _ _ (go_dict g Ok) Iw) as [O V].
    assert (V1 : isValidWord (Game.algorithm (Game.with_algorithm g e1)) w = true).
    { cbn [Game.with_algorithm Game.algorithm]. unfold isValidWord in *.
      destruct R1 as [_ (W & _)]. rewrite W. exact V. }
    assert (O1 : one_letter_apart
                   (Game.currentWord (Game.players (Game.with_algorithm g e1) p)) w)
      by (rewrite Pq; exact O).
    pose proof (makeMove_ok p w (Game.with_algorithm g e1) Ok1 O1 V1) as M.
    destruct (makeMove_spec p w (Game.with_algorithm g e1))
      as (_ & _ & _ & _ & Mc & Ml & _ & Mol & Mr).
    destruct (Game.makeMove p w (Game.with_algorithm g e1)) as [g2 o2].
    cbn [fst snd] in M, Mc, Ml, Mol, Mr. intros E. injection E as <-.
    split; [exact M|]. exists w. split; [exact Iw|]. split; [exact Mc|].
    rewrite !Pq in Ml, Mol. split; [exact Ml|]. split; [exact Mol|].
    change (Game.endWord (Game.with_algorithm g e1)) with (Game.endWord g) in Mr.
    destruct (eqb w (Game.endWord g)); [exact (proj1 Mr) | exact (proj1 Mr)]. }
  destruct m as [w|].
  - destruct (truthy w).
    + intros E. pose proof (Move w r Logic.eq_refl E) as Mv.
      destruct r; try contradiction. exact Mv.
    + intros E. specialize (Stuck r E). destruct r; try contradiction. exact Stuck.
  - intros E. specialize (Stuck r E). destruct r; try contradiction. exact Stuck.
Qed.

Lemma aiTimeout_some fuel p t g :
  game_ok g -> enoughFuel (wordGraph (Game.algorithm g)) <= fuel ->
  Game.aiTimeout fuel p t g <> None.
Proof.
  intros Ok F. unfold Game.aiTimeout. cbv zeta.
  pose proof (selectAIMove_some fuel (Game.currentWord (Game.players g p))
                (Game.endWord g) (Game.difficulty g)
                (Game.ladder (Game.players g (Game.opponent p))) t (Game.algorithm g)
                (go_difficulty g Ok) (go_ready g Ok) F) as S.
  destruct (selectAIMove fuel (Game.currentWord (Game.players g p)) (Game.endWord g)
              (Game.difficulty g) (Game.ladder (Game.players g (Game.opponent p))) t
              (Game.algorithm g)) as [x|] eqn:X; [|contradiction].
  destruct (selectAIMove_four _ _ _ _ _ _ _ x (go_difficulty g Ok) (go_ready g Ok) X)
    as (m & t1 & e1 & -> & _).
  destruct m as [w|]; [|discriminate].
  destruct (truthy w); [|discriminate].
  destruct (Game.makeMove p w (Game.with_algorithm g e1)). discriminate.
Qed.

(** *** The states a game reaches *)

Lemma submitMove_startWord p input g g' o :
  Game.submitMove p input g = Game.Moved g' o ->
  Game.startWord g' = Game.startWord g.
Proof.
  unfold Game.submitMove.
  destruct (Game.gameEnded g || Game.isPaused g); [discriminate|].
  destruct (negb (Game.player_id_eqb (Game.currentTurn g) p)); [discriminate|].
  cbv zeta.
  destruct (negb (truthy (trim (toLowerCase input)))); [discriminate|].
  destruct (negb (isValidWord (Game.algorithm g) (trim (toLowerCase input))));
    [discriminate|].
  destruct (includes (Game.ladder (Game.players g p)) (trim (toLowerCase input)));
    [discriminate|].
  destruct (negb (areNeighbors (Game.currentWord (Game.players g p))
                    (trim (toLowerCase input)))); [discriminate|].
  destruct (makeMove_spec p (trim (toLowerCase input)) g) as (_ & _ & _ & Ms & _).
  destruct (Game.makeMove p (trim (toLowerCase input)) g) as [g1 o1].
  cbn [fst] in Ms. intros X. injection X as <- <-. exact Ms.
Qed.

Lemma same_head_same_startWord g g' q :
  game_ok g -> game_ok g' ->
  hd_error (Game.ladder (Game.players g' q)) = hd_error (Game.ladder (Game.players g q)) ->
  Game.startWord g' = Game.startWord g.
Proof.
  intros Ok Ok' E.
  destruct (go_players g Ok q) as (H & _). destruct (go_players g' Ok' q) as (H' & _).
  congruence.
Qed.

Lemma step_ok g g' :
  game_ok g -> step g g' -> game_ok g' /\ Game.startWord g' = Game.startWord g.
Proof.
  intros Ok S. destruct S as [p input g g' o X|fuel p t g g' o t' X|fuel p t g g' w t' X].
  - split; [apply (submitMove_ok p input g g' o Ok X)|].
    apply (submitMove_startWord p input g g' o X).
  - pose proof (aiTimeout_spec fuel p t g _ Ok X) as (Ok' & w & _ & _ & _ & Lo & _).
    split; [exact Ok'|].
    apply (same_head_same_startWord g g' (Game.opponent p) Ok Ok'). now rewrite Lo.
  - pose proof (aiTimeout_spec fuel p t g _ Ok X) as (Ok' & _ & _ & L).
    split; [exact Ok'|].
    apply (same_head_same_startWord g g' p Ok Ok'). now rewrite L.
Qed.

Lemma steps_ok g g' :
  game_ok g -> steps g g' -> game_ok g' /\ Game.startWord g' = Game.startWord g.
Proof.
  intros Ok S. induction S as [g|g1 g2 g3 S1 S2 IH].
  - split; [exact Ok | reflexivity].
  - destruct (step_ok g1 g2 Ok S1) as [Ok2 E2].
    destruct (IH Ok2) as [Ok3 E3]. split; [exact Ok3 | congruence].
Qed.

Lemma startGame_ok fuel startInput endInput difficultyInput g g1 ai :
  dict_ok (Game.algorithm g) -> search_ready (Game.algorithm g) ->
  In difficultyInput four_names ->
  Game.startGame fuel startInput endInput difficultyInput g
  = Some (Game.Started g1 ai) ->
  game_ok g1 /\ Game.startWord g1 = trim (toLowerCase startInput).
Proof.
  intros D R I. unfold Game.startGame.
  destruct (negb (Game.isInitialized g)); [discriminate|]. cbv zeta.
  destruct (findPath fuel (trim (toLowerCase startInput)) (trim (toLowerCase endInput))
              true (Game.algorithm g)) as [[[p|] e1]|] eqn:X;
    [|discriminate|discriminate].
  pose proof (findPath_ready fuel _ _ true (Game.algorithm g) (Some p) e1 R X) as R1.
  intros Y. injection Y as <- _. split; [|reflexivity]. split.
  - apply (dict_ok_same_dict _ _ (proj2 R1) D).
  - exact (proj1 R1).
  - exact I.
  - intros q. destruct q; (split; [reflexivity|]; split; [reflexivity | exact Logic.I]).
Qed.

Lemma dict_ok_initialize lines : dict_ok (initialize lines new_engine).
Proof.
  split.
  - apply initialize_ok, new_engine_ok.
  - intros w K. apply (proj1 (known_initialize_new lines w) K).
Qed.

Lemma game_cat_cot_ok : game_ok game_cat_cot.
Proof.
  split.
  - apply dict_ok_initialize.
  - apply search_ready_initialize.
  - left. reflexivity.
  - intros q. destruct q; (split; [reflexivity|]; split; [reflexivity | exact Logic.I]).
Qed.

(** X29. In every state that a game reaches from [startGame] by moves
    of the players and by timer callbacks of the AI, each player's
    ladder begins with the start word that was entered (lower-cased and
    trimmed), ends with the player's current word, and each of its words
    after the first is a valid word one letter apart from the word
    before it. *)
Theorem ladders_stay_chains fuel startInput endInput difficultyInput g0 g1 ai g' q :
  dict_ok (Game.algorithm g0) -> search_ready (Game.algorithm g0) ->
  In difficultyInput four_names ->
  Game.startGame fuel startInput endInput difficultyInput g0
  = Some (Game.Started g1 ai) ->
  steps g1 g' ->
  hd_error (Game.ladder (Game.players g' q)) = Some (trim (toLowerCase startInput)) /\
  Game.currentWord (Game.players g' q) = last (Game.ladder (Game.players g' q)) [] /\
  chain (Game.algorithm g') (Game.ladder (Game.players g' q)).
Proof.
  intros D R I X S.
  destruct (startGame_ok fuel startInput endInput difficultyInput g0 g1 ai D R I X)
    as [Ok1 E1].
  destruct (steps_ok g1 g' Ok1 S) as [Ok' E'].
  destruct (go_players g' Ok' q) as (H & L & C).
  split; [congruence|]. split; [exact L | exact C].
Qed.

Lemma ladders_stay_chains_witness :
  exists g1 ai g2 o,
    Game.startGame 37 (str " Cat") (str "dog") (str "hard") game_cat_cot
    = Some (Game.Started g1 ai) /\
    Game.submitMove Game.player1 (str "cot") g1 = Game.Moved g2 o /\
    hd_error (Game.ladder (Game.players g2 Game.player1)) = Some (str "cat") /\
    Game.currentWord (Game.players g2 Game.player1)
    = last (Game.ladder (Game.players g2 Game.player1)) [] /\
    chain (Game.algorithm g2) (Game.ladder (Game.players g2 Game.player1)).
Proof.
  destruct (Game.startGame 37 (str " Cat") (str "dog") (str "hard") game_cat_cot)
    as [[msg g|g1 ai]|] eqn:X.
  - exfalso. vm_compute in X. discriminate X.
  - destruct (Game.submitMove Game.player1 (str "cot") g1) as [| |g2 o] eqn:Y.
    + exfalso. revert Y. vm_compute in X. injection X as <- <-.
      vm_compute. discriminate.
    + exfalso. revert Y. vm_compute in X. injection X as <- <-.
      vm_compute. discriminate.
    + exists g1, ai, g2, o. split; [reflexivity|]. split; [exact Y|].
      apply (ladders_stay_chains 37 (str " Cat") (str "dog") (str "hard")
               game_cat_cot g1 ai g2 Game.player1).
      * apply dict_ok_initialize.
      * apply search_ready_initialize.
      * right. right. left. reflexivity.
      * exact X.
      * apply (steps_more g1 g2 g2); [|apply steps_none].
        apply (step_submit Game.player1 (str "cot") g1 g2 o Y).
  - exfalso. vm_compute in X. discriminate X.
Defined.

(** X30. The timer callback of [makeAIMove], in a reachable state and
    with one of the four difficulty names: it returns (the searches it
    runs terminate), it never throws and never gets a value that is not
    a word; either the AI moves to a neighbour of its current word in
    the word graph, which is appended to its ladder while the
    opponent's ladder stays, or the AI concedes: the game ends with the
    opponent as winner and both ladders as they were. *)
Theorem aiTimeout_moves_or_concedes fuel p t g :
  game_ok g -> enoughFuel (wordGraph (Game.algorithm g)) <= fuel ->
  (exists g' o t' w,
      Game.aiTimeout fuel p t g = Some (Game.AiMoved g' o t') /\
      In w (getNeighbors (Game.algorithm g) (Game.currentWord (Game.players g p))) /\
      Game.currentWord (Game.players g' p) = w /\
      Game.ladder (Game.players g' p) = Game.ladder (Game.players g p) ++ [w] /\
      Game.ladder (Game.players g' (Game.opponent p))
      = Game.ladder (Game.players g (Game.opponent p)) /\
      (if eqb w (Game.endWord g) then o = Game.GameOver p
       else Game.currentTurn g' = Game.opponent p)) \/
  (exists g' t',
      Game.aiTimeout fuel p t g = Some (Game.AiStuck g' (Game.opponent p) t') /\
      Game.gameEnded g' = true /\
      forall q, Game.ladder (Game.players g' q) = Game.ladder (Game.players g q)).
Proof.
  intros Ok F. pose proof (aiTimeout_some fuel p t g Ok F) as S.
  destruct (Game.aiTimeout fuel p t g) as [r|] eqn:X; [|contradiction].
  pose proof (aiTimeout_spec fuel p t g r Ok X) as A.
  destruct r as [g' o t'|g' winner t'| |v]; [| |contradiction|contradiction].
  - left. destruct A as (_ & w & A). exists g', o, t', w. split; [reflexivity | exact A].
  - right. destruct A as (_ & -> & E & L). exists g', t'.
    split; [reflexivity|]. split; [exact E | exact L].
Qed.

Lemma aiTimeout_moves_or_concedes_witness :
  (exists g' o t' w,
      Game.aiTimeout 37 Game.player2 [] game_cat_cot = Some (Game.AiMoved g' o t') /\
      In w (getNeighbors scenario1 (str "cat")) /\
      Game.currentWord (Game.players g' Game.player2) = w /\
      Game.ladder (Game.players g' Game.player2) = [str "cat"] ++ [w] /\
      Game.ladder (Game.players g' Game.player1) = [str "cat"] /\
      (if eqb w (str "dog") then o = Game.GameOver Game.player2
       else Game.currentTurn g' = Game.player1)) \/
  (exists g' t',
      Game.aiTimeout 37 Game.player2 [] game_cat_cot
      = Some (Game.AiStuck g' Game.player1 t') /\
      Game.gameEnded g' = true /\
      forall q, Game.ladder (Game.players g' q) = Game.ladder (Game.players game_cat_cot q)).
Proof.
  apply (aiTimeout_moves_or_concedes 37 Game.player2 [] game_cat_cot game_cat_cot_ok).
  apply Nat.leb_le. vm_compute. reflexivity.
Defined.
